(** * multi-writer: the fan-out dispatcher and the stream consumer

    A shallow embedding of the script of
    [frontend/src/components/ai-elements/prompt-input/PromptInput.vue]
    (the component that owns the conversation log), with the properties
    of its per-model history projection, of [sendPrompt] and of the
    streaming exchanges it launches. *)

From Stdlib Require Import NArith String Ascii DecimalString DecimalN DecimalPos.
From stdpp Require Import gmap list.

Set Warnings "-register-all".
Local Open Scope N_scope.

(** ** JavaScript strings

    A JavaScript string is a sequence of UTF-16 code units; every
    operation the component performs on strings ([split], [startsWith],
    [slice], [trim], [===], [+=]) works on code units, so a string is
    modelled as the list of its code units. *)

Module Js.

Abbreviation str := (list N).

(** The code unit of a character below 256. *)
Definition unit (a : ascii) : N := N.of_nat (nat_of_ascii a).

(** The code units of a literal written with such characters. *)
Definition lit (s : string) : str := unit <$> list_ascii_of_string s.

(** [Number.prototype.toString] on a non-negative integer, as used for
    [Date.now().toString()] and for the template literals
    [`${Date.now()}-${idx}`] and [`Status: ${res.status}`]. *)
Definition of_N (n : N) : str := lit (NilZero.string_of_uint (N.to_uint n)).

(** A string is falsy exactly when it is empty. *)
Definition truthy (s : str) : bool :=
  match s with [] => false | _ :: _ => true end.

(** [a || b] on strings. *)
Definition or_else (a b : str) : str := if truthy a then a else b.

(** [s.split(sep)] for a separator of one code unit: never empty, and
    the array of one empty string on the empty string. *)
Fixpoint split (sep : N) (s : str) : list str :=
  match s with
  | [] => [[]]
  | c :: r =>
      if c =? sep then [] :: split sep r
      else match split sep r with
           | [] => [[c]]
           | x :: xs => (c :: x) :: xs
           end
  end.

(** [s.startsWith(p)]. *)
Fixpoint startsWith (p s : str) : bool :=
  match p, s with
  | [], _ => true
  | _ :: _, [] => false
  | a :: p', b :: s' => (a =? b) && startsWith p' s'
  end.

(** [s.slice(n)] for [0 <= n]. *)
Definition slice (n : nat) (s : str) : str := drop n s.

Definition eqb (a b : str) : bool := bool_decide (a = b).

(** WhiteSpace and LineTerminator of ECMAScript: what [trim] removes. *)
Definition is_space (c : N) : bool :=
  ((9 <=? c) && (c <=? 13)) || (c =? 32) || (c =? 160) || (c =? 5760)
  || ((8192 <=? c) && (c <=? 8202)) || (c =? 8232) || (c =? 8233)
  || (c =? 8239) || (c =? 8287) || (c =? 12288) || (c =? 65279).

Fixpoint trimStart (s : str) : str :=
  match s with
  | c :: r => if is_space c then trimStart r else s
  | [] => []
  end.

Definition trimEnd (s : str) : str := reverse (trimStart (reverse s)).

Definition trim (s : str) : str := trimEnd (trimStart s).

(** [arr.includes(x)] on an array of strings. *)
Definition includes (x : str) (arr : list str) : bool := bool_decide (x ∈ arr).

End Js.

Abbreviation jsstring := Js.str.
Abbreviation js := Js.lit.

(** ** Model catalog: names derived from a model identifier *)

Definition slash : N := 47.
Definition colon : N := 58.
Definition newline : N := 10.

(** [modelId.split('/').pop() || modelId] *)
Definition getModelDisplayName (modelId : jsstring) : jsstring :=
  Js.or_else (default [] (last (Js.split slash modelId))) modelId.

(** Extract provider from model ID (e.g., "openai/gpt-4" -> "openai"). *)
Definition getProvider (modelId : jsstring) : jsstring :=
  let base := Js.or_else (default [] (head (Js.split slash modelId))) modelId in
  if Js.startsWith (js "gpt-") base then js "openai"
  else if Js.startsWith (js "claude-") base then js "anthropic"
  else Js.or_else (default [] (head (Js.split colon base))) base.

(** Get display name from model ID (e.g., "openai/gpt-4" -> "gpt-4"). *)
Definition getDisplayName (modelId : jsstring) : jsstring :=
  let parts := Js.split slash modelId in
  if bool_decide (1 < length parts)%nat then
    let lastPart := default [] (last parts) in
    Js.or_else lastPart modelId
  else modelId.

(** ** Data model *)

(** Arrays of model identifiers are JavaScript objects: the selection and
    the [targetModels] of a turn hold references into a store of arrays.
    No array is ever freed, so the store is a list and a reference is an
    index in it. *)
Abbreviation ref := nat (only parsing).
Abbreviation Heap := (list (list jsstring)).

Definition deref (h : Heap) (r : ref) : list jsstring := default [] (h !! r).

(** A fresh array holding [arr]: the new store and the new reference. *)
Definition alloc (arr : list jsstring) (h : Heap) : Heap * ref :=
  (h ++ [arr], length h).

Inductive Role := user | assistant.

(** [interface ChatMessage]; an optional field is [None] when it is
    [undefined]. *)
Record ChatMessage := {
  id : jsstring;
  role : Role;
  content : jsstring;
  model : option jsstring;
  targetModels : option ref;
  loading : option bool;
  error : option jsstring;
}.

Global Instance Role_eq_dec : EqDecision Role.
Proof. solve_decision. Defined.
Global Instance ChatMessage_eq_dec : EqDecision ChatMessage.
Proof. solve_decision. Defined.

(** Truthiness of an optional string: set and not empty. *)
Definition set_nonempty (o : option jsstring) : bool :=
  match o with
  | Some s => Js.truthy s
  | None => false
  end.

(** Truthiness of an optional boolean. *)
Definition is_true_opt (o : option bool) : bool := default false o.

(** What is sent upstream for one turn: [{ role: m.role, content: m.content }]. *)
Abbreviation Wire := (Role * jsstring)%type.

(** The body of [POST /chat/completions]; [stream] is always [true]. *)
Record Request := {
  req_model : option jsstring;
  req_messages : list Wire;
  req_stream : bool;
}.

(** Where the asynchronous callback of one placeholder is suspended. *)
Inductive Phase :=
| AwaitFetch   (* [await fetch(...)] *)
| AwaitRead    (* [await reader.read()] *)
| Settled.     (* the callback has run its [finally] block *)

(** One invocation of the callback of [assistantMessages.forEach]: the
    placeholder it closes over (only its [id] and [model], which nothing
    ever assigns, are read) and its suspension point. *)
Record Exchange := {
  msg : ChatMessage;
  phase : Phase;
}.

(** The externally visible effects whose order matters: a turn pushed on
    the log, and a network call begun. *)
Inductive Effect :=
| Push (m : ChatMessage)
| Fetch (r : Request).

(** The reactive state of the component. [modelPrompts] and
    [isModelLoading] are plain objects used as maps from model
    identifiers: a map holds the properties of the object itself. What
    is read under a name the object does not hold, and what an
    assignment under [__proto__] does, is told by [busy],
    [currentPrompt] and [assign]. *)
Record State := {
  heap : Heap;
  prompt : jsstring;
  modelPrompts : gmap jsstring jsstring;
  selectedModels : ref;
  messages : list ChatMessage;
  isModelLoading : gmap jsstring bool;
  exchanges : list Exchange;
  effects : list Effect;
}.

Definition with_heap (h : Heap) (st : State) : State :=
  {| heap := h; prompt := prompt st; modelPrompts := modelPrompts st;
     selectedModels := selectedModels st; messages := messages st;
     isModelLoading := isModelLoading st; exchanges := exchanges st;
     effects := effects st |}.

Definition with_prompt (p : jsstring) (st : State) : State :=
  {| heap := heap st; prompt := p; modelPrompts := modelPrompts st;
     selectedModels := selectedModels st; messages := messages st;
     isModelLoading := isModelLoading st; exchanges := exchanges st;
     effects := effects st |}.

Definition with_modelPrompts (mp : gmap jsstring jsstring) (st : State) : State :=
  {| heap := heap st; prompt := prompt st; modelPrompts := mp;
     selectedModels := selectedModels st; messages := messages st;
     isModelLoading := isModelLoading st; exchanges := exchanges st;
     effects := effects st |}.

Definition with_selectedModels (r : ref) (st : State) : State :=
  {| heap := heap st; prompt := prompt st; modelPrompts := modelPrompts st;
     selectedModels := r; messages := messages st;
     isModelLoading := isModelLoading st; exchanges := exchanges st;
     effects := effects st |}.

Definition with_messages (ms : list ChatMessage) (st : State) : State :=
  {| heap := heap st; prompt := prompt st; modelPrompts := modelPrompts st;
     selectedModels := selectedModels st; messages := ms;
     isModelLoading := isModelLoading st; exchanges := exchanges st;
     effects := effects st |}.

Definition with_isModelLoading (l : gmap jsstring bool) (st : State) : State :=
  {| heap := heap st; prompt := prompt st; modelPrompts := modelPrompts st;
     selectedModels := selectedModels st; messages := messages st;
     isModelLoading := l; exchanges := exchanges st;
     effects := effects st |}.

Definition with_exchanges (xs : list Exchange) (st : State) : State :=
  {| heap := heap st; prompt := prompt st; modelPrompts := modelPrompts st;
     selectedModels := selectedModels st; messages := messages st;
     isModelLoading := isModelLoading st; exchanges := xs;
     effects := effects st |}.

Definition with_effects (es : list Effect) (st : State) : State :=
  {| heap := heap st; prompt := prompt st; modelPrompts := modelPrompts st;
     selectedModels := selectedModels st; messages := messages st;
     isModelLoading := isModelLoading st; exchanges := exchanges st;
     effects := es |}.

(** ** Conversation store: the per-model projections *)

(** The callback of the filter in [getHistoryForModelDisplay]. *)
Definition shown_for (h : Heap) (modelId : jsstring) (m : ChatMessage) : bool :=
  match role m with
  | assistant => bool_decide (model m = Some modelId)
  | user =>
      if set_nonempty (model m) then bool_decide (model m = Some modelId)
      else match targetModels m with
           | Some arr => Js.includes modelId (deref h arr)
           | None => true
           end
  end.

Definition getHistoryForModelDisplay (modelId : jsstring) (st : State)
  : list ChatMessage :=
  List.filter (shown_for (heap st) modelId) (messages st).

(** [arr.includes(msg.model!)]: an array of strings never includes
    [undefined]. *)
Definition includes_opt (x : option jsstring) (arr : list jsstring) : bool :=
  match x with
  | Some s => Js.includes s arr
  | None => false
  end.

(** The callback of the filter that builds [history] in [sendPrompt], for
    the placeholder [p] of the exchange. *)
Definition sent_for (h : Heap) (p m : ChatMessage) : bool :=
  if bool_decide (id m = id p) then false
  else match role m with
       | assistant => bool_decide (model m = model p)
       | user =>
           if set_nonempty (model m) then bool_decide (model m = model p)
           else match targetModels m with
                | Some arr => includes_opt (model p) (deref h arr)
                | None => true
                end
       end.

Definition wire (m : ChatMessage) : Wire := (role m, content m).

(** [history] in [sendPrompt]. *)
Definition history (p : ChatMessage) (st : State) : list Wire :=
  wire <$> List.filter (sent_for (heap st) p) (messages st).

(** ** Selection state *)

(** [toggleModel]: the selection is replaced by a new array, the old one
    is left as it was. *)
Definition toggleModel (modelId : jsstring) (st : State) : State :=
  let '(h1, current) := alloc (deref (heap st) (selectedModels st)) (heap st) in
  if Js.includes modelId (deref h1 current) then
    let '(h2, r) :=
      alloc (List.filter (fun m => negb (Js.eqb m modelId)) (deref h1 current)) h1 in
    with_selectedModels r (with_heap h2 st)
  else
    let '(h2, r) := alloc (deref h1 current ++ [modelId]) h1 in
    with_selectedModels r (with_heap h2 st).

(** ** Fan-out dispatcher *)

(** The argument of [sendPrompt]: nothing ([handleSubmit]), a DOM event,
    or the identifier of the panel that submitted. *)
Inductive Arg :=
| NoArg
| EventArg
| IdArg (modelId : jsstring).

Definition resolvedTargetId (targetModelId : Arg) : option jsstring :=
  match targetModelId with
  | IdArg s => Some s
  | NoArg | EventArg => None
  end.

Definition isGlobalFixed (targetModelId : Arg) : bool :=
  negb (set_nonempty (resolvedTargetId targetModelId)).

(** The name of the accessor of [Object.prototype] for the prototype of
    an object. *)
Definition proto : jsstring := js "__proto__".

(** [obj[name] = value] on a plain object, for a string or a boolean.
    Under the name [__proto__] the assignment reaches the setter of
    [Object.prototype], which ignores a value that is not an object: the
    object gets no property. *)
Definition assign {V} (name : jsstring) (value : V) (obj : gmap jsstring V)
  : gmap jsstring V :=
  if bool_decide (name = proto) then obj else <[name := value]> obj.

(** [isGlobalFixed ? prompt.value : (modelPrompts.value[resolvedTargetId] || '')].
    Under a name of [Object.prototype] for which no text is stored, and
    under [__proto__] always, what is read is not a string:
    [currentPrompt?.trim()] throws, and [sendPrompt] is over with the
    state as it is. The empty prompt, on which it returns as well,
    stands for that value. *)
Definition currentPrompt (targetModelId : Arg) (st : State) : jsstring :=
  if isGlobalFixed targetModelId then prompt st
  else if bool_decide (resolvedTargetId targetModelId = Some proto) then []
  else Js.or_else
         (default [] (modelPrompts st !! default [] (resolvedTargetId targetModelId)))
         [].

Definition activeModels (targetModelId : Arg) (st : State) : list jsstring :=
  if isGlobalFixed targetModelId then deref (heap st) (selectedModels st)
  else [default [] (resolvedTargetId targetModelId)].

(** The user turn; [now] is what [Date.now()] returns, [tm] the array
    stored as [targetModels]. *)
Definition userMessage (targetModelId : Arg) (now : N) (tm : option ref)
    (st : State) : ChatMessage :=
  {| id := Js.of_N now;
     role := user;
     content := currentPrompt targetModelId st;
     model := resolvedTargetId targetModelId;
     targetModels := tm;
     loading := None;
     error := None |}.

(** One element of [assistantMessages]. *)
Definition placeholder (now : N) (idx : nat) (m : jsstring) : ChatMessage :=
  {| id := Js.of_N now ++ js "-" ++ Js.of_N (N.of_nat idx);
     role := assistant;
     content := [];
     model := Some m;
     targetModels := None;
     loading := Some true;
     error := None |}.

(** [assistantMessages]: [now idx] is what the call of [Date.now()] for
    the element at [idx] returns. *)
Definition assistantMessages (now : nat → N) (models : list jsstring)
  : list ChatMessage :=
  imap (fun idx m => placeholder (now idx) idx m) models.

Definition push (m : ChatMessage) (st : State) : State :=
  with_effects (effects st ++ [Push m]) (with_messages (messages st ++ [m]) st).

(** [activeModels.forEach(m => { if (m) isModelLoading.value[m] = true })] *)
Definition mark_loading (models : list jsstring) (st : State) : State :=
  with_isModelLoading
    (foldl (fun l m => if Js.truthy m then assign m true l else l)
           (isModelLoading st) models)
    st.

(** The body of the request for the placeholder [p]:
    [{ model: msg.model, messages: history, stream: true }], with the
    history read from the log as it is now. *)
Definition request_for (st : State) (p : ChatMessage) : Request :=
  {| req_model := model p; req_messages := history p st; req_stream := true |}.

(** The callback of [p], suspended at [await fetch(...)]. *)
Definition pending (p : ChatMessage) : Exchange := {| msg := p; phase := AwaitFetch |}.

(** The callback of [assistantMessages.forEach] up to its first [await]:
    the history is computed and the request is sent. *)
Definition launch (st : State) (p : ChatMessage) : State :=
  with_exchanges (exchanges st ++ [pending p])
    (with_effects (effects st ++ [Fetch (request_for st p)]) st).

(** [sendPrompt], up to the point where it returns to the event loop.
    [now 0] is the reading of the clock for the user turn, [now (S idx)]
    the reading for the placeholder at [idx]. *)
Definition sendPrompt (targetModelId : Arg) (now : nat → N) (st : State) : State :=
  if negb (Js.truthy (Js.trim (currentPrompt targetModelId st))) then st
  else
    let models := activeModels targetModelId st in
    if bool_decide (length models = 0%nat) then st
    else
      let '(h, tm) :=
        if isGlobalFixed targetModelId then
          let '(h, r) := alloc (deref (heap st) (selectedModels st)) (heap st) in
          (h, Some r)
        else (heap st, None) in
      let st1 := push (userMessage targetModelId (now 0%nat) tm st) (with_heap h st) in
      let st2 :=
        if isGlobalFixed targetModelId then with_prompt [] st1
        else with_modelPrompts
               (assign (default [] (resolvedTargetId targetModelId)) []
                  (modelPrompts st1))
               st1 in
      let st3 := mark_loading models st2 in
      let placeholders := assistantMessages (fun idx => now (S idx)) models in
      let st4 := foldl (fun s p => push p s) st3 placeholders in
      foldl launch st4 placeholders.

(** ** JSON

    [JSON.parse] and the part of the language the consumer applies to
    its result: property access, optional chaining, truthiness and the
    string conversion of [+=]. *)

Module JSON.

(** A value [JSON.parse] can return, or [undefined]. A number is kept as
    its token: its value is a floating-point number, whose operations
    are those of the host (see [JsNumbers]). *)
Inductive value :=
| Undefined
| Null
| Bool (b : bool)
| Number (token : jsstring)
| String (s : jsstring)
| Array (elements : list value)
| Object (members : list (jsstring * value)).

Definition is_ws (c : N) : bool := (c =? 32) || (c =? 9) || (c =? 10) || (c =? 13).
Definition is_digit (c : N) : bool := (48 <=? c) && (c <=? 57).

Fixpoint skip_ws (s : jsstring) : jsstring :=
  match s with
  | c :: r => if is_ws c then skip_ws r else s
  | [] => []
  end.

Definition hex_digit (c : N) : option N :=
  if is_digit c then Some (c - 48)
  else if (97 <=? c) && (c <=? 102) then Some (c - 87)
  else if (65 <=? c) && (c <=? 70) then Some (c - 55)
  else None.

Definition hex4 (a b c d : N) : option N :=
  x ← hex_digit a; y ← hex_digit b; z ← hex_digit c; w ← hex_digit d;
  Some (((x * 16 + y) * 16 + z) * 16 + w).

(** The code unit of a two-character escape. *)
Definition escape (c : N) : option N :=
  if c =? 34 then Some 34            (* quotation mark *)
  else if c =? 92 then Some 92       (* reverse solidus *)
  else if c =? 47 then Some 47       (* solidus *)
  else if c =? 98 then Some 8        (* b: backspace *)
  else if c =? 102 then Some 12      (* f: form feed *)
  else if c =? 110 then Some 10      (* n: line feed *)
  else if c =? 114 then Some 13      (* r: carriage return *)
  else if c =? 116 then Some 9       (* t: tab *)
  else None.

(** The characters of a string after its opening quote, and what follows
    the closing quote. *)
Fixpoint string_body (s : jsstring) : option (jsstring * jsstring) :=
  match s with
  | [] => None
  | c :: r =>
      if c =? 34 then Some ([], r)
      else if c =? 92 then
        match r with
        | [] => None
        | e :: r1 =>
            if e =? 117 then
              match r1 with
              | a :: b :: c' :: d :: r2 =>
                  u ← hex4 a b c' d;
                  '(body, rest) ← string_body r2;
                  Some (u :: body, rest)
              | _ => None
              end
            else
              u ← escape e;
              '(body, rest) ← string_body r1;
              Some (u :: body, rest)
        end
      else if c <? 32 then None
      else
        '(body, rest) ← string_body r;
        Some (c :: body, rest)
  end.

Fixpoint digits (s : jsstring) : jsstring * jsstring :=
  match s with
  | c :: r => if is_digit c then let '(ds, rest) := digits r in (c :: ds, rest)
              else ([], s)
  | [] => ([], [])
  end.

(** One or more digits. *)
Definition digits1 (s : jsstring) : option (jsstring * jsstring) :=
  match digits s with
  | ([], _) => None
  | p => Some p
  end.

(** A number token: an optional minus sign; then a zero, or a digit
    from 1 to 9 followed by digits; then optionally a point and one or
    more digits; then optionally [e] or [E], an optional sign and one or
    more digits. *)
Definition number (s : jsstring) : option (jsstring * jsstring) :=
  let '(sign, s1) :=
    match s with
    | c :: r => if c =? 45 then ([c], r) else ([], s)
    | [] => ([], s)
    end in
  '(int, s2) ←
    match s1 with
    | c :: r => if c =? 48 then Some ([c], r) else digits1 s1
    | [] => None
    end;
  '(frac, s3) ←
    match s2 with
    | c :: r =>
        if c =? 46 then '(ds, rest) ← digits1 r; Some (c :: ds, rest)
        else Some ([], s2)
    | [] => Some ([], s2)
    end;
  '(exp, s4) ←
    match s3 with
    | c :: r =>
        if (c =? 101) || (c =? 69) then
          let '(sg, r1) :=
            match r with
            | c' :: r' => if (c' =? 43) || (c' =? 45) then ([c'], r') else ([], r)
            | [] => ([], r)
            end in
          '(ds, rest) ← digits1 r1;
          Some (c :: sg ++ ds, rest)
        else Some ([], s3)
    | [] => Some ([], s3)
    end;
  Some (sign ++ int ++ frac ++ exp, s4).

(** A literal name. *)
Definition keyword (k : jsstring) (v : value) (s : jsstring)
  : option (value * jsstring) :=
  if Js.startsWith k s then Some (v, drop (length k) s) else None.

(** Recursive descent; of two nested calls at least one has consumed a
    character, so a fuel of twice the length of the text is never
    exhausted. *)
Fixpoint parse_value (fuel : nat) (s : jsstring) : option (value * jsstring) :=
  match fuel with
  | O => None
  | S fuel =>
      match skip_ws s with
      | [] => None
      | c :: r =>
          if c =? 34 then
            '(str, rest) ← string_body r; Some (String str, rest)
          else if c =? 91 then
            match skip_ws r with
            | c' :: r' =>
                if c' =? 93 then Some (Array [], r')
                else '(vs, rest) ← parse_elements fuel r; Some (Array vs, rest)
            | [] => None
            end
          else if c =? 123 then
            match skip_ws r with
            | c' :: r' =>
                if c' =? 125 then Some (Object [], r')
                else '(ms, rest) ← parse_members fuel r; Some (Object ms, rest)
            | [] => None
            end
          else if c =? 116 then keyword (js "true") (Bool true) (c :: r)
          else if c =? 102 then keyword (js "false") (Bool false) (c :: r)
          else if c =? 110 then keyword (js "null") Null (c :: r)
          else '(tok, rest) ← number (c :: r); Some (Number tok, rest)
      end
  end
with parse_elements (fuel : nat) (s : jsstring) : option (list value * jsstring) :=
  match fuel with
  | O => None
  | S fuel =>
      '(v, r) ← parse_value fuel s;
      match skip_ws r with
      | c :: r' =>
          if c =? 44 then '(vs, rest) ← parse_elements fuel r'; Some (v :: vs, rest)
          else if c =? 93 then Some ([v], r')
          else None
      | [] => None
      end
  end
with parse_members (fuel : nat) (s : jsstring)
  : option (list (jsstring * value) * jsstring) :=
  match fuel with
  | O => None
  | S fuel =>
      match skip_ws s with
      | c :: r =>
          if c =? 34 then
            '(k, r1) ← string_body r;
            match skip_ws r1 with
            | c1 :: r2 =>
                if c1 =? 58 then
                  '(v, r3) ← parse_value fuel r2;
                  match skip_ws r3 with
                  | c3 :: r4 =>
                      if c3 =? 44 then
                        '(ms, rest) ← parse_members fuel r4; Some ((k, v) :: ms, rest)
                      else if c3 =? 125 then Some ([(k, v)], r4)
                      else None
                  | [] => None
                  end
                else None
            | [] => None
            end
          else None
      | [] => None
      end
  end.

(** [JSON.parse(text)]; [None] when it throws a [SyntaxError]. *)
Definition parse (text : jsstring) : option value :=
  '(v, rest) ← parse_value (2 * length text + 2) text;
  match skip_ws rest with
  | [] => Some v
  | _ :: _ => None
  end.

(** The result of evaluating an expression: a value, or an exception. *)
Inductive completion (A : Type) :=
| Normal (a : A)
| Throw.
Arguments Normal {A} a.
Arguments Throw {A}.

Definition bind {A B} (c : completion A) (k : A → completion B) : completion B :=
  match c with
  | Normal a => k a
  | Throw => Throw
  end.

(** The own property [key] of an object literal: of two members with one
    name the later one stays. *)
Fixpoint own (key : jsstring) (ms : list (jsstring * value)) : option value :=
  match ms with
  | [] => None
  | (k, v) :: rest =>
      match own key rest with
      | Some v' => Some v'
      | None => if Js.eqb k key then Some v else None
      end
  end.

(** [v.name] for a name that no built-in prototype defines and that is
    not an index ([choices], [delta], [content]): a [TypeError] on
    [undefined] and [null], the own property of an object, [undefined]
    on everything else. *)
Definition get (name : jsstring) (v : value) : completion value :=
  match v with
  | Undefined | Null => Throw
  | Object ms => Normal (default Undefined (own name ms))
  | Bool _ | Number _ | String _ | Array _ => Normal Undefined
  end.

(** [v[0]]. *)
Definition get0 (v : value) : completion value :=
  match v with
  | Undefined | Null => Throw
  | Array l => Normal (default Undefined (head l))
  | String s => Normal (default Undefined ((fun c => String [c]) <$> head s))
  | Object ms => Normal (default Undefined (own (js "0") ms))
  | Bool _ | Number _ => Normal Undefined
  end.

Definition nullish (v : value) : bool :=
  match v with
  | Undefined | Null => true
  | _ => false
  end.

(** [v?.name], where the rest of the chain is skipped when [v] is
    nullish. *)
Definition get_opt (name : jsstring) (v : value) : completion value :=
  if nullish v then Normal Undefined else get name v.

(** [parsed.choices[0]?.delta?.content] *)
Definition delta_content (parsed : value) : completion value :=
  bind (get (js "choices") parsed) (fun choices =>
  bind (get0 choices) (fun first =>
  bind (get_opt (js "delta") first) (fun delta =>
  get_opt (js "content") delta))).

(** The operations of the host on the number a token denotes. *)
Class JsNumbers := {
  (** the number is neither [0] nor [-0] *)
  number_truthy : jsstring → bool;
  (** [Number.prototype.toString] *)
  number_to_string : jsstring → jsstring;
}.

Section Conversions.
Context {host : JsNumbers}.

Definition truthy (v : value) : bool :=
  match v with
  | Undefined | Null => false
  | Bool b => b
  | Number tok => number_truthy tok
  | String s => Js.truthy s
  | Array _ | Object _ => true
  end.

(** [Array.prototype.join] with the separator [","], given the strings
    of the elements. *)
Fixpoint join_comma (parts : list jsstring) : jsstring :=
  match parts with
  | [] => []
  | [x] => x
  | x :: rest => x ++ js "," ++ join_comma rest
  end.

(** The string [s + v] appends to [s]. An object literal inherits
    [toString] from [Object.prototype] unless a member of that name hides
    it; the member is never a function, so the conversion throws. *)
Fixpoint to_string (v : value) : completion jsstring :=
  match v with
  | Undefined => Normal (js "undefined")
  | Null => Normal (js "null")
  | Bool true => Normal (js "true")
  | Bool false => Normal (js "false")
  | Number tok => Normal (number_to_string tok)
  | String s => Normal s
  | Array l =>
      (fix elements (l : list value) (acc : list jsstring) : completion jsstring :=
         match l with
         | [] => Normal (join_comma (reverse acc))
         | x :: rest =>
             if nullish x then elements rest ([] :: acc)
             else bind (to_string x) (fun sx => elements rest (sx :: acc))
         end) l []
  | Object ms =>
      match own (js "toString") ms with
      | Some _ => Throw
      | None => Normal (js "[object Object]")
      end
  end.

End Conversions.

(** Numbers read as far as their token shows: non-zero when a digit of
    the mantissa is, printed as written. It is exact on the integers
    written without sign, leading zero, fraction and exponent below
    [2^53], and serves to run streams whose deltas are strings. *)
Fixpoint mantissa_nonzero (tok : jsstring) : bool :=
  match tok with
  | [] => false
  | c :: r =>
      if (c =? 101) || (c =? 69) then false
      else ((49 <=? c) && (c <=? 57)) || mantissa_nonzero r
  end.

Definition token_numbers : JsNumbers :=
  {| number_truthy := mantissa_nonzero; number_to_string := fun tok => tok |}.

End JSON.

(** [parser], run with the fuel [f] on [s], gives what it gives with any
    larger fuel, and consumes at least one code unit when it succeeds. *)
Definition stable {A} (parser : nat → jsstring → option (A * jsstring))
    (f : nat) (s : jsstring) : Prop :=
  (∀ f', (f ≤ f')%nat → parser f' s = parser f s)
  ∧ ∀ a r, parser f s = Some (a, r) → (length r < length s)%nat.

(** ** Stream consumer

    The rest of the callback of [assistantMessages.forEach], from its
    first [await] on. Between two [await]s the callback runs without
    interruption, so each result the transport delivers is one atomic
    step on the state. A chunk is given as the text the [TextDecoder]
    returns for it. *)

(** [messages.value.findIndex(m => m.id === i)]; [None] for [-1]. *)
Definition findIndex (i : jsstring) (ms : list ChatMessage) : option nat :=
  fst <$> list_find (fun m => id m = i) ms.

(** [m.content += text; m.loading = false] *)
Definition append_delta (text : jsstring) (m : ChatMessage) : ChatMessage :=
  {| id := id m; role := role m; content := content m ++ text; model := model m;
     targetModels := targetModels m; loading := Some false; error := error m |}.

(** [m.error = message; m.loading = false] *)
Definition set_error (message : jsstring) (m : ChatMessage) : ChatMessage :=
  {| id := id m; role := role m; content := content m; model := model m;
     targetModels := targetModels m; loading := Some false; error := Some message |}.

(** [m.loading = false] *)
Definition clear_loading (m : ChatMessage) : ChatMessage :=
  {| id := id m; role := role m; content := content m; model := model m;
     targetModels := targetModels m; loading := Some false; error := error m |}.

(** Look the turn up by id and mutate it in place; nothing happens when
    no turn has the id. *)
Definition update_turn (i : jsstring) (f : ChatMessage → ChatMessage)
    (st : State) : State :=
  match findIndex i (messages st) with
  | Some idx => with_messages (alter f idx (messages st)) st
  | None => st
  end.

(** The [catch] block of the callback. *)
Definition catch_block (p : ChatMessage) (message : jsstring) (st : State) : State :=
  update_turn (id p) (set_error message) st.

(** [messages.value.some(m => m.model === msg.model && m.loading)] *)
Definition some_loading (p : ChatMessage) (ms : list ChatMessage) : bool :=
  existsb (fun m => bool_decide (model m = model p) && is_true_opt (loading m)) ms.

(** The [finally] block of the callback. *)
Definition finally_block (p : ChatMessage) (st : State) : State :=
  let st1 := update_turn (id p) clear_loading st in
  if set_nonempty (model p) then
    with_isModelLoading
      (assign (default [] (model p)) (some_loading p (messages st1))
         (isModelLoading st1))
      st1
  else st1.

Definition data_prefix : jsstring := js "data: ".
Definition done_payload : jsstring := js "[DONE]".

Section Consumer.
Context {host : JSON.JsNumbers}.

(** The inner [try] of the line loop, for the payload [data] of a line;
    whatever it throws is ignored. *)
Definition handle_data (p : ChatMessage) (data : jsstring) (st : State) : State :=
  match JSON.parse data with
  | None => st
  | Some parsed =>
      match JSON.delta_content parsed with
      | JSON.Throw => st
      | JSON.Normal v =>
          let delta := if JSON.truthy v then v else JSON.String [] in
          if JSON.truthy delta then
            match JSON.to_string delta with
            | JSON.Normal text => update_turn (id p) (append_delta text) st
            | JSON.Throw => st
            end
          else st
      end
  end.

(** [for (const line of lines) { ... }] *)
Fixpoint process_lines (p : ChatMessage) (lines : list jsstring) (st : State)
  : State :=
  match lines with
  | [] => st
  | line :: rest =>
      if Js.startsWith data_prefix line then
        let data := Js.slice 6 line in
        if Js.eqb data done_payload then st
        else process_lines p rest (handle_data p data st)
      else process_lines p rest st
  end.

(** The body of the read loop for one chunk. *)
Definition on_chunk (p : ChatMessage) (chunk : jsstring) (st : State) : State :=
  process_lines p (Js.split newline chunk) st.

End Consumer.

(** What the transport delivers to the exchange at index [x] of
    [exchanges]. *)
Inductive Event :=
| FetchRejected (x : nat) (message : jsstring)
    (* [fetch] rejects with an error of this message *)
| FetchResolved (x : nat) (status : N) (body : bool)
    (* [fetch] resolves; [body] tells whether [res.body] has a reader *)
| ReadChunk (x : nat) (chunk : jsstring)
    (* [reader.read()] resolves with [done = false] *)
| ReadDone (x : nat)
    (* [reader.read()] resolves with [done = true] *)
| ReadRejected (x : nat) (message : jsstring).
    (* [reader.read()] rejects with an error of this message *)

Definition target (ev : Event) : nat :=
  match ev with
  | FetchRejected x _ | FetchResolved x _ _ | ReadChunk x _ | ReadDone x
  | ReadRejected x _ => x
  end.

(** [res.ok] *)
Definition ok (status : N) : bool := (200 <=? status) && (status <=? 299).

Definition set_phase (x : nat) (ph : Phase) (st : State) : State :=
  with_exchanges
    (alter (fun e => {| msg := msg e; phase := ph |}) x (exchanges st)) st.

(** An exception reaches the [catch] block: it runs, then the [finally]
    block, and the callback is over. *)
Definition throw (x : nat) (p : ChatMessage) (message : jsstring) (st : State)
  : State :=
  set_phase x Settled (finally_block p (catch_block p message st)).

(** The loop is left by [break]: the [finally] block runs alone. *)
Definition complete (x : nat) (p : ChatMessage) (st : State) : State :=
  set_phase x Settled (finally_block p st).

Definition phase_eqb (a b : Phase) : bool :=
  match a, b with
  | AwaitFetch, AwaitFetch | AwaitRead, AwaitRead | Settled, Settled => true
  | _, _ => false
  end.

(** Resume the exchange at [x] if it is suspended at [ph]; a result no
    [await] is waiting for does not occur, and is modelled as no step. *)
Definition resume (x : nat) (ph : Phase) (k : ChatMessage → State → State)
    (st : State) : State :=
  match exchanges st !! x with
  | Some e => if phase_eqb (phase e) ph then k (msg e) st else st
  | None => st
  end.

Section Steps.
Context {host : JSON.JsNumbers}.

Definition step (ev : Event) (st : State) : State :=
  match ev with
  | FetchRejected x message =>
      resume x AwaitFetch (fun p => throw x p message) st
  | FetchResolved x status body =>
      resume x AwaitFetch (fun p =>
        if negb (ok status) then throw x p (js "Status: " ++ Js.of_N status)
        else if negb body then throw x p (js "No reader available")
        else set_phase x AwaitRead) st
  | ReadChunk x chunk =>
      resume x AwaitRead (fun p => on_chunk p chunk) st
  | ReadDone x =>
      resume x AwaitRead (fun p => complete x p) st
  | ReadRejected x message =>
      resume x AwaitRead (fun p => throw x p message) st
  end.

Definition run (evs : list Event) (st : State) : State :=
  foldl (fun s ev => step ev s) st evs.

End Steps.

(** ** The selection rule in words

    The rule of the specification for [projectFor], and the rule the two
    filters implement, as propositions over a turn. *)

(** The rule as the specification words it: an assistant turn matches
    iff its model is [M]; a user turn matches iff its model is [M], or
    its [targetModels] contains [M], or neither field is set. *)
Definition selects_as_specified (h : Heap) (M : jsstring) (m : ChatMessage) : Prop :=
  match role m with
  | assistant => model m = Some M
  | user =>
      model m = Some M
      ∨ (∃ arr, targetModels m = Some arr ∧ M ∈ deref h arr)
      ∨ (model m = None ∧ targetModels m = None)
  end.

(** The rule of the code: [targetModels] is consulted only for a user
    turn whose [model] is unset or empty. *)
Definition selects (h : Heap) (M : jsstring) (m : ChatMessage) : Prop :=
  match role m with
  | assistant => model m = Some M
  | user =>
      if set_nonempty (model m) then model m = Some M
      else match targetModels m with
           | Some arr => M ∈ deref h arr
           | None => True
           end
  end.

Global Instance selects_dec h M m : Decision (selects h M m).
Proof.
  unfold selects. destruct (role m); [|apply _].
  destruct (set_nonempty (model m)); [apply _|].
  destruct (targetModels m); apply _.
Defined.

Global Instance selects_as_specified_dec h M m :
  Decision (selects_as_specified h M m).
Proof.
  unfold selects_as_specified. destruct (role m); [|apply _].
  apply or_dec; [apply _|]. apply or_dec; [|apply _].
  destruct (targetModels m) as [arr|].
  - destruct (decide (M ∈ deref h arr)) as [Hin|Hout].
    + left. by exists arr.
    + right. intros (arr' & [= <-] & Hin). by apply Hout.
  - right. by intros (arr' & [=] & _).
Defined.

(** The scope of a user turn as [sendPrompt] creates it: [model] unset
    (a submission of the global prompt); or [model] set to the
    identifier of a panel and [targetModels] unset; or, for the panel of
    the empty identifier, which [sendPrompt] takes for the global
    prompt, [model] empty and [targetModels] an array that contains the
    empty identifier. *)
Definition single_scope (h : Heap) (m : ChatMessage) : Prop :=
  model m = None
  ∨ (set_nonempty (model m) = true ∧ targetModels m = None)
  ∨ (model m = Some [] ∧ ∃ arr, targetModels m = Some arr ∧ [] ∈ deref h arr).

(** Every user turn of the log has such a scope. *)
Definition scoped (st : State) : Prop :=
  Forall (λ m, role m = user → single_scope (heap st) m) (messages st).

(** A user turn on which the fields [model] and [targetModels] do not
    compete: a [model] that is not empty comes without [targetModels],
    or with one that names no other model; the empty string as [model],
    which the filters take for no [model], comes with a [targetModels]
    that contains the empty identifier. *)
Definition unambiguous (h : Heap) (m : ChatMessage) : Prop :=
  match model m with
  | None => True
  | Some [] => ∃ arr, targetModels m = Some arr ∧ [] ∈ deref h arr
  | Some s => ∀ arr, targetModels m = Some arr → ∀ x, x ∈ deref h arr → x = s
  end.

(** No user turn of the log is ambiguous. *)
Definition plain_scopes (st : State) : Prop :=
  Forall (λ m, role m = user → unambiguous (heap st) m) (messages st).

(** ** What a dispatch leaves behind *)

(** The state [sendPrompt] returns, when it does not reject: the user
    turn [u] that stores [tm], on the store [h]. *)
Definition dispatched (a : Arg) (now : nat → N) (h : Heap) (tm : option ref)
    (st : State) : State :=
  let models := activeModels a st in
  let st1 := push (userMessage a (now 0%nat) tm st) (with_heap h st) in
  let st2 :=
    if isGlobalFixed a then with_prompt [] st1
    else with_modelPrompts
           (assign (default [] (resolvedTargetId a)) [] (modelPrompts st1)) st1 in
  let st3 := mark_loading models st2 in
  let placeholders := assistantMessages (λ idx, now (S idx)) models in
  foldl launch (foldl (λ s p, push p s) st3 placeholders) placeholders.

(** ** Concrete logs and runs *)

Definition gpt4 : jsstring := js "openai/gpt-4".
Definition claude3 : jsstring := js "anthropic/claude-3".

(** Every call of [Date.now()] falls in one millisecond. *)
Definition tick : nat → N := λ _, 1700000000000.

(** Two models selected and "Hi" typed in the global prompt. *)
Definition hi_state : State :=
  {| heap := [[gpt4; claude3]]; prompt := js "Hi"; modelPrompts := ∅;
     selectedModels := 0%nat; messages := []; isModelLoading := ∅;
     exchanges := []; effects := [] |}.

(** The same two models with a reply typed in each panel. *)
Definition two_replies : State :=
  {| heap := [[gpt4; claude3]]; prompt := [];
     modelPrompts := {[ gpt4 := js "and then?"; claude3 := js "why?" ]};
     selectedModels := 0%nat; messages := []; isModelLoading := ∅;
     exchanges := []; effects := [] |}.

(** An earlier round of [gpt4] that failed, and one still streaming. *)
Definition failed_turn : ChatMessage :=
  {| id := js "1699999999000-0"; role := assistant; content := [];
     model := Some gpt4; targetModels := None; loading := Some false;
     error := Some (js "Status: 500") |}.

Definition streaming_turn : ChatMessage :=
  {| id := js "1699999999500-0"; role := assistant; content := js "Hel";
     model := Some gpt4; targetModels := None; loading := Some false;
     error := None |}.


(** A log with one user turn that has both [model] and [targetModels]
    set. *)
Definition both_fields_turn : ChatMessage :=
  {| id := js "1"; role := user; content := js "hi"; model := Some (js "B");
     targetModels := Some 0%nat; loading := None; error := None |}.

Definition both_fields_log : State :=
  {| heap := [[js "A"]]; prompt := []; modelPrompts := ∅; selectedModels := 0%nat;
     messages := [both_fields_turn]; isModelLoading := ∅; exchanges := [];
     effects := [] |}.

(** A log with one user turn whose [model] is the empty string, without
    [targetModels]. *)
Definition empty_model_turn : ChatMessage :=
  {| id := js "1"; role := user; content := js "hi"; model := Some [];
     targetModels := None; loading := None; error := None |}.

Definition empty_model_log : State :=
  {| heap := [[js "A"]]; prompt := []; modelPrompts := ∅; selectedModels := 0%nat;
     messages := [empty_model_turn]; isModelLoading := ∅; exchanges := [];
     effects := [] |}.

(** A log with a user turn of each scope (one with neither [model] nor
    [targetModels], one sent to the selection of "A" and "B", one typed
    in the panel of "B") and the turns of the assistants. *)
Definition unscoped_turn : ChatMessage :=
  {| id := js "1"; role := user; content := js "hello"; model := None;
     targetModels := None; loading := None; error := None |}.

Definition to_both_turn : ChatMessage :=
  {| id := js "2"; role := user; content := js "Hi"; model := None;
     targetModels := Some 0%nat; loading := None; error := None |}.

Definition answer_of_A : ChatMessage :=
  {| id := js "2-0"; role := assistant; content := js "a"; model := Some (js "A");
     targetModels := None; loading := Some false; error := None |}.

Definition answer_of_B : ChatMessage :=
  {| id := js "2-1"; role := assistant; content := js "b"; model := Some (js "B");
     targetModels := None; loading := Some false; error := None |}.

Definition to_B_turn : ChatMessage :=
  {| id := js "3"; role := user; content := js "why?"; model := Some (js "B");
     targetModels := None; loading := None; error := None |}.

Definition reply_of_B : ChatMessage :=
  {| id := js "3-0"; role := assistant; content := []; model := Some (js "B");
     targetModels := None; loading := Some true; error := None |}.

Definition mixed_log : State :=
  {| heap := [[js "A"; js "B"]]; prompt := []; modelPrompts := ∅;
     selectedModels := 0%nat;
     messages := [unscoped_turn; to_both_turn; answer_of_A; answer_of_B;
                  to_B_turn; reply_of_B];
     isModelLoading := ∅; exchanges := []; effects := [] |}.

(** ** Identity of turns and exchanges *)

Definition exchange_ids (st : State) : list jsstring :=
  (λ e, id (msg e)) <$> exchanges st.

(** The turns of the log have pairwise distinct ids, and so have the
    placeholders of the exchanges. *)
Definition distinct_ids (st : State) : Prop :=
  NoDup (id <$> messages st) ∧ NoDup (exchange_ids st).

(** The exchange at [x] closes over [m0] and is suspended at [ph]; its
    turn is [p], at index [k] of the log. *)
Definition exchange_at (x : nat) (m0 : ChatMessage) (ph : Phase)
    (k : nat) (p : ChatMessage) (st : State) : Prop :=
  exchanges st !! x = Some {| msg := m0; phase := ph |}
  ∧ messages st !! k = Some p
  ∧ id p = id m0.

(** The fields of a turn that are fixed at its creation, apart from its
    id. *)
Definition same_scope (m m' : ChatMessage) : Prop :=
  role m' = role m ∧ model m' = model m ∧ targetModels m' = targetModels m.

(** [st'] differs from [st] at most in the busy flags and in the
    content, [loading] and [error] of turns whose id is [i]. *)
Definition frame (i : jsstring) (st st' : State) : Prop :=
  exchanges st' = exchanges st
  ∧ heap st' = heap st
  ∧ id <$> messages st' = id <$> messages st
  ∧ (∀ k m, messages st !! k = Some m → id m ≠ i → messages st' !! k = Some m)
  ∧ Forall2 same_scope (messages st) (messages st').

(** The events on which an exchange suspended at [ph] leaves its [try]
    block: a transport failure, the end of the stream, an exception of
    the read. *)
Definition leaves (ev : Event) (ph : Phase) : bool :=
  match ev, ph with
  | FetchRejected _ _, AwaitFetch => true
  | FetchResolved _ status body, AwaitFetch => negb (ok status && body)
  | ReadDone _, AwaitRead => true
  | ReadRejected _ _, AwaitRead => true
  | _, _ => false
  end.

(** The message of the error thrown on a response that is not usable. *)
Definition failure_message (status : N) : jsstring :=
  if ok status then js "No reader available" else js "Status: " ++ Js.of_N status.

(** A text of the stream, written with an apostrophe for each quotation
    mark. *)
Definition sse (s : string) : jsstring :=
  (λ c, if c =? 39 then 34 else c) <$> js s.

Definition hel_line : jsstring := sse "data: {'choices':[{'delta':{'content':'Hel'}}]}".
Definition lo_line : jsstring := sse "data: {'choices':[{'delta':{'content':'lo'}}]}".
Definition done_line : jsstring := data_prefix ++ done_payload.

Definition hel_chunk : jsstring := hel_line ++ [newline].
Definition lo_chunk : jsstring := lo_line ++ [newline].
Definition done_chunk : jsstring := done_line ++ [newline].

(** The record [{ choices: [{ delta: { content: t } }] }]. *)
Definition delta_record (t : jsstring) : JSON.value :=
  JSON.Object
    [(js "choices",
      JSON.Array
        [JSON.Object [(js "delta", JSON.Object [(js "content", JSON.String t)])]])].

(** "Hi" dispatched to the two models: both exchanges wait for their
    response. *)
Definition sent_hi : State := sendPrompt NoArg tick hi_state.

(** The placeholders of that dispatch. *)
Definition gpt4_placeholder : ChatMessage := placeholder 1700000000000 0 gpt4.
Definition claude3_placeholder : ChatMessage := placeholder 1700000000000 1 claude3.

(** The first exchange of [sent_hi] after its response has arrived. *)
Definition streaming_hi : State :=
  set_phase 0 AwaitRead sent_hi.


(** A chunk with a delta, the sentinel, and a delta after it. *)
Definition done_in_the_middle : jsstring :=
  hel_line ++ [newline] ++ done_line ++ [newline] ++ lo_line ++ [newline].

(** Two replies sent within one millisecond (see [two_replies]): the
    exchange of the second has received its response. *)
Definition same_millisecond : State :=
  sendPrompt (IdArg claude3) tick (sendPrompt (IdArg gpt4) tick two_replies).

(** ** Sessions

    What happens to the component between its creation and any later
    moment: the user types, toggles models and submits, the list of
    models arrives, the transport delivers. *)

(** The state [script setup] creates. *)
Definition initial : State :=
  {| heap := [[]]; prompt := []; modelPrompts := ∅; selectedModels := 0%nat;
     messages := []; isModelLoading := ∅; exchanges := []; effects := [] |}.

(** [fetchModels], once the list [ids] of the identifiers has arrived:
    an empty selection becomes the whole list. *)
Definition fetchModels (ids : list jsstring) (st : State) : State :=
  if bool_decide (length (deref (heap st) (selectedModels st)) = 0%nat) then
    let '(h, r) := alloc ids (heap st) in
    with_selectedModels r (with_heap h st)
  else st.

Inductive Action :=
| TypePrompt (text : jsstring)
    (* [v-model="prompt"] *)
| TypeReply (modelId text : jsstring)
    (* [v-model="modelPrompts[modelId]"] *)
| Toggle (modelId : jsstring)
| ModelsFetched (ids : list jsstring)
| Submit (now : nat → N)
    (* [handleSubmit]: [sendPrompt()] *)
| SubmitPanel (modelId : jsstring) (now : nat → N)
    (* [sendPrompt(modelId)] from the panel of [modelId] *)
| Deliver (ev : Event).

Section Sessions.
Context {host : JSON.JsNumbers}.

(** The panels are rendered by [v-for="(modelId, index) in
    selectedModels"]: a submission from the panel of [modelId] occurs
    only while [modelId] is selected. *)
Definition perform (act : Action) (st : State) : State :=
  match act with
  | TypePrompt text => with_prompt text st
  | TypeReply modelId text =>
      with_modelPrompts (assign modelId text (modelPrompts st)) st
  | Toggle modelId => toggleModel modelId st
  | ModelsFetched ids => fetchModels ids st
  | Submit now => sendPrompt NoArg now st
  | SubmitPanel modelId now =>
      if Js.includes modelId (deref (heap st) (selectedModels st)) then
        sendPrompt (IdArg modelId) now st
      else st
  | Deliver ev => step ev st
  end.

Definition session (acts : list Action) (st : State) : State :=
  foldl (λ s act, perform act s) st acts.

End Sessions.

(** Two dispatches never read the same millisecond. *)
Definition separate (now now' : nat → N) : Prop := ∀ i j, now i ≠ now' j.

(** The dispatches of [acts] read the clock at moments of their own,
    different from those of [earlier]. *)
Fixpoint orderly (earlier : list (nat → N)) (acts : list Action) : Prop :=
  match acts with
  | [] => True
  | Submit now :: rest | SubmitPanel _ now :: rest =>
      Forall (separate now) earlier ∧ orderly (now :: earlier) rest
  | _ :: rest => orderly earlier rest
  end.

(** The ids a dispatch to [models] creates. *)
Definition new_ids (now : nat → N) (models : list jsstring) : list jsstring :=
  Js.of_N (now 0%nat) :: (id <$> assistantMessages (λ idx, now (S idx)) models).

(** An id made from a reading of one of the clocks [cs]. *)
Definition stamped (cs : list (nat → N)) (i : jsstring) : Prop :=
  ∃ now k, now ∈ cs
    ∧ (i = Js.of_N (now k) ∨ ∃ idx, i = Js.of_N (now k) ++ js "-" ++ Js.of_N idx).

(** A placeholder nothing has touched yet. *)
Definition untouched (p : ChatMessage) : Prop :=
  content p = [] ∧ error p = None ∧ loading p = Some true.

(** The turn of every exchange that waits for its response is an
    untouched placeholder. *)
Definition awaiting_untouched (st : State) : Prop :=
  Forall (λ e, phase e = AwaitFetch →
               ∃ k p, messages st !! k = Some p ∧ id p = id (msg e) ∧ untouched p)
         (exchanges st).

(** What holds of the log and of the exchanges at every moment of an
    orderly session. *)
Definition well_formed (cs : list (nat → N)) (st : State) : Prop :=
  distinct_ids st
  ∧ Forall (stamped cs) (id <$> messages st)
  ∧ Forall (λ m0, ∃ k p, messages st !! k = Some p ∧ id p = id m0)
           (msg <$> exchanges st).

(** The log and the store of arrays only grow: the arrays of [st] are
    those of [st'] at the same references, and the turns of [st] are the
    first turns of [st'], with the role and the scope they had. *)
Definition grows (st st' : State) : Prop :=
  heap st `prefix_of` heap st'
  ∧ ∃ kept, kept `prefix_of` messages st' ∧ Forall2 same_scope (messages st) kept.

(** The two models are deselected and another one is selected. *)
Definition reselect : list Action := [Toggle gpt4; Toggle claude3; Toggle (js "C")].

(** The list of the two models arrives, "Hi" is typed and submitted. *)
Definition hi_session : list Action :=
  [ModelsFetched [gpt4; claude3]; TypePrompt (js "Hi"); Submit tick].

(** Then the response of the first exchange arrives. *)
Definition hi_streaming : list Action :=
  hi_session ++ [Deliver (FetchResolved 0 200 true)].

(** ** Further parts of the component

    The rest of the script of [PromptInput.vue]: the catalog of models,
    the conditions of the template on the submit buttons, the
    highlighter and the sheet of sidenotes; and [groupedMessages] of
    [App.vue], the single-column view of the same log. *)

(** *** The catalog of models *)

(** [interface Model] *)
Module Model.
Record t := { id : jsstring }.
End Model.

(** The names [Object.prototype] defines (ECMAScript with its annex on
    browsers): what [groups[provider]] reads, through the prototype, on
    an object that has no such property of its own. All of them are
    functions, or the prototype itself for [__proto__]: truthy, and
    without a [push]. *)
Definition Object_prototype : list jsstring :=
  [js "constructor"; js "__defineGetter__"; js "__defineSetter__";
   js "hasOwnProperty"; js "__lookupGetter__"; js "__lookupSetter__";
   js "isPrototypeOf"; js "propertyIsEnumerable"; js "toString"; js "valueOf";
   js "__proto__"; js "toLocaleString"].

Definition inherited (name : jsstring) : bool := bool_decide (name ∈ Object_prototype).

(** The callback of [availableModels.value.forEach] in [groupedModels]:
    [if (!groups[provider]) groups[provider] = []] and then
    [groups[provider].push(model)], a [TypeError] when what is read is
    inherited. *)
Definition group_model (model : Model.t) (groups : gmap jsstring (list Model.t))
  : JSON.completion (gmap jsstring (list Model.t)) :=
  let provider := getProvider (Model.id model) in
  match groups !! provider with
  | Some models => JSON.Normal (<[provider := models ++ [model]]> groups)
  | None =>
      if inherited provider then JSON.Throw
      else JSON.Normal (<[provider := [model]]> groups)
  end.

(** [groupedModels], as a map from the providers to their models. *)
Definition groupedModels (availableModels : list Model.t)
  : JSON.completion (gmap jsstring (list Model.t)) :=
  foldl (λ groups model, JSON.bind groups (group_model model)) (JSON.Normal ∅)
        availableModels.

(** The models of a provider, in the order of the catalog. *)
Definition of_provider (provider : jsstring) (availableModels : list Model.t)
  : list Model.t :=
  filter (λ m, getProvider (Model.id m) = provider) availableModels.

(** [groups] holds, for every provider, its models, and no empty group. *)
Definition grouping (availableModels : list Model.t)
    (groups : gmap jsstring (list Model.t)) : Prop :=
  ∀ provider,
    groups !! provider
    = match of_provider provider availableModels with
      | [] => None
      | models => Some models
      end.

(** *** The selection, the busy flags and the submit buttons *)

(** The array [selectedModels.value]. *)
Definition selected (st : State) : list jsstring := deref (heap st) (selectedModels st).

(** [isModelLoading.value[m]], as a condition. Under [__proto__] the
    accessor of [Object.prototype] answers, with the prototype of the
    object; a name the object does not hold is read through its
    prototype: [undefined], or one of the truthy values of
    [Object_prototype]. *)
Definition busy (m : jsstring) (st : State) : bool :=
  if bool_decide (m = proto) then true
  else match isModelLoading st !! m with
       | Some loading => loading
       | None => inherited m
       end.

(** What the cleanup of an exchange for [M], whose turn is at index [k]
    of the log, is to leave behind: the turn is not loading, and the
    flag of [M] reads as true iff some turn of [M] is loading. *)
Definition cleaned_up (k : nat) (M : jsstring) (st : State) : Prop :=
  (∃ p, messages st !! k = Some p ∧ loading p = Some false)
  ∧ (busy M st = true
     ↔ ∃ m, m ∈ messages st ∧ model m = Some M ∧ loading m = Some true).

(** [isGlobalLoading]:
    [selectedModels.value.some(m => isModelLoading.value[m])] *)
Definition isGlobalLoading (st : State) : bool :=
  existsb (λ m, busy m st) (selected st).

(** [handleSubmit]: the payload is ignored, [sendPrompt()] is called. *)
Definition handleSubmit (now : nat → N) (st : State) : State := sendPrompt NoArg now st.

(** [:disabled] of the submit button of the global prompt:
    [!prompt.trim() || selectedModels.length === 0 || isGlobalLoading] *)
Definition globalSubmitDisabled (st : State) : bool :=
  negb (Js.truthy (Js.trim (prompt st)))
  || bool_decide (length (selected st) = 0%nat)
  || isGlobalLoading st.

(** [:disabled] of the submit button of the panel of [modelId]:
    [!modelPrompts[modelId]?.trim() || isModelLoading[modelId]].
    Without a text of the panel, [?.] gives [undefined], except under a
    name of [Object_prototype]: what is read there has no [trim], and
    the call throws a [TypeError]. Under [__proto__] that is so whatever
    was typed in the panel. *)
Definition panelSubmitDisabled (modelId : jsstring) (st : State) : JSON.completion bool :=
  if bool_decide (modelId = proto) then JSON.Throw
  else match modelPrompts st !! modelId with
       | Some text => JSON.Normal (negb (Js.truthy (Js.trim text)) || busy modelId st)
       | None => if inherited modelId then JSON.Throw else JSON.Normal true
       end.

(** Every reference the state holds is a reference to an array of the
    store. *)
Definition allocated (st : State) : Prop :=
  (selectedModels st < length (heap st))%nat
  ∧ Forall (λ m, ∀ r, targetModels m = Some r → (r < length (heap st))%nat)
           (messages st).

(** The lists of identifiers the catalog delivers have no duplicates. *)
Definition catalogs_without_duplicates (acts : list Action) : Prop :=
  Forall (λ act, match act with ModelsFetched ids => NoDup ids | _ => True end) acts.

(** *** What the transport can change *)

(** What the user typed and selected, the arrays, and the network calls
    begun. *)
Definition same_inputs (st st' : State) : Prop :=
  prompt st' = prompt st
  ∧ modelPrompts st' = modelPrompts st
  ∧ selectedModels st' = selectedModels st
  ∧ heap st' = heap st
  ∧ effects st' = effects st.

(** A turn as it may become: its id, role and scope stay, its content is
    extended at its end, [loading] either stays or becomes [false], an
    error either stays or is set. *)
Definition evolves (m m' : ChatMessage) : Prop :=
  id m' = id m ∧ role m' = role m ∧ model m' = model m
  ∧ targetModels m' = targetModels m
  ∧ content m `prefix_of` content m'
  ∧ (loading m' = loading m ∨ loading m' = Some false)
  ∧ (error m' = error m ∨ is_Some (error m')).

(** [st'] differs from [st] at most in turns that received text: no
    error, no busy flag, no exchange has changed. *)
Definition streamed (st st' : State) : Prop :=
  exchanges st' = exchanges st
  ∧ isModelLoading st' = isModelLoading st
  ∧ same_inputs st st'
  ∧ Forall2 (λ m m', evolves m m' ∧ error m' = error m) (messages st) (messages st').

(** The turns of [st] are the first turns of [st'], as they have
    become. *)
Definition keeps (st st' : State) : Prop :=
  ∃ kept, kept `prefix_of` messages st' ∧ Forall2 evolves (messages st) kept.

(** The flag of a model is set while one of its turns is loading. *)
Definition busy_covers_loading (st : State) : Prop :=
  ∀ m M, m ∈ messages st → model m = Some M → M ≠ [] → M ≠ proto →
         loading m = Some true → isModelLoading st !! M = Some true.

(** Every turn that is loading, and every flag that is set, is owed to
    an exchange that has not settled. *)
Definition owed (st : State) : Prop :=
  (∀ m, m ∈ messages st → loading m = Some true →
     ∃ x e, exchanges st !! x = Some e ∧ id (msg e) = id m
            ∧ model (msg e) = model m ∧ phase e ≠ Settled)
  ∧ (∀ M, isModelLoading st !! M = Some true →
       (M ≠ [] ∧ M ≠ proto)
       ∧ ∃ x e, exchanges st !! x = Some e ∧ model (msg e) = Some M
                ∧ phase e ≠ Settled).

(** The turn of every exchange that has settled is in the log and is not
    loading. *)
Definition settled_idle (st : State) : Prop :=
  ∀ x e, exchanges st !! x = Some e → phase e = Settled →
         ∃ k p, messages st !! k = Some p ∧ id p = id (msg e) ∧ loading p = Some false.

(** *** Streams of deltas *)

(** A text whose code units stand for themselves inside a JSON string:
    no quotation mark, no reverse solidus, no control character. *)
Definition plain (t : jsstring) : Prop := Forall (λ c, 32 ≤ c ∧ c ≠ 34 ∧ c ≠ 92) t.

(** The line of the stream that carries the delta [t]. *)
Definition delta_line (t : jsstring) : jsstring :=
  sse "data: {'choices':[{'delta':{'content':'" ++ t ++ sse "'}}]}".

(** The chunk made of the lines of the deltas [texts], each ended by a
    line feed. *)
Definition delta_chunk (texts : list jsstring) : jsstring :=
  concat ((λ t, delta_line t ++ [newline]) <$> texts).

(** *** The highlighter and the sheet of sidenotes *)

Record Notes := {
  isHighlightMode : bool;
  isSheetOpen : bool;
  isMarkdownMode : bool;
  monacoContent : jsstring;
}.

Definition with_isHighlightMode (b : bool) (n : Notes) : Notes :=
  {| isHighlightMode := b; isSheetOpen := isSheetOpen n;
     isMarkdownMode := isMarkdownMode n; monacoContent := monacoContent n |}.

Definition with_monacoContent (text : jsstring) (n : Notes) : Notes :=
  {| isHighlightMode := isHighlightMode n; isSheetOpen := isSheetOpen n;
     isMarkdownMode := isMarkdownMode n; monacoContent := text |}.

(** The values [script setup] gives these refs. *)
Definition no_notes : Notes :=
  {| isHighlightMode := false; isSheetOpen := false; isMarkdownMode := true;
     monacoContent := [] |}.

(** Two line feeds: what separates two highlights. *)
Definition blank_line : jsstring := [newline; newline].

(** [handleSelection], the listener of [mouseup]. [selection] is
    [window.getSelection()?.toString()], [None] when there is no
    selection object; the boolean tells whether
    [window.getSelection()?.removeAllRanges()] was called. *)
Definition handleSelection (selection : option jsstring) (n : Notes) : Notes * bool :=
  if negb (isHighlightMode n) then (n, false)
  else
    let text := Js.trim <$> selection in
    if set_nonempty text then
      (with_monacoContent
         (if Js.truthy (monacoContent n)
          then monacoContent n ++ blank_line ++ default [] text
          else default [] text) n,
       true)
    else (n, false).

(** [toggleHighlightMode] *)
Definition toggleHighlightMode (n : Notes) : Notes :=
  if isSheetOpen n then n else with_isHighlightMode (negb (isHighlightMode n)) n.

(** An assignment to [isSheetOpen], followed by the callback of
    [watch(isSheetOpen, (open) => { if (open) isHighlightMode.value =
    false })]: the callback runs when the value has changed, before the
    listener of any later event. *)
Definition setSheetOpen (open : bool) (n : Notes) : Notes :=
  let n' := {| isHighlightMode := isHighlightMode n; isSheetOpen := open;
               isMarkdownMode := isMarkdownMode n; monacoContent := monacoContent n |} in
  if bool_decide (open = isSheetOpen n) then n'
  else if open then with_isHighlightMode false n' else n'.

(** What can happen to the sidenotes. *)
Inductive NotesAction :=
| MouseUp (selection : option jsstring)
    (* [document.addEventListener('mouseup', handleSelection)] *)
| ClickHighlight
    (* [@click="toggleHighlightMode"] *)
| ClickSidenotes
    (* [@click="isSheetOpen = !isSheetOpen"] *)
| SheetEmits (open : bool)
    (* [v-model:open="isSheetOpen"] *)
| ClickMarkdown
    (* [@click="isMarkdownMode = !isMarkdownMode"] *)
| EditNotes (value : jsstring).
    (* [v-model:value="monacoContent"] *)

Definition note (act : NotesAction) (n : Notes) : Notes :=
  match act with
  | MouseUp selection => (handleSelection selection n).1
  | ClickHighlight => toggleHighlightMode n
  | ClickSidenotes => setSheetOpen (negb (isSheetOpen n)) n
  | SheetEmits open => setSheetOpen open n
  | ClickMarkdown =>
      {| isHighlightMode := isHighlightMode n; isSheetOpen := isSheetOpen n;
         isMarkdownMode := negb (isMarkdownMode n); monacoContent := monacoContent n |}
  | EditNotes value => with_monacoContent value n
  end.

Definition notes (acts : list NotesAction) (n : Notes) : Notes :=
  foldl (λ n act, note act n) n acts.

(** Texts joined by blank lines. *)
Fixpoint paragraphs (texts : list jsstring) : jsstring :=
  match texts with
  | [] => []
  | [t] => t
  | t :: rest => t ++ blank_line ++ paragraphs rest
  end.

(** What a selection contributes: its text without the white space
    around it, nothing when there is no selection object. *)
Definition highlight (selection : option jsstring) : jsstring :=
  default [] (Js.trim <$> selection).

(** *** The rounds of the single-column view ([App.vue])

    [groupedMessages] reads only the role of a turn; the turns of
    [App.vue] are those of this log without [targetModels]. *)

(** An element of [grouped]: [{ user, assistants }]. *)
Record Group := {
  group_user : option ChatMessage;
  group_assistants : list ChatMessage;
}.

(** The two variables of [groupedMessages]. *)
Record Grouping := {
  grouped : list Group;
  currentGroup : option Group;
}.

(** [if (currentGroup) grouped.push(currentGroup)] *)
Definition push_current (acc : Grouping) : list Group :=
  match currentGroup acc with
  | Some g => grouped acc ++ [g]
  | None => grouped acc
  end.

(** The callback of [messages.value.forEach]. *)
Definition group_message (acc : Grouping) (msg : ChatMessage) : Grouping :=
  match role msg with
  | user =>
      {| grouped := push_current acc;
         currentGroup := Some {| group_user := Some msg; group_assistants := [] |} |}
  | assistant =>
      match currentGroup acc with
      | Some g =>
          {| grouped := grouped acc;
             currentGroup :=
               Some {| group_user := group_user g;
                       group_assistants := group_assistants g ++ [msg] |} |}
      | None => acc
      end
  end.

(** [groupedMessages] *)
Definition groupedMessages (messages : list ChatMessage) : list Group :=
  push_current (foldl group_message {| grouped := []; currentGroup := None |} messages).

(** The turns of a group, in the order of the log. *)
Definition turns (g : Group) : list ChatMessage :=
  option_list (group_user g) ++ group_assistants g.

(** The turns and the user turns of the groups made so far. *)
Definition flat (acc : Grouping) : list ChatMessage :=
  concat (turns <$> push_current acc).

Definition users (acc : Grouping) : list (option ChatMessage) :=
  group_user <$> push_current acc.

(** *** Concrete catalogs, sessions and notes *)

Definition three_models : list Model.t :=
  [{| Model.id := gpt4 |}; {| Model.id := claude3 |};
   {| Model.id := js "openai/gpt-3.5" |}].

(** A later millisecond. *)
Definition tock : nat → N := λ _, 1700000000001.

(** After [hi_session] the first exchange streams "Hel" and ends, the
    second fails; then "more" is typed. *)
Definition hi_answered : list Action :=
  hi_session
  ++ [Deliver (FetchResolved 0 200 true); Deliver (ReadChunk 0 hel_chunk);
      Deliver (ReadDone 0); Deliver (FetchResolved 1 500 true);
      TypePrompt (js "more")].

(** What happens after that: a late chunk for the first exchange, and
    the next submission with its responses. *)
Definition hi_continued : list Action :=
  [Deliver (ReadChunk 0 lo_chunk); Submit tock;
   Deliver (FetchResolved 2 200 true); Deliver (ReadChunk 2 lo_chunk)].

(** The catalog holds one model, whose identifier is the empty string;
    "Hi" is submitted twice, a millisecond apart. *)
Definition unnamed_twice : list Action :=
  [ModelsFetched [[]]; TypePrompt (js "Hi"); Submit tick;
   TypePrompt (js "Hi"); Submit tock].

(** The catalog holds one model, called [__proto__]; "Hi" is
    submitted. *)
Definition proto_session : list Action :=
  [ModelsFetched [proto]; TypePrompt (js "Hi"); Submit tick].

(** The list of the two models arrives, a reply is typed in each panel,
    and the two panels are submitted within one millisecond. *)
Definition replies_in_one_millisecond : list Action :=
  [ModelsFetched [gpt4; claude3]; TypeReply gpt4 (js "and then?");
   TypeReply claude3 (js "why?"); SubmitPanel gpt4 tick; SubmitPanel claude3 tick].

(** An upstream error reported inside the stream. *)
Definition error_payload : jsstring := sse "{'error':{'message':'boom'}}".

(** The highlighter is on; four selections follow: a text with white
    space around it, no selection object, white space only, a text. *)
Definition highlighting : Notes := with_isHighlightMode true no_notes.

Definition four_selections : list (option jsstring) :=
  [Some (js "  first "); None; Some (js "   "); Some (js "second")].

(** The highlighter is turned on, a text is selected, the sheet is
    opened, another text is selected. *)
Definition notes_then_sheet : list NotesAction :=
  [ClickHighlight; MouseUp (Some (js "a")); ClickSidenotes; MouseUp (Some (js "b"))].

(** A user turn. *)
Definition hi_turn : ChatMessage :=
  {| id := js "1699999999400"; role := user; content := js "Hi"; model := None;
     targetModels := None; loading := None; error := None |}.

(** * Properties *)

(** C8. The derivation functions on the identifiers of the specification:
    the provider of "openai/gpt-4" and of "gpt-4" is "openai", that of
    "claude-3-opus" is "anthropic", that of "llama3:8b" is "llama3"; the
    display name of "openai/gpt-4" and of "gpt-4" is "gpt-4". *)
Theorem provider_and_display_name_examples :
  getProvider (js "openai/gpt-4") = js "openai" ∧
  getProvider (js "gpt-4") = js "openai" ∧
  getProvider (js "claude-3-opus") = js "anthropic" ∧
  getProvider (js "llama3:8b") = js "llama3" ∧
  getDisplayName (js "openai/gpt-4") = js "gpt-4" ∧
  getDisplayName (js "gpt-4") = js "gpt-4".
Proof. repeat split; vm_compute; reflexivity. Qed.


(** ** The per-model projections *)

Lemma filter_reflect {A} (f : A → bool) (P : A → Prop) `{∀ x, Decision (P x)}
    (l : list A) :
  (∀ x, f x = true ↔ P x) → List.filter f l = filter P l.
Proof.
  intros Hf. induction l as [|a l IH]; [done|].
  cbn [List.filter]. rewrite filter_cons, IH.
  destruct (f a) eqn:E; destruct (decide (P a)) as [HP|HP]; try done.
  - exfalso. apply HP, Hf, E.
  - apply Hf in HP. congruence.
Qed.

Lemma shown_for_selects h M m : shown_for h M m = true ↔ selects h M m.
Proof.
  unfold shown_for, selects, Js.includes.
  destruct (role m); [|by rewrite bool_decide_eq_true].
  destruct (set_nonempty (model m)); [by rewrite bool_decide_eq_true|].
  destruct (targetModels m); [by rewrite bool_decide_eq_true|done].
Qed.

Lemma sent_for_selects h p M m :
  model p = Some M →
  sent_for h p m = true ↔ id m ≠ id p ∧ selects h M m.
Proof.
  intros Hp. unfold sent_for. case_bool_decide as Hid.
  { split; [done|]. intros [? _]. done. }
  rewrite <- shown_for_selects. unfold shown_for. rewrite Hp. cbn [includes_opt].
  split; [by split|]. by intros [_ ?].
Qed.

(** On a user turn with a scope as [sendPrompt] creates it, the rule of
    the specification and the rule of the code agree. *)
Lemma selects_single_scope h M m :
  (role m = user → single_scope h m) →
  selects h M m ↔ selects_as_specified h M m.
Proof.
  unfold single_scope, selects, selects_as_specified.
  destruct (role m); [|done].
  intros [Hm | [[Hm Ht] | (Hm & arr & Ht & Harr)]]; [done|..].
  - rewrite Hm. cbn. destruct (targetModels m) as [arr|].
    + split.
      * intros ?. right; left. eauto.
      * intros [?|[(arr' & [= <-] & ?)|[_ ?]]]; done.
    + split; [intros _; right; right; done | done].
  - rewrite Hm. split; [by left|].
    intros [?|[(arr & ? & _)|[Hn _]]]; [done|congruence|].
    rewrite Hn in Hm. done.
  - rewrite Hm, Ht. cbn. split.
    + intros ?. right; left. eauto.
    + intros [[= <-]|[(arr' & [= <-] & ?)|[? _]]]; done.
Qed.

(** Outside the logs the component builds the precedence matters: a user
    turn whose [model] is "B" and whose [targetModels] contains "A"
    satisfies the rule of the specification for "A", and the projection
    for "A" leaves it out. *)
Lemma projection_ignores_targets_of_scoped_turn :
  both_fields_turn ∈ messages both_fields_log
  ∧ selects_as_specified (heap both_fields_log) (js "A") both_fields_turn
  ∧ both_fields_turn ∉ getHistoryForModelDisplay (js "A") both_fields_log.
Proof.
  split; [by apply list_elem_of_here|]. split.
  - right; left. exists 0%nat. split; [done|]. by apply list_elem_of_here.
  - vm_compute. apply not_elem_of_nil.
Qed.

(** On any list of turns, the display projection is the list filtered by
    [selects]: assistant turns whose model is [M]; user turns whose model
    is set, not empty and equal to [M]; user turns whose model is unset
    or empty and whose [targetModels] contains [M] or is unset. The
    history of the request of an exchange for [M] is the role and content
    of the turns selected by the same rule whose id is not the id of the
    placeholder of the exchange. *)
Lemma projections_follow_one_rule (M : jsstring) (st : State) :
  getHistoryForModelDisplay M st = filter (selects (heap st) M) (messages st)
  ∧ ∀ (now : N) (idx : nat),
      let p := placeholder now idx M in
      history p st
      = wire <$> filter (λ m, id m ≠ id p ∧ selects (heap st) M m) (messages st).
Proof.
  split.
  - apply filter_reflect, shown_for_selects.
  - intros now idx p. unfold history. f_equal.
    apply filter_reflect. intros m. by apply sent_for_selects.
Qed.

(** ** Dispatch *)

Lemma foldl_push st ps :
  foldl (λ s p, push p s) st ps
  = with_effects (effects st ++ (Push <$> ps)) (with_messages (messages st ++ ps) st).
Proof.
  revert st. induction ps as [|p ps IH]; intros st.
  - destruct st; cbn. unfold with_effects, with_messages; cbn.
    by rewrite !app_nil_r.
  - cbn [foldl]. rewrite IH. destruct st; unfold push, with_effects, with_messages; cbn.
    by rewrite <- !app_assoc.
Qed.

Lemma history_launch st p q : history q (launch st p) = history q st.
Proof. done. Qed.

Lemma foldl_launch st ps :
  foldl launch st ps
  = with_exchanges (exchanges st ++ (pending <$> ps))
      (with_effects (effects st ++ (Fetch <$> (request_for st <$> ps))) st).
Proof.
  revert st. induction ps as [|p ps IH]; intros st.
  - destruct st; unfold with_exchanges, with_effects; cbn. by rewrite !app_nil_r.
  - cbn [foldl]. rewrite IH.
    assert (request_for (launch st p) <$> ps = request_for st <$> ps) as ->.
    { apply list_fmap_ext. intros _ q _. unfold request_for.
      by rewrite history_launch. }
    destruct st; unfold launch, with_exchanges, with_effects; cbn.
    by rewrite <- !app_assoc.
Qed.

Lemma assistantMessages_lookup now models i :
  assistantMessages now models !! i = placeholder (now i) i <$> models !! i.
Proof. unfold assistantMessages. by rewrite list_lookup_imap. Qed.

Lemma assistantMessages_length now models :
  length (assistantMessages now models) = length models.
Proof. unfold assistantMessages. apply length_imap. Qed.

Lemma truthy_trim s : Js.truthy s = true ↔ s ≠ [].
Proof. destruct s; cbn; split; congruence. Qed.

Lemma sendPrompt_accepts a now st :
  Js.trim (currentPrompt a st) ≠ [] →
  activeModels a st ≠ [] →
  sendPrompt a now st
  = if isGlobalFixed a then
      dispatched a now (heap st ++ [deref (heap st) (selectedModels st)])
        (Some (length (heap st))) st
    else dispatched a now (heap st) None st.
Proof.
  intros Hp Hm. unfold sendPrompt.
  apply truthy_trim in Hp. rewrite Hp. cbn [negb].
  rewrite bool_decide_eq_false_2; [|by intros ?%nil_length_inv].
  unfold alloc, dispatched. by destruct (isGlobalFixed a) eqn:E.
Qed.

Lemma dispatched_messages a now h tm st :
  messages (dispatched a now h tm st)
  = messages st ++ userMessage a (now 0%nat) tm st
      :: assistantMessages (λ idx, now (S idx)) (activeModels a st).
Proof.
  unfold dispatched. rewrite foldl_launch, foldl_push.
  destruct (isGlobalFixed a); cbn; by rewrite <- app_assoc.
Qed.

Lemma dispatched_heap a now h tm st : heap (dispatched a now h tm st) = h.
Proof.
  unfold dispatched. rewrite foldl_launch, foldl_push.
  by destruct (isGlobalFixed a).
Qed.

Lemma request_for_ext st st' p :
  heap st = heap st' → messages st = messages st' →
  request_for st p = request_for st' p.
Proof. intros Hh Hm. unfold request_for, history. by rewrite Hh, Hm. Qed.

Lemma dispatched_effects a now h tm st :
  let u := userMessage a (now 0%nat) tm st in
  let ps := assistantMessages (λ idx, now (S idx)) (activeModels a st) in
  effects (dispatched a now h tm st)
  = effects st ++ Push u :: (Push <$> ps)
      ++ (Fetch <$> (request_for (dispatched a now h tm st) <$> ps)).
Proof.
  intros u ps.
  unfold dispatched at 1. rewrite foldl_launch, foldl_push. fold u ps.
  destruct (isGlobalFixed a) eqn:E; cbn; rewrite <- !app_assoc; cbn;
    do 4 f_equal; apply list_fmap_ext; intros _ p _; apply request_for_ext;
    rewrite ?dispatched_heap, ?dispatched_messages; done.
Qed.

Lemma dispatched_exchanges a now h tm st :
  exchanges (dispatched a now h tm st)
  = exchanges st
      ++ (pending <$> assistantMessages (λ idx, now (S idx)) (activeModels a st)).
Proof.
  unfold dispatched. rewrite foldl_launch, foldl_push.
  by destruct (isGlobalFixed a).
Qed.

(** C2. A dispatch with a prompt that is not blank and [N >= 1] targets
    appends one user turn and then [N] assistant placeholders (content
    empty, [loading] true, [model] the target at the same position), and
    these appends come before every network call of the dispatch: the
    [N] requests follow them, each exchange is left suspended at its
    [fetch], and the turns that were in the log are untouched. *)
Theorem dispatch_appends_before_fetching (a : Arg) (now : nat → N) (st : State) :
  Js.trim (currentPrompt a st) ≠ [] →
  activeModels a st ≠ [] →
  let models := activeModels a st in
  let st' := sendPrompt a now st in
  ∃ u ps,
    messages st' = messages st ++ u :: ps
    ∧ role u = user
    ∧ length ps = length models
    ∧ (∀ i m, models !! i = Some m →
         ∃ p, ps !! i = Some p ∧ role p = assistant ∧ content p = []
              ∧ loading p = Some true ∧ model p = Some m)
    ∧ effects st'
      = effects st ++ Push u :: (Push <$> ps) ++ (Fetch <$> (request_for st' <$> ps))
    ∧ exchanges st' = exchanges st ++ (pending <$> ps).
Proof.
  intros Hp Hm models st'.
  assert (∃ h tm, st' = dispatched a now h tm st) as (h & tm & ->).
  { unfold st'. rewrite sendPrompt_accepts by done.
    destruct (isGlobalFixed a); eauto. }
  exists (userMessage a (now 0%nat) tm st),
         (assistantMessages (λ idx, now (S idx)) models).
  split; [apply dispatched_messages|]. split; [done|].
  split; [apply assistantMessages_length|]. split.
  - intros i m Hi. exists (placeholder (now (S i)) i m).
    by rewrite assistantMessages_lookup, Hi.
  - split; [apply dispatched_effects | apply dispatched_exchanges].
Qed.

Lemma dispatch_appends_before_fetching_witness :
  Js.trim (currentPrompt NoArg hi_state) ≠ []
  ∧ activeModels NoArg hi_state ≠ []
  ∧ ∃ u ps,
      messages (sendPrompt NoArg tick hi_state) = messages hi_state ++ u :: ps
      ∧ role u = user
      ∧ length ps = length (activeModels NoArg hi_state)
      ∧ (∀ i m, activeModels NoArg hi_state !! i = Some m →
           ∃ p, ps !! i = Some p ∧ role p = assistant ∧ content p = []
                ∧ loading p = Some true ∧ model p = Some m)
      ∧ effects (sendPrompt NoArg tick hi_state)
        = effects hi_state ++ Push u :: (Push <$> ps)
            ++ (Fetch <$> (request_for (sendPrompt NoArg tick hi_state) <$> ps))
      ∧ exchanges (sendPrompt NoArg tick hi_state)
        = exchanges hi_state ++ (pending <$> ps).
Proof.
  split; [vm_compute; discriminate|].
  split; [vm_compute; discriminate|].
  apply (dispatch_appends_before_fetching NoArg tick hi_state);
    vm_compute; discriminate.
Defined.

(** C9, at two dispatches within one millisecond: the reply typed in the
    panel of one model is sent, then the reply typed in the panel of
    another. The two user turns share an id, and so do the two
    placeholders. *)
Theorem same_millisecond_dispatches_share_ids :
  id <$> messages same_millisecond
  = [js "1700000000000"; js "1700000000000-0";
     js "1700000000000"; js "1700000000000-0"]
  ∧ ¬ NoDup (id <$> messages same_millisecond).
Proof.
  assert (id <$> messages same_millisecond
          = [js "1700000000000"; js "1700000000000-0";
             js "1700000000000"; js "1700000000000-0"]) as E
    by (vm_compute; reflexivity).
  split; [exact E|]. rewrite E. intros H%NoDup_cons_1_1. apply H.
  apply list_elem_of_further, list_elem_of_here.
Qed.

(** ** The snapshot of the selection *)

Lemma toggleModel_messages M st : messages (toggleModel M st) = messages st.
Proof. unfold toggleModel, alloc. by case_match. Qed.

Lemma toggleModel_heap M st : heap st `prefix_of` heap (toggleModel M st).
Proof.
  unfold toggleModel, alloc. case_match; cbn; rewrite <- app_assoc;
    by apply prefix_app_r.
Qed.

Lemma toggles_messages Ms st :
  messages (foldl (λ s M, toggleModel M s) st Ms) = messages st.
Proof.
  revert st. induction Ms as [|M Ms IH]; intros st; [done|].
  cbn [foldl]. by rewrite IH, toggleModel_messages.
Qed.

Lemma toggles_heap Ms st :
  heap st `prefix_of` heap (foldl (λ s M, toggleModel M s) st Ms).
Proof.
  revert st. induction Ms as [|M Ms IH]; intros st; [done|].
  cbn [foldl]. etrans; [apply toggleModel_heap | apply IH].
Qed.

(** An array that exists is never written again by an allocation. *)
Lemma deref_prefix h h' r :
  h `prefix_of` h' → (r < length h)%nat → deref h' r = deref h r.
Proof.
  intros [ext ->] Hr. unfold deref. by rewrite lookup_app_l.
Qed.

Lemma deref_nonempty h r : deref h r ≠ [] → (r < length h)%nat.
Proof.
  unfold deref. intros H. apply lookup_lt_is_Some.
  destruct (h !! r); [eauto | done].
Qed.

Lemma elem_of_getHistoryForModelDisplay M st m :
  m ∈ getHistoryForModelDisplay M st ↔ m ∈ messages st ∧ selects (heap st) M m.
Proof.
  unfold getHistoryForModelDisplay.
  rewrite (filter_reflect _ (selects (heap st) M)) by apply shown_for_selects.
  rewrite list_elem_of_filter. tauto.
Qed.

(** ** The history sent upstream *)




(** ** Exchanges: what a step can touch *)

Lemma findIndex_Some i (ms : list ChatMessage) (k : nat) :
  findIndex i ms = Some k → ∃ m, ms !! k = Some m ∧ id m = i.
Proof.
  unfold findIndex. destruct (list_find _ ms) as [[k' m]|] eqn:E; [|done].
  intros [= <-]. apply list_find_Some in E as (? & ? & _). eauto.
Qed.

Lemma findIndex_distinct (ms : list ChatMessage) (k : nat) m :
  NoDup (id <$> ms) → ms !! k = Some m → findIndex (id m) ms = Some k.
Proof.
  intros Hnd Hk. unfold findIndex.
  destruct (list_find _ ms) as [[k' m']|] eqn:E.
  - apply list_find_Some in E as (Hk' & Hid & _). cbn. f_equal.
    eapply NoDup_lookup; [exact Hnd| |].
    + rewrite list_lookup_fmap, Hk'. cbn. by rewrite Hid.
    + by rewrite list_lookup_fmap, Hk.
  - apply list_find_None in E. rewrite Forall_forall in E.
    exfalso. eapply E; [|done]. by eapply list_elem_of_lookup_2.
Qed.

Lemma ids_alter (f : ChatMessage → ChatMessage) (k : nat) (ms : list ChatMessage) :
  (∀ m, id (f m) = id m) → id <$> alter f k ms = id <$> ms.
Proof.
  intros Hf. apply list_eq. intros j. rewrite !list_lookup_fmap.
  destruct (decide (j = k)) as [->|Hne].
  - rewrite list_lookup_alter_eq. destruct (ms !! k); cbn; by rewrite ?Hf.
  - by rewrite list_lookup_alter_ne.
Qed.

Lemma same_scope_refl ms : Forall2 same_scope ms ms.
Proof. by apply Forall_Forall2_diag, Forall_forall. Qed.

Lemma same_scope_trans ms1 ms2 ms3 :
  Forall2 same_scope ms1 ms2 → Forall2 same_scope ms2 ms3 → Forall2 same_scope ms1 ms3.
Proof.
  intros H. revert ms3. induction H as [|a b l k (R & M & T) _ IH]; intros ms3 H3.
  - by inversion H3.
  - inversion H3 as [|? c ? k' (R' & M' & T') Hk]; subst. constructor; [|by apply IH].
    unfold same_scope. by rewrite R', M', T'.
Qed.

Lemma same_scope_alter (f : ChatMessage → ChatMessage) (k : nat) ms :
  (∀ m, same_scope m (f m)) → Forall2 same_scope ms (alter f k ms).
Proof.
  intros Hf. revert k. induction ms as [|m ms IH]; intros [|k]; cbn.
  - constructor.
  - constructor.
  - constructor; [apply Hf | apply same_scope_refl].
  - constructor; [done | apply IH].
Qed.

Lemma frame_refl i st : frame i st st.
Proof. repeat split; [done | apply same_scope_refl]. Qed.

Lemma frame_trans i st1 st2 st3 : frame i st1 st2 → frame i st2 st3 → frame i st1 st3.
Proof.
  intros (E1 & H1 & I1 & F1 & S1) (E2 & H2 & I2 & F2 & S2).
  split; [congruence|]. split; [congruence|]. split; [congruence|].
  split; [|by eapply same_scope_trans].
  intros k m Hk Hne. apply F2; [|done]. by apply F1.
Qed.

Lemma frame_update_turn i f st :
  (∀ m, id (f m) = id m) → (∀ m, same_scope m (f m)) →
  frame i st (update_turn i f st).
Proof.
  intros Hf Hs. unfold update_turn.
  destruct (findIndex i (messages st)) as [idx|] eqn:E; [|apply frame_refl].
  apply findIndex_Some in E as (m0 & Hidx & Hid).
  split; [done|]. split; [done|]. split; [by apply ids_alter|].
  split; [|by apply same_scope_alter].
  intros k m Hk Hne. cbn. rewrite list_lookup_alter_ne; [done|].
  intros <-. congruence.
Qed.

Lemma frame_isModelLoading i l st : frame i st (with_isModelLoading l st).
Proof. repeat split; [done | apply same_scope_refl]. Qed.

Lemma frame_catch_block p message st : frame (id p) st (catch_block p message st).
Proof. by apply frame_update_turn. Qed.

Lemma frame_finally_block p st : frame (id p) st (finally_block p st).
Proof.
  assert (frame (id p) st (update_turn (id p) clear_loading st)) as H
    by by apply frame_update_turn.
  unfold finally_block. destruct (set_nonempty (model p)); [|done].
  eapply frame_trans; [exact H | apply frame_isModelLoading].
Qed.

Lemma update_turn_own i f st k p :
  NoDup (id <$> messages st) → messages st !! k = Some p → id p = i →
  update_turn i f st = with_messages (alter f k (messages st)) st.
Proof.
  intros Hnd Hk <-. unfold update_turn. by rewrite (findIndex_distinct _ k).
Qed.

Lemma set_phase_lookup x ph st :
  exchanges (set_phase x ph st) !! x
  = (λ e, {| msg := msg e; phase := ph |}) <$> exchanges st !! x.
Proof. unfold set_phase. cbn. by rewrite list_lookup_alter_eq. Qed.

Lemma set_phase_lookup_ne x y ph st :
  x ≠ y → exchanges (set_phase y ph st) !! x = exchanges st !! x.
Proof. intros. unfold set_phase. cbn. by rewrite list_lookup_alter_ne. Qed.

Lemma set_phase_ids x ph st : exchange_ids (set_phase x ph st) = exchange_ids st.
Proof.
  unfold exchange_ids, set_phase. cbn. apply list_eq. intros j.
  rewrite !list_lookup_fmap. destruct (decide (j = x)) as [->|Hne].
  - rewrite list_lookup_alter_eq. by destruct (exchanges st !! x).
  - by rewrite list_lookup_alter_ne.
Qed.

Section Exchanges.
Context {host : JSON.JsNumbers}.

Lemma frame_handle_data p data st : frame (id p) st (handle_data p data st).
Proof.
  unfold handle_data. repeat case_match; try apply frame_refl;
    by apply frame_update_turn.
Qed.

Lemma frame_process_lines p lines st : frame (id p) st (process_lines p lines st).
Proof.
  revert st. induction lines as [|line rest IH]; intros st; [apply frame_refl|].
  cbn [process_lines]. repeat case_match; try apply frame_refl; [|apply IH].
  eapply frame_trans; [apply frame_handle_data | apply IH].
Qed.

Lemma frame_on_chunk p chunk st : frame (id p) st (on_chunk p chunk st).
Proof. apply frame_process_lines. Qed.

(** What a step of the exchange at [target ev] does to the rest: if it
    does anything, the exchange exists, and the state changes within the
    frame of its placeholder and in its own suspension point. *)
Lemma step_frame ev st :
  step ev st = st
  ∨ ∃ e st' ph,
      exchanges st !! target ev = Some e
      ∧ frame (id (msg e)) st st'
      ∧ (step ev st = st' ∨ step ev st = set_phase (target ev) ph st').
Proof.
  destruct ev as [x message|x status body|x chunk|x|x message]; cbn [step target];
    unfold resume; destruct (exchanges st !! x) as [e|] eqn:Ex; try (by left);
    destruct (phase_eqb _ _); try (by left); right.
  - exists e, (finally_block (msg e) (catch_block (msg e) message st)), Settled.
    split; [done|]. split; [|by right].
    eapply frame_trans; [apply frame_catch_block | apply frame_finally_block].
  - destruct (negb (ok status)); [|destruct (negb body)].
    + eexists e, _, Settled. split; [done|]. split; [|by right].
      eapply frame_trans; [apply frame_catch_block | apply frame_finally_block].
    + eexists e, _, Settled. split; [done|]. split; [|by right].
      eapply frame_trans; [apply frame_catch_block | apply frame_finally_block].
    + exists e, st, AwaitRead. split; [done|]. split; [apply frame_refl | by right].
  - exists e, (on_chunk (msg e) chunk st), AwaitRead.
    split; [done|]. split; [apply frame_on_chunk | by left].
  - exists e, (finally_block (msg e) st), Settled.
    split; [done|]. split; [apply frame_finally_block | by right].
  - exists e, (finally_block (msg e) (catch_block (msg e) message st)), Settled.
    split; [done|]. split; [|by right].
    eapply frame_trans; [apply frame_catch_block | apply frame_finally_block].
Qed.

(** No step changes an id. *)
Lemma step_distinct_ids ev st : distinct_ids st → distinct_ids (step ev st).
Proof.
  intros [Hm Hx].
  destruct (step_frame ev st) as [->|(e & st' & ph & _ & (E & _ & I & _) & [->| ->])];
    [done| |].
  - split; [by rewrite I|]. unfold exchange_ids. by rewrite E.
  - split; [change (NoDup (id <$> messages st')); by rewrite I|].
    rewrite set_phase_ids. unfold exchange_ids. by rewrite E.
Qed.

(** A step of another exchange leaves an exchange and its turn as they
    are. *)
Lemma step_sibling ev st x m0 ph k p :
  distinct_ids st → exchange_at x m0 ph k p st → target ev ≠ x →
  exchange_at x m0 ph k p (step ev st).
Proof.
  intros [_ Hx] (Hex & Hk & Hid) Hne.
  destruct (step_frame ev st) as [->|(e & st' & ph' & He & (E & _ & _ & F & _) & Hs)];
    [done|].
  assert (id p ≠ id (msg e)) as Hids.
  { rewrite Hid. intros Heq. apply Hne. symmetry.
    eapply NoDup_lookup; [exact Hx| |]; unfold exchange_ids;
      rewrite list_lookup_fmap.
    - by rewrite Hex.
    - rewrite He. cbn. by rewrite Heq. }
  destruct Hs as [-> | ->].
  - split; [by rewrite E|]. split; [by apply F | done].
  - split; [rewrite set_phase_lookup_ne by done; by rewrite E|].
    split; [by apply F | done].
Qed.

Lemma run_app evs1 evs2 st : run (evs1 ++ evs2) st = run evs2 (run evs1 st).
Proof. apply foldl_app. Qed.

Lemma run_distinct_ids evs st : distinct_ids st → distinct_ids (run evs st).
Proof.
  revert st. induction evs as [|ev evs IH]; intros st H; [done|].
  apply IH. by apply step_distinct_ids.
Qed.

Lemma run_siblings evs st x m0 ph k p :
  distinct_ids st → exchange_at x m0 ph k p st →
  Forall (λ ev, target ev ≠ x) evs →
  exchange_at x m0 ph k p (run evs st).
Proof.
  revert st. induction evs as [|ev evs IH]; intros st Hd Hat Hs; [done|].
  apply Forall_cons in Hs as [Hev Hs]. cbn. apply IH; [|by apply step_sibling|done].
  by apply step_distinct_ids.
Qed.

Lemma run_cons ev evs st : run (ev :: evs) st = run evs (step ev st).
Proof. done. Qed.

(** *** The steps of an exchange on its own turn *)

Lemma catch_block_own m0 k p message st :
  NoDup (id <$> messages st) → messages st !! k = Some p → id p = id m0 →
  messages (catch_block m0 message st) = alter (set_error message) k (messages st).
Proof.
  intros. unfold catch_block. by erewrite update_turn_own.
Qed.

Lemma finally_block_messages m0 k p st :
  NoDup (id <$> messages st) → messages st !! k = Some p → id p = id m0 →
  messages (finally_block m0 st) = alter clear_loading k (messages st).
Proof.
  intros. unfold finally_block. erewrite update_turn_own by done.
  by destruct (set_nonempty (model m0)).
Qed.

Lemma lookup_assign {V} (m : jsstring) (value : V) (flags : gmap jsstring V) k :
  assign m value flags !! k
  = if decide (k = m ∧ m ≠ proto) then Some value else flags !! k.
Proof.
  unfold assign. case_bool_decide as Hp.
  - rewrite decide_False; [done|]. by intros [_ ?].
  - destruct (decide (k = m)) as [->|Hne].
    + by rewrite lookup_insert_eq, decide_True.
    + rewrite lookup_insert_ne by done. rewrite decide_False; [done|]. by intros [? _].
Qed.

Lemma finally_block_flag m0 M st :
  model m0 = Some M → M ≠ [] → M ≠ proto →
  isModelLoading (finally_block m0 st) !! M
  = Some (some_loading m0 (messages (finally_block m0 st))).
Proof.
  intros HM Hne Hp. unfold finally_block. rewrite HM. cbn.
  destruct M; [done|]. cbn. by rewrite lookup_assign, decide_True.
Qed.

(** Without a flag to write, the [finally] block leaves the flags. *)
Lemma finally_block_no_flag m0 M st :
  model m0 = Some M → M = [] ∨ M = proto →
  isModelLoading (finally_block m0 st) = isModelLoading st.
Proof.
  intros HM Hno. unfold finally_block, update_turn. rewrite HM.
  destruct Hno as [->| ->]; cbn.
  - by destruct (findIndex _ _).
  - unfold assign. rewrite bool_decide_eq_true_2 by done.
    by destruct (findIndex _ _).
Qed.

Lemma some_loading_true m0 M ms :
  model m0 = Some M →
  some_loading m0 ms = true
  ↔ ∃ m, m ∈ ms ∧ model m = Some M ∧ loading m = Some true.
Proof.
  intros HM. unfold some_loading. rewrite existsb_exists. split.
  - intros (m & Hin & [Hmod Hl]%andb_true_iff). exists m.
    apply bool_decide_eq_true in Hmod. rewrite list_elem_of_In.
    split; [done|]. split; [congruence|].
    by destruct (loading m) as [[]|].
  - intros (m & Hin & Hmod & Hl). exists m. rewrite <- list_elem_of_In.
    split; [done|]. rewrite Hl. cbn. rewrite andb_true_r.
    apply bool_decide_eq_true. congruence.
Qed.

(** Every event on which the exchange leaves its [try] block ends with
    the [finally] block, run on the state as it is or as the [catch]
    block left it. *)
Lemma leaves_step ev st m0 ph :
  exchanges st !! target ev = Some {| msg := m0; phase := ph |} →
  leaves ev ph = true →
  ∃ mid,
    step ev st = set_phase (target ev) Settled (finally_block m0 mid)
    ∧ (mid = st ∨ ∃ message, mid = catch_block m0 message st).
Proof.
  intros Hx Hl.
  destruct ev as [x message|x status body|x chunk|x|x message], ph; try done;
    cbn [step target] in *; unfold resume; rewrite Hx; cbn.
  - exists (catch_block m0 message st). split; [done|]. right. eauto.
  - cbn in Hl. destruct (ok status); cbn in *.
    + destruct body; [done|]. exists (catch_block m0 (js "No reader available") st).
      split; [done|]. right; eauto.
    + eexists. split; [done|]. right; eauto.
  - exists st. split; [done|]. by left.
  - exists (catch_block m0 message st). split; [done|]. right. eauto.
Qed.

End Exchanges.

(** ** Failure and cleanup of an exchange *)

Section Failure.
Context {host : JSON.JsNumbers}.

(** In a state with distinct ids, whichever way an exchange leaves its
    [try] block, the step ends in the [finally] block: the turn of the
    exchange has [loading = false], and the busy flag of its model is
    set, to [true] iff some turn of that model still has
    [loading = true]. No flag is written for the empty identifier, which
    [if (msg.model)] excludes, and none under [__proto__]. *)
Lemma cleanup_from
    (ev : Event) (st : State) (x : nat) (m0 : ChatMessage) (ph : Phase)
    (k : nat) (p : ChatMessage) (M : jsstring) :
  distinct_ids st →
  exchange_at x m0 ph k p st →
  target ev = x →
  leaves ev ph = true →
  model m0 = Some M →
  let st' := step ev st in
  (∃ p', messages st' !! k = Some p' ∧ loading p' = Some false)
  ∧ exchanges st' !! x = Some {| msg := m0; phase := Settled |}
  ∧ (M ≠ [] → M ≠ proto →
     ∃ flag,
       isModelLoading st' !! M = Some flag
       ∧ (flag = true
          ↔ ∃ m, m ∈ messages st' ∧ model m = Some M ∧ loading m = Some true))
  ∧ (M = [] ∨ M = proto → isModelLoading st' = isModelLoading st).
Proof.
  intros [Hnd _] (Hex & Hk & Hid) <- Hl HM st'.
  destruct (leaves_step ev st m0 ph Hex Hl) as (mid & Hstep & Hmid).
  assert (∃ q, NoDup (id <$> messages mid) ∧ messages mid !! k = Some q
               ∧ id q = id m0 ∧ exchanges mid = exchanges st) as (q & Hnd' & Hq & Hidq & Hxs).
  { destruct Hmid as [->|[message ->]]; [by exists p|].
    exists (set_error message p). rewrite (catch_block_own m0 k p) by done.
    split; [by rewrite ids_alter|].
    split; [by rewrite list_lookup_alter_eq, Hk|].
    split; [done | apply frame_catch_block]. }
  unfold st'. rewrite Hstep. split; [|split; [|split]].
  - exists (clear_loading q). split; [|done]. cbn.
    rewrite (finally_block_messages m0 k q) by done.
    by rewrite list_lookup_alter_eq, Hq.
  - rewrite set_phase_lookup.
    destruct (frame_finally_block m0 mid) as (-> & _). by rewrite Hxs, Hex.
  - intros Hne Hp. exists (some_loading m0 (messages (finally_block m0 mid))).
    split; [by apply finally_block_flag|]. by apply some_loading_true.
  - intros Hno.
    change (isModelLoading (finally_block m0 mid) = isModelLoading st).
    rewrite (finally_block_no_flag m0 M) by done.
    destruct Hmid as [->|[message ->]]; [done|].
    unfold catch_block, update_turn. by destruct (findIndex _ _).
Qed.

(** In a state with distinct ids, an exchange whose response is not
    usable fails on its own turn: whatever the other exchanges did in
    between, the turn gets the message of the failure as [error] and
    [loading = false], its content is still empty, and every other turn
    is as it was before the step. *)
Lemma failure_from
    (st : State) (x : nat) (m0 : ChatMessage) (k : nat) (p : ChatMessage)
    (sibs : list Event) (status : N) (body : bool) :
  distinct_ids st →
  exchange_at x m0 AwaitFetch k p st →
  content p = [] →
  Forall (λ ev, target ev ≠ x) sibs →
  ok status && body = false →
  let st1 := run sibs st in
  let st2 := step (FetchResolved x status body) st1 in
  (∃ p', messages st2 !! k = Some p'
         ∧ error p' = Some (failure_message status)
         ∧ loading p' = Some false
         ∧ content p' = [])
  ∧ (∀ j, j ≠ k → messages st2 !! j = messages st1 !! j)
  ∧ length (messages st2) = length (messages st1).
Proof.
  intros Hd Hat Hc Hs Hbad st1 st2.
  assert (distinct_ids st1) as [Hnd _] by by apply run_distinct_ids.
  assert (exchange_at x m0 AwaitFetch k p st1) as (Hex & Hk & Hid)
    by by apply run_siblings.
  assert (st2 = throw x m0 (failure_message status) st1) as ->.
  { unfold st2, failure_message. cbn [step]. unfold resume. rewrite Hex. cbn.
    destruct (ok status); cbn in *; [by rewrite Hbad|done]. }
  assert (messages (throw x m0 (failure_message status) st1)
          = alter clear_loading k
              (alter (set_error (failure_message status)) k (messages st1))) as ->.
  { unfold throw. cbn.
    rewrite (finally_block_messages m0 k (set_error (failure_message status) p)).
    - by rewrite (catch_block_own m0 k p).
    - rewrite (catch_block_own m0 k p) by done. by rewrite ids_alter.
    - rewrite (catch_block_own m0 k p) by done.
      by rewrite list_lookup_alter_eq, Hk.
    - done. }
  split; [|split].
  - exists (clear_loading (set_error (failure_message status) p)).
    by rewrite !list_lookup_alter_eq, Hk.
  - intros j Hj. by rewrite !list_lookup_alter_ne.
  - by rewrite !length_alter.
Qed.

(** The events of [leaves] are the only ones on which an exchange is
    settled: there is no exit that the cleanup misses. *)
Lemma settles_only_by_leaving ev st x m0 ph :
  exchanges st !! x = Some {| msg := m0; phase := ph |} →
  ph ≠ Settled →
  exchanges (step ev st) !! x = Some {| msg := m0; phase := Settled |} →
  target ev = x ∧ leaves ev ph = true.
Proof.
  intros Hx Hph Hsettled.
  destruct (decide (target ev = x)) as [<-|Hne].
  - split; [done|].
    destruct ev as [y message|y status body|y chunk|y|y message], ph; try done;
      cbn [step target leaves] in *; unfold resume in Hsettled;
      rewrite Hx in Hsettled; cbn [phase msg phase_eqb] in Hsettled;
      try (rewrite Hx in Hsettled; done).
    + destruct (ok status), body; cbn in *; try done.
      by rewrite list_lookup_alter_eq, Hx in Hsettled.
    + destruct (frame_on_chunk m0 chunk st) as (E & _).
      by rewrite E, Hx in Hsettled.
  - exfalso.
    destruct (step_frame ev st) as [E|(e & st' & ph' & _ & (E & _) & [Hs|Hs])].
    + rewrite E, Hx in Hsettled. by injection Hsettled.
    + rewrite Hs, E, Hx in Hsettled. by injection Hsettled.
    + rewrite Hs, set_phase_lookup_ne, E, Hx in Hsettled by done.
      by injection Hsettled.
Qed.

End Failure.

(** ** The stream of an exchange *)

Lemma startsWith_split p s : Js.startsWith p s = true → s = p ++ drop (length p) s.
Proof.
  revert s. induction p as [|a p IH]; intros [|b s]; cbn; try done.
  intros [->%N.eqb_eq H]%andb_true_iff. f_equal. by apply IH.
Qed.

Lemma is_done_line line :
  Js.startsWith data_prefix line = true →
  Js.eqb (Js.slice 6 line) done_payload = true →
  line = done_line.
Proof.
  intros H1%startsWith_split H2%bool_decide_eq_true.
  rewrite H1. unfold done_line. f_equal. exact H2.
Qed.

Section Stream.
Context {host : JSON.JsNumbers}.

Lemma process_lines_done m0 pre post st :
  Forall (λ line, line ≠ done_line) pre →
  process_lines m0 (pre ++ done_line :: post) st = process_lines m0 pre st.
Proof.
  revert st. induction pre as [|line pre IH]; intros st Hpre.
  - cbn [app process_lines].
    assert (Js.startsWith data_prefix done_line = true) as -> by (vm_compute; reflexivity).
    by assert (Js.eqb (Js.slice 6 done_line) done_payload = true) as ->
      by (vm_compute; reflexivity).
  - apply Forall_cons in Hpre as [Hline Hpre]. cbn [app process_lines].
    destruct (Js.startsWith data_prefix line) eqn:E1; [|by apply IH].
    destruct (Js.eqb (Js.slice 6 line) done_payload) eqn:E2; [|by apply IH].
    by apply is_done_line in E2.
Qed.

Lemma step_chunk x m0 chunk st :
  exchanges st !! x = Some {| msg := m0; phase := AwaitRead |} →
  step (ReadChunk x chunk) st = on_chunk m0 chunk st.
Proof. intros Hx. cbn [step]. unfold resume. by rewrite Hx. Qed.

(** C4. When a chunk has a line [data: [DONE]], the lines after it are
    not processed: the step is the processing of the lines before it.
    The exchange is still suspended at its read: every later chunk is
    processed as usual, and only the end of the stream settles it. *)
Theorem done_ends_the_chunk_not_the_stream
    (st : State) (x : nat) (m0 : ChatMessage) (chunk : jsstring)
    (pre post : list jsstring) :
  exchanges st !! x = Some {| msg := m0; phase := AwaitRead |} →
  Js.split newline chunk = pre ++ done_line :: post →
  Forall (λ line, line ≠ done_line) pre →
  let st' := step (ReadChunk x chunk) st in
  st' = process_lines m0 pre st
  ∧ exchanges st' !! x = Some {| msg := m0; phase := AwaitRead |}
  ∧ (∀ chunk', step (ReadChunk x chunk') st' = on_chunk m0 chunk' st')
  ∧ exchanges (step (ReadDone x) st') !! x = Some {| msg := m0; phase := Settled |}.
Proof.
  intros Hx Hsplit Hpre st'.
  assert (st' = process_lines m0 pre st) as Hst'.
  { unfold st'. rewrite (step_chunk x m0) by done. unfold on_chunk.
    rewrite Hsplit. by apply process_lines_done. }
  assert (exchanges st' !! x = Some {| msg := m0; phase := AwaitRead |}) as Hx'.
  { rewrite Hst'. destruct (frame_process_lines m0 pre st) as (-> & _). done. }
  split; [done|]. split; [done|]. split.
  - intros chunk'. by apply step_chunk.
  - cbn [step]. unfold resume. rewrite Hx'. cbn [phase msg phase_eqb].
    unfold complete. rewrite set_phase_lookup.
    destruct (frame_finally_block m0 st') as (-> & _). by rewrite Hx'.
Qed.

Lemma delta_content_record t :
  JSON.delta_content (delta_record t) = JSON.Normal (JSON.String t).
Proof. reflexivity. Qed.

Lemma handle_data_text m0 data t st :
  JSON.parse data = Some (delta_record t) → t ≠ [] →
  handle_data m0 data st = update_turn (id m0) (append_delta t) st.
Proof.
  intros Hparse Ht. unfold handle_data. rewrite Hparse, delta_content_record.
  by destruct t.
Qed.

Lemma on_chunk_hel m0 st :
  on_chunk m0 hel_chunk st = update_turn (id m0) (append_delta (js "Hel")) st.
Proof.
  unfold on_chunk.
  assert (Js.split newline hel_chunk = [hel_line; []]) as -> by (vm_compute; reflexivity).
  cbn [process_lines].
  assert (Js.startsWith data_prefix hel_line = true) as -> by (vm_compute; reflexivity).
  assert (Js.eqb (Js.slice 6 hel_line) done_payload = false) as ->
    by (vm_compute; reflexivity).
  assert (Js.startsWith data_prefix [] = false) as -> by reflexivity.
  apply handle_data_text; [vm_compute; reflexivity | discriminate].
Qed.

Lemma on_chunk_lo m0 st :
  on_chunk m0 lo_chunk st = update_turn (id m0) (append_delta (js "lo")) st.
Proof.
  unfold on_chunk.
  assert (Js.split newline lo_chunk = [lo_line; []]) as -> by (vm_compute; reflexivity).
  cbn [process_lines].
  assert (Js.startsWith data_prefix lo_line = true) as -> by (vm_compute; reflexivity).
  assert (Js.eqb (Js.slice 6 lo_line) done_payload = false) as ->
    by (vm_compute; reflexivity).
  assert (Js.startsWith data_prefix [] = false) as -> by reflexivity.
  apply handle_data_text; [vm_compute; reflexivity | discriminate].
Qed.

Lemma on_chunk_done m0 st : on_chunk m0 done_chunk st = st.
Proof.
  unfold on_chunk.
  assert (Js.split newline done_chunk = [] ++ done_line :: [[]]) as ->
    by (vm_compute; reflexivity).
  by rewrite process_lines_done.
Qed.

Lemma fetch_ok_own x m0 k p status st :
  exchange_at x m0 AwaitFetch k p st → ok status = true →
  exchange_at x m0 AwaitRead k p (step (FetchResolved x status true) st).
Proof.
  intros (Hx & Hk & Hid) Hok. cbn [step]. unfold resume. rewrite Hx, Hok.
  cbn [phase msg phase_eqb negb].
  split; [|done]. by rewrite set_phase_lookup, Hx.
Qed.

Lemma chunk_text_own x m0 k p chunk t st :
  distinct_ids st → exchange_at x m0 AwaitRead k p st →
  on_chunk m0 chunk st = update_turn (id m0) (append_delta t) st →
  exchange_at x m0 AwaitRead k (append_delta t p) (step (ReadChunk x chunk) st).
Proof.
  intros [Hnd _] (Hx & Hk & Hid) Hchunk.
  rewrite (step_chunk x m0), Hchunk by done.
  rewrite (update_turn_own _ _ _ k p) by done.
  split; [done|]. split; [|done]. cbn. by rewrite list_lookup_alter_eq, Hk.
Qed.

Lemma chunk_idle_own x m0 k p chunk st :
  exchange_at x m0 AwaitRead k p st →
  on_chunk m0 chunk st = st →
  exchange_at x m0 AwaitRead k p (step (ReadChunk x chunk) st).
Proof.
  intros Hat Hchunk. destruct Hat as (Hx & Hk & Hid).
  rewrite (step_chunk x m0), Hchunk by done. done.
Qed.

Lemma read_done_own x m0 k p st :
  distinct_ids st → exchange_at x m0 AwaitRead k p st →
  exchange_at x m0 Settled k (clear_loading p) (step (ReadDone x) st).
Proof.
  intros [Hnd _] (Hx & Hk & Hid). cbn [step]. unfold resume. rewrite Hx.
  cbn [phase msg phase_eqb]. unfold complete. split; [|split; [|done]].
  - rewrite set_phase_lookup.
    destruct (frame_finally_block m0 st) as (-> & _). by rewrite Hx.
  - cbn. rewrite (finally_block_messages m0 k p) by done.
    by rewrite list_lookup_alter_eq, Hk.
Qed.

(** In a state with distinct ids, an exchange of an untouched
    placeholder whose response is successful and whose stream is the
    three chunks of the scenario, then the end of the stream, ends with
    the content "Hello", [loading = false] and no error on its turn,
    whatever the other exchanges do in between. *)
Lemma hello_from
    (st : State) (x : nat) (m0 : ChatMessage) (k : nat) (p : ChatMessage)
    (status : N) (sibs0 sibs1 sibs2 sibs3 sibs4 : list Event) :
  distinct_ids st →
  exchange_at x m0 AwaitFetch k p st →
  content p = [] →
  error p = None →
  ok status = true →
  Forall (λ ev, target ev ≠ x) (sibs0 ++ sibs1 ++ sibs2 ++ sibs3 ++ sibs4) →
  let st' :=
    run (sibs0 ++ FetchResolved x status true
           :: sibs1 ++ ReadChunk x hel_chunk
           :: sibs2 ++ ReadChunk x lo_chunk
           :: sibs3 ++ ReadChunk x done_chunk
           :: sibs4 ++ [ReadDone x]) st in
  ∃ p', messages st' !! k = Some p'
        ∧ content p' = js "Hello"
        ∧ loading p' = Some false
        ∧ error p' = None
        ∧ exchanges st' !! x = Some {| msg := m0; phase := Settled |}.
Proof.
  intros Hd Hat Hc He Hok Hs st'.
  apply Forall_app in Hs as [Hs0 Hs]. apply Forall_app in Hs as [Hs1 Hs].
  apply Forall_app in Hs as [Hs2 Hs]. apply Forall_app in Hs as [Hs3 Hs4].
  unfold st'.
  (* the response *)
  rewrite run_app, run_cons.
  pose proof (run_distinct_ids sibs0 st Hd) as Hd0.
  pose proof (run_siblings sibs0 st x m0 _ k p Hd Hat Hs0) as Hat0.
  pose proof (step_distinct_ids (FetchResolved x status true) _ Hd0) as Hd1.
  pose proof (fetch_ok_own x m0 k p status _ Hat0 Hok) as Hat1.
  (* "Hel" *)
  rewrite run_app, run_cons.
  pose proof (run_distinct_ids sibs1 _ Hd1) as Hd2.
  pose proof (run_siblings sibs1 _ x m0 _ k p Hd1 Hat1 Hs1) as Hat2.
  pose proof (step_distinct_ids (ReadChunk x hel_chunk) _ Hd2) as Hd3.
  pose proof (chunk_text_own x m0 k p hel_chunk _ _ Hd2 Hat2 (on_chunk_hel _ _)) as Hat3.
  (* "lo" *)
  rewrite run_app, run_cons.
  pose proof (run_distinct_ids sibs2 _ Hd3) as Hd4.
  pose proof (run_siblings sibs2 _ x m0 _ k _ Hd3 Hat3 Hs2) as Hat4.
  pose proof (step_distinct_ids (ReadChunk x lo_chunk) _ Hd4) as Hd5.
  pose proof (chunk_text_own x m0 k _ lo_chunk _ _ Hd4 Hat4 (on_chunk_lo _ _)) as Hat5.
  (* the sentinel *)
  rewrite run_app, run_cons.
  pose proof (run_distinct_ids sibs3 _ Hd5) as Hd6.
  pose proof (run_siblings sibs3 _ x m0 _ k _ Hd5 Hat5 Hs3) as Hat6.
  pose proof (step_distinct_ids (ReadChunk x done_chunk) _ Hd6) as Hd7.
  pose proof (chunk_idle_own x m0 k _ done_chunk _ Hat6 (on_chunk_done _ _)) as Hat7.
  (* the end of the stream *)
  rewrite run_app.
  pose proof (run_distinct_ids sibs4 _ Hd7) as Hd8.
  pose proof (run_siblings sibs4 _ x m0 _ k _ Hd7 Hat7 Hs4) as Hat8.
  pose proof (read_done_own x m0 k _ _ Hd8 Hat8) as (Hx9 & Hk9 & _).
  eexists. split; [exact Hk9|]. cbn. rewrite Hc. by repeat split.
Qed.

End Stream.

(** ** The theorems at concrete runs *)

Lemma done_ends_the_chunk_not_the_stream_witness :
  exchanges streaming_hi !! 0%nat = Some {| msg := gpt4_placeholder; phase := AwaitRead |}
  ∧ Js.split newline done_in_the_middle = [hel_line] ++ done_line :: [lo_line; []]
  ∧ Forall (λ line, line ≠ done_line) [hel_line]
  ∧ content <$> messages (step (host := JSON.token_numbers)
                            (ReadChunk 0 done_in_the_middle) streaming_hi) !! 1%nat
    = Some (js "Hel")
  ∧ step (host := JSON.token_numbers) (ReadChunk 0 done_in_the_middle) streaming_hi
    = process_lines (host := JSON.token_numbers) gpt4_placeholder [hel_line] streaming_hi
  ∧ exchanges (step (host := JSON.token_numbers)
                 (ReadChunk 0 done_in_the_middle) streaming_hi) !! 0%nat
    = Some {| msg := gpt4_placeholder; phase := AwaitRead |}
  ∧ (∀ chunk',
       step (host := JSON.token_numbers) (ReadChunk 0 chunk')
         (step (host := JSON.token_numbers) (ReadChunk 0 done_in_the_middle) streaming_hi)
       = on_chunk (host := JSON.token_numbers) gpt4_placeholder chunk'
           (step (host := JSON.token_numbers) (ReadChunk 0 done_in_the_middle)
              streaming_hi))
  ∧ exchanges
      (step (host := JSON.token_numbers) (ReadDone 0)
         (step (host := JSON.token_numbers) (ReadChunk 0 done_in_the_middle)
            streaming_hi)) !! 0%nat
    = Some {| msg := gpt4_placeholder; phase := Settled |}.
Proof.
  split; [vm_compute; reflexivity|].
  split; [vm_compute; reflexivity|].
  split; [repeat constructor; vm_compute; discriminate|].
  split; [vm_compute; reflexivity|].
  apply (done_ends_the_chunk_not_the_stream (host := JSON.token_numbers)
           streaming_hi 0 gpt4_placeholder done_in_the_middle [hel_line] [lo_line; []]);
    [vm_compute; reflexivity | vm_compute; reflexivity
    | repeat constructor; vm_compute; discriminate].
Defined.

(** With the ids of [same_millisecond], the delta streamed to the second
    exchange (the reply to [claude3], turn 3 of the log) is appended to
    the placeholder of the first (the reply to [gpt4], turn 1), which has
    the same id and comes first. *)
Lemma same_id_exchanges_cross_talk :
  (λ e, model (msg e)) <$> exchanges same_millisecond !! 1%nat = Some (Some claude3)
  ∧ (λ m, (model m, content m))
      <$> messages (run (host := JSON.token_numbers)
                      [FetchResolved 1 200 true; ReadChunk 1 hel_chunk]
                      same_millisecond) !! 1%nat
    = Some (Some gpt4, js "Hel")
  ∧ (λ m, (model m, content m))
      <$> messages (run (host := JSON.token_numbers)
                      [FetchResolved 1 200 true; ReadChunk 1 hel_chunk]
                      same_millisecond) !! 3%nat
    = Some (Some claude3, []).
Proof. repeat split; vm_compute; reflexivity. Qed.

(** ** Sessions: the ids and the scopes of the turns *)

Lemma unit_inj a b : Js.unit a = Js.unit b → a = b.
Proof.
  unfold Js.unit. intros H%Nat2N.inj.
  by rewrite <- (ascii_nat_embedding a), <- (ascii_nat_embedding b), H.
Qed.

Lemma lit_inj s t : js s = js t → s = t.
Proof.
  unfold Js.lit. intros H.
  assert (list_ascii_of_string s = list_ascii_of_string t) as E.
  { revert H. generalize (list_ascii_of_string s) (list_ascii_of_string t).
    induction l as [|a l IH]; intros [|b l']; cbn; try done.
    intros [= Hab%unit_inj Hl%IH]. by subst. }
  by rewrite <- (string_of_list_ascii_of_string s),
             <- (string_of_list_ascii_of_string t), E.
Qed.

Lemma to_uint_nonnil n : N.to_uint n ≠ Decimal.Nil.
Proof. destruct n; [done|]. apply Unsigned.to_uint_nonnil. Qed.

(** Two numbers print the same only if they are equal. *)
Lemma of_N_inj n m : Js.of_N n = Js.of_N m → n = m.
Proof.
  unfold Js.of_N. intros H%lit_inj.
  apply DecimalN.Unsigned.to_uint_inj.
  assert (Some (N.to_uint n) = Some (N.to_uint m)) as [= ->]; [|done].
  rewrite <- !NilZero.usu by apply to_uint_nonnil. by rewrite H.
Qed.

Lemma digits_of_uint d : Forall (λ c, 48 ≤ c ≤ 57) (js (NilEmpty.string_of_uint d)).
Proof. induction d; cbn; constructor; try done; by vm_compute. Qed.

(** A number prints as digits. *)
Lemma of_N_digits n : Forall (λ c, 48 ≤ c ≤ 57) (Js.of_N n).
Proof.
  unfold Js.of_N, NilZero.string_of_uint.
  destruct (N.to_uint n); try apply (digits_of_uint (_ _)).
  repeat constructor; by vm_compute.
Qed.

Lemma of_N_no_dash n : 45 ∉ Js.of_N n.
Proof.
  intros H. pose proof (of_N_digits n) as Hd. rewrite Forall_forall in Hd.
  apply Hd in H. lia.
Qed.

Lemma app_dash_inj (a a' b b' : jsstring) :
  45 ∉ a → 45 ∉ a' → a ++ 45 :: b = a' ++ 45 :: b' → a = a' ∧ b = b'.
Proof.
  revert a'. induction a as [|c a IH]; intros [|c' a'] Ha Ha'; cbn.
  - by intros [= ->].
  - intros [= <- _]. exfalso. apply Ha'. by left.
  - intros [= -> _]. exfalso. apply Ha. by left.
  - intros [= -> H]. apply IH in H as [-> ->]; [done| |].
    + intros ?. apply Ha. by right.
    + intros ?. apply Ha'. by right.
Qed.

Lemma placeholder_id now idx m :
  id (placeholder now idx m) = Js.of_N now ++ 45 :: Js.of_N (N.of_nat idx).
Proof. done. Qed.

Lemma new_ids_lookup now models i x :
  (id <$> assistantMessages (λ idx, now (S idx)) models) !! i = Some x →
  x = Js.of_N (now (S i)) ++ 45 :: Js.of_N (N.of_nat i).
Proof.
  rewrite list_lookup_fmap, assistantMessages_lookup.
  destruct (models !! i); [|done]. by intros [= <-].
Qed.

(** The ids of one dispatch are pairwise distinct, whatever the clock
    reads: the index tells the placeholders apart, the hyphen tells them
    from the user turn. *)
Lemma new_ids_NoDup now models : NoDup (new_ids now models).
Proof.
  unfold new_ids. apply NoDup_cons. split.
  - intros (i & Hi)%list_elem_of_lookup_1. apply new_ids_lookup in Hi.
    apply (of_N_no_dash (now 0%nat)). rewrite Hi.
    apply elem_of_app. right. by left.
  - apply NoDup_alt. intros i j x Hi%new_ids_lookup Hj%new_ids_lookup.
    rewrite Hi in Hj.
    apply app_dash_inj in Hj as [_ Hj]; [|apply of_N_no_dash..].
    by apply of_N_inj, Nat2N.inj in Hj.
Qed.

Lemma new_ids_stamped now cs models :
  Forall (stamped (now :: cs)) (new_ids now models).
Proof.
  unfold new_ids. apply Forall_cons. split.
  - exists now, 0%nat. split; [by left|]. by left.
  - apply Forall_lookup. intros i x Hi%new_ids_lookup.
    exists now, (S i). split; [by left|]. right. by exists (N.of_nat i).
Qed.

(** An id stamped by an earlier clock is none of the ids of a dispatch
    whose clock is separate from the earlier ones. *)
Lemma stamped_fresh now cs models x :
  Forall (separate now) cs → stamped cs x → x ∉ new_ids now models.
Proof.
  intros Hsep (c & k & Hc & Hx) Hin. rewrite Forall_forall in Hsep.
  specialize (Hsep c Hc). unfold new_ids in Hin.
  apply elem_of_cons in Hin as [Hin|(i & Hin%new_ids_lookup)%list_elem_of_lookup_1].
  - destruct Hx as [Hx|(idx & Hx)]; rewrite Hx in Hin.
    + apply of_N_inj in Hin. by apply (Hsep 0%nat k).
    + apply (of_N_no_dash (now 0%nat)). rewrite <- Hin.
      apply elem_of_app. right. by left.
  - destruct Hx as [Hx|(idx & Hx)]; rewrite Hx in Hin.
    + apply (of_N_no_dash (c k)). rewrite Hin.
      apply elem_of_app. right. by left.
    + apply app_dash_inj in Hin as [Hin _]; [|apply of_N_no_dash..].
      apply of_N_inj in Hin. by apply (Hsep (S i) k).
Qed.

Lemma stamped_weaken now cs x : stamped cs x → stamped (now :: cs) x.
Proof. intros (c & k & Hc & Hx). exists c, k. split; [by right|done]. Qed.

Lemma fmap_alter_same {A B} (g : A → B) (f : A → A) (k : nat) (l : list A) :
  (∀ a, g (f a) = g a) → g <$> alter f k l = g <$> l.
Proof.
  intros Hf. apply list_eq. intros j. rewrite !list_lookup_fmap.
  destruct (decide (j = k)) as [->|Hne].
  - rewrite list_lookup_alter_eq. destruct (l !! k); cbn; by rewrite ?Hf.
  - by rewrite list_lookup_alter_ne.
Qed.

Lemma sendPrompt_rejects a now st :
  Js.trim (currentPrompt a st) = [] ∨ activeModels a st = [] →
  sendPrompt a now st = st.
Proof.
  intros [H|H]; unfold sendPrompt; [by rewrite H|].
  destruct (negb _); [done|]. by rewrite H.
Qed.

Lemma well_formed_unchanged cs st st' :
  messages st' = messages st → exchanges st' = exchanges st →
  well_formed cs st → well_formed cs st'.
Proof.
  intros Hm Hx ([H1 H2] & H3 & H4).
  unfold well_formed, distinct_ids, exchange_ids. by rewrite Hm, Hx.
Qed.

Lemma well_formed_weaken now cs st : well_formed cs st → well_formed (now :: cs) st.
Proof.
  intros (H1 & H2 & H3). split; [done|]. split; [|done].
  eapply Forall_impl; [exact H2|]. intros x. apply stamped_weaken.
Qed.

Lemma well_formed_dispatched cs a now h tm st :
  Forall (separate now) cs →
  well_formed cs st →
  well_formed (now :: cs) (dispatched a now h tm st).
Proof.
  intros Hsep ([Hnd Hndx] & Hst & Hex).
  set (models := activeModels a st).
  set (ps := assistantMessages (λ idx, now (S idx)) models).
  assert (id <$> messages (dispatched a now h tm st)
          = (id <$> messages st) ++ new_ids now models) as Hids.
  { rewrite dispatched_messages. by rewrite fmap_app. }
  assert (exchange_ids (dispatched a now h tm st)
          = exchange_ids st ++ (id <$> ps)) as Hxids.
  { unfold exchange_ids. rewrite dispatched_exchanges, fmap_app.
    by rewrite <- list_fmap_compose. }
  assert (∀ x, x ∈ id <$> messages st → x ∉ new_ids now models) as Hfresh.
  { intros x Hx. apply stamped_fresh with cs; [done|].
    rewrite Forall_forall in Hst. by apply Hst. }
  assert (∀ x, x ∈ exchange_ids st → x ∈ id <$> messages st) as Hsub.
  { intros x (e & -> & He)%list_elem_of_fmap.
    rewrite Forall_fmap, Forall_forall in Hex.
    destruct (Hex e He) as (k & q & Hk & Hq). cbn. rewrite <- Hq.
    apply list_elem_of_fmap. exists q. split; [done|].
    by eapply list_elem_of_lookup_2. }
  split; [split|split].
  - rewrite Hids. apply NoDup_app. split; [done|]. split; [done|].
    apply new_ids_NoDup.
  - rewrite Hxids. apply NoDup_app. split; [done|]. split.
    + intros x Hx%Hsub%Hfresh Hin. apply Hx. unfold new_ids. by right.
    + by apply (NoDup_cons_1_2 (Js.of_N (now 0%nat))), new_ids_NoDup.
  - rewrite Hids. apply Forall_app. split; [|apply new_ids_stamped].
    eapply Forall_impl; [exact Hst|]. intros x. apply stamped_weaken.
  - rewrite dispatched_exchanges, dispatched_messages, fmap_app.
    apply Forall_app. split.
    + eapply Forall_impl; [exact Hex|]. intros m0 (k & q & Hk & Hq).
      exists k, q. split; [|done]. by apply lookup_app_l_Some.
    + rewrite <- list_fmap_compose. apply Forall_fmap, Forall_lookup.
      intros i q Hi. exists (length (messages st) + S i)%nat, q. split; [|done].
      rewrite lookup_app_r by lia.
      by replace (length (messages st) + S i - length (messages st))%nat
        with (S i) by lia.
Qed.

Lemma well_formed_sendPrompt cs a now st :
  Forall (separate now) cs →
  well_formed cs st →
  well_formed (now :: cs) (sendPrompt a now st).
Proof.
  intros Hsep Hwf.
  destruct (decide (Js.trim (currentPrompt a st) = [])) as [Hp|Hp].
  { rewrite sendPrompt_rejects by by left. by apply well_formed_weaken. }
  destruct (decide (activeModels a st = [])) as [Hm|Hm].
  { rewrite sendPrompt_rejects by by right. by apply well_formed_weaken. }
  rewrite sendPrompt_accepts by done.
  by destruct (isGlobalFixed a); apply well_formed_dispatched.
Qed.

Section SessionFacts.
Context {host : JSON.JsNumbers}.

(** A step keeps the arrays, the ids, the roles and the scopes of the
    turns where they are, and the placeholder of every exchange. *)
Lemma step_shape ev st :
  heap (step ev st) = heap st
  ∧ id <$> messages (step ev st) = id <$> messages st
  ∧ Forall2 same_scope (messages st) (messages (step ev st))
  ∧ msg <$> exchanges (step ev st) = msg <$> exchanges st.
Proof.
  destruct (step_frame ev st)
    as [->|(e & st' & ph & _ & (E & H & I & _ & S) & [->| ->])].
  - split; [done|]. split; [done|]. split; [apply same_scope_refl | done].
  - by rewrite E.
  - split; [done|]. split; [done|]. split; [done|]. unfold set_phase. cbn.
    rewrite fmap_alter_same by done. by rewrite E.
Qed.

Lemma well_formed_step cs ev st : well_formed cs st → well_formed cs (step ev st).
Proof.
  intros (Hd & Hst & Hex).
  destruct (step_shape ev st) as (_ & I & S & X).
  split; [by apply step_distinct_ids|]. split; [by rewrite I|].
  rewrite X. eapply Forall_impl; [exact Hex|]. intros m0 (k & q & Hk & Hq).
  assert ((id <$> messages (step ev st)) !! k = Some (id q)) as Hk'
    by by rewrite I, list_lookup_fmap, Hk.
  rewrite list_lookup_fmap in Hk'.
  destruct (messages (step ev st) !! k) as [q'|] eqn:Eq; [|done].
  exists k, q'. split; [done|]. injection Hk' as ->. done.
Qed.

Lemma well_formed_toggleModel cs M st :
  well_formed cs st → well_formed cs (toggleModel M st).
Proof.
  apply well_formed_unchanged; [apply toggleModel_messages|].
  unfold toggleModel, alloc. by case_match.
Qed.

Lemma well_formed_fetchModels cs ids st :
  well_formed cs st → well_formed cs (fetchModels ids st).
Proof.
  apply well_formed_unchanged; unfold fetchModels, alloc; by case_match.
Qed.

(** At every moment of an orderly session the ids of the log and those
    of the exchanges are pairwise distinct, and every exchange has its
    turn in the log. *)
Lemma session_well_formed acts cs st :
  orderly cs acts → well_formed cs st → ∃ cs', well_formed cs' (session acts st).
Proof.
  revert cs st. induction acts as [|act acts IH]; intros cs st Ho Hwf; [by exists cs|].
  cbn [session foldl].
  destruct act as [text|modelId text|modelId|ids|now|modelId now|ev];
    cbn [perform orderly] in *.
  - apply (IH cs); [done|]. by apply (well_formed_unchanged cs st).
  - apply (IH cs); [done|]. by apply (well_formed_unchanged cs st).
  - apply (IH cs); [done|]. by apply well_formed_toggleModel.
  - apply (IH cs); [done|]. by apply well_formed_fetchModels.
  - destruct Ho as (Hsep & Ho). apply (IH (now :: cs)); [done|].
    by apply well_formed_sendPrompt.
  - destruct Ho as (Hsep & Ho). apply (IH (now :: cs)); [done|].
    destruct (Js.includes _ _); [by apply well_formed_sendPrompt|].
    by apply well_formed_weaken.
  - apply (IH cs); [done|]. by apply well_formed_step.
Qed.

Lemma resume_cases x ph k st :
  resume x ph k st = st
  ∨ ∃ e, exchanges st !! x = Some e ∧ phase e = ph ∧ resume x ph k st = k (msg e) st.
Proof.
  unfold resume. destruct (exchanges st !! x) as [e|]; [|by left].
  destruct e as [m0 []], ph; cbn; try (by left); right; by eexists.
Qed.

Lemma settled_not_awaiting x y st e :
  exchanges (set_phase y Settled st) !! x = Some e → x = y → phase e ≠ AwaitFetch.
Proof.
  intros Hx ->. rewrite set_phase_lookup in Hx.
  destruct (exchanges st !! y); [|done]. injection Hx as <-. done.
Qed.

(** An exchange that waits for its response after a step waited for it
    before, and the step was not one of its own. *)
Lemma awaits_fetch_before ev st x e :
  exchanges (step ev st) !! x = Some e → phase e = AwaitFetch →
  exchanges st !! x = Some e ∧ (target ev ≠ x ∨ step ev st = st).
Proof.
  intros Hx Hph. destruct (decide (target ev = x)) as [<-|Hne].
  - assert (step ev st = st) as Hst; [|rewrite Hst in Hx; split; [done|by right]].
    destruct ev as [y message|y status body|y chunk|y|y message];
      cbn [step target] in *.
    + destruct (resume_cases y AwaitFetch (λ p, throw y p message) st)
        as [E|(e0 & E0 & P0 & E)]; [done|].
      rewrite E in Hx. by apply (settled_not_awaiting y y) in Hx.
    + match type of Hx with context [resume y AwaitFetch ?k st] =>
        destruct (resume_cases y AwaitFetch k st) as [E|(e0 & E0 & P0 & E)]
      end; [done|].
      rewrite E in Hx. exfalso.
      destruct (negb (ok status)); [|destruct (negb body)].
      * by apply (settled_not_awaiting y y) in Hx.
      * by apply (settled_not_awaiting y y) in Hx.
      * rewrite set_phase_lookup in Hx. destruct (exchanges st !! y); [|done].
        injection Hx as <-. done.
    + destruct (resume_cases y AwaitRead (λ p, on_chunk p chunk) st)
        as [E|(e0 & E0 & P0 & E)]; [done|].
      rewrite E in Hx. exfalso.
      destruct (frame_on_chunk (msg e0) chunk st) as (Ex & _).
      rewrite Ex, E0 in Hx. injection Hx as <-. congruence.
    + destruct (resume_cases y AwaitRead (λ p, complete y p) st)
        as [E|(e0 & E0 & P0 & E)]; [done|].
      rewrite E in Hx. by apply (settled_not_awaiting y y) in Hx.
    + destruct (resume_cases y AwaitRead (λ p, throw y p message) st)
        as [E|(e0 & E0 & P0 & E)]; [done|].
      rewrite E in Hx. by apply (settled_not_awaiting y y) in Hx.
  - destruct (step_frame ev st) as [E|(e0 & st' & ph' & _ & (E & _) & [Hs|Hs])].
    + rewrite E in Hx. split; [done|by right].
    + rewrite Hs, E in Hx. split; [done|by left].
    + rewrite Hs, set_phase_lookup_ne, E in Hx by done. split; [done|by left].
Qed.

Lemma awaiting_untouched_step ev st :
  distinct_ids st → awaiting_untouched st → awaiting_untouched (step ev st).
Proof.
  intros Hd Hu. apply Forall_lookup. intros x e Hx Hph.
  destruct (awaits_fetch_before ev st x e Hx Hph) as [Hx0 Hev].
  unfold awaiting_untouched in Hu. rewrite Forall_lookup in Hu.
  destruct (Hu x e Hx0 Hph) as (k & q & Hk & Hid & Hq).
  destruct Hev as [Hev|Hev]; [|rewrite Hev; by exists k, q].
  destruct (step_sibling ev st x (msg e) (phase e) k q) as (_ & Hk' & _);
    [done| |done|by exists k, q].
  split; [by destruct e|done].
Qed.

Lemma awaiting_untouched_unchanged st st' :
  messages st' = messages st → exchanges st' = exchanges st →
  awaiting_untouched st → awaiting_untouched st'.
Proof. intros Hm Hx. unfold awaiting_untouched. by rewrite Hm, Hx. Qed.

Lemma awaiting_untouched_sendPrompt a now st :
  awaiting_untouched st → awaiting_untouched (sendPrompt a now st).
Proof.
  intros Hu.
  destruct (decide (Js.trim (currentPrompt a st) = [])) as [Hp|Hp].
  { by rewrite sendPrompt_rejects by by left. }
  destruct (decide (activeModels a st = [])) as [Hm|Hm].
  { by rewrite sendPrompt_rejects by by right. }
  rewrite sendPrompt_accepts by done.
  assert (∀ h tm, awaiting_untouched (dispatched a now h tm st)) as Hd;
    [|by destruct (isGlobalFixed a)].
  intros h tm. unfold awaiting_untouched.
  rewrite dispatched_exchanges, dispatched_messages. apply Forall_app. split.
  - eapply Forall_impl; [exact Hu|]. intros e He Hph.
    destruct (He Hph) as (k & q & Hk & Hq). exists k, q.
    split; [by apply lookup_app_l_Some|done].
  - apply Forall_fmap, Forall_lookup. intros i q Hi _.
    exists (length (messages st) + S i)%nat, q. split.
    + rewrite lookup_app_r by lia.
      by replace (length (messages st) + S i - length (messages st))%nat
        with (S i) by lia.
    + split; [done|]. rewrite assistantMessages_lookup in Hi.
      destruct (activeModels a st !! i); [|done]. by injection Hi as <-.
Qed.

(** At every moment of an orderly session, every exchange that waits for
    its response has its turn in the log, an untouched placeholder. *)
Lemma session_awaiting_untouched acts cs st :
  orderly cs acts → well_formed cs st → awaiting_untouched st →
  awaiting_untouched (session acts st).
Proof.
  revert cs st. induction acts as [|act acts IH]; intros cs st Ho Hwf Hu; [done|].
  cbn [session foldl].
  destruct act as [text|modelId text|modelId|ids|now|modelId now|ev];
    cbn [perform orderly] in *.
  - apply (IH cs); [done|by apply (well_formed_unchanged cs st)|done].
  - apply (IH cs); [done|by apply (well_formed_unchanged cs st)|done].
  - apply (IH cs); [done|by apply well_formed_toggleModel|].
    revert Hu. apply awaiting_untouched_unchanged; [apply toggleModel_messages|].
    unfold toggleModel, alloc. by case_match.
  - apply (IH cs); [done|by apply well_formed_fetchModels|].
    revert Hu. apply awaiting_untouched_unchanged;
      unfold fetchModels, alloc; by case_match.
  - destruct Ho as (Hsep & Ho). apply (IH (now :: cs)); [done| |].
    + by apply well_formed_sendPrompt.
    + by apply awaiting_untouched_sendPrompt.
  - destruct Ho as (Hsep & Ho). apply (IH (now :: cs)); [done| |].
    + destruct (Js.includes _ _); [by apply well_formed_sendPrompt|].
      by apply well_formed_weaken.
    + destruct (Js.includes _ _); [by apply awaiting_untouched_sendPrompt|done].
  - apply (IH cs); [done|by apply well_formed_step|].
    apply awaiting_untouched_step; [|done]. by destruct Hwf.
Qed.

Lemma initial_well_formed : well_formed [] initial.
Proof. repeat split; cbn; constructor. Qed.

(** In an orderly session the ids are pairwise distinct. *)
Lemma orderly_session_distinct_ids acts :
  orderly [] acts → distinct_ids (session acts initial).
Proof.
  intros Ho. destruct (session_well_formed acts [] initial Ho initial_well_formed)
    as (cs & Hd & _). done.
Qed.

(** In an orderly session, an exchange that waits for its response is
    the exchange of an untouched placeholder of the log. *)
Lemma orderly_session_awaiting acts x m0 :
  orderly [] acts →
  exchanges (session acts initial) !! x = Some {| msg := m0; phase := AwaitFetch |} →
  ∃ k p, exchange_at x m0 AwaitFetch k p (session acts initial) ∧ untouched p.
Proof.
  intros Ho Hx.
  assert (awaiting_untouched (session acts initial)) as Hu.
  { apply (session_awaiting_untouched acts []); [done|apply initial_well_formed|].
    constructor. }
  unfold awaiting_untouched in Hu. rewrite Forall_lookup in Hu.
  destruct (Hu x _ Hx eq_refl) as (k & p & Hk & Hid & Hp).
  by exists k, p.
Qed.

Lemma run_ids evs st : id <$> messages (run evs st) = id <$> messages st.
Proof.
  revert st. induction evs as [|ev evs IH]; intros st; [done|].
  rewrite run_cons, IH. by destruct (step_shape ev st) as (_ & -> & _).
Qed.

(** In an orderly session, every exchange has its turn in the log. *)
Lemma orderly_session_exchange acts x m0 ph :
  orderly [] acts →
  exchanges (session acts initial) !! x = Some {| msg := m0; phase := ph |} →
  ∃ k p, exchange_at x m0 ph k p (session acts initial).
Proof.
  intros Ho Hx.
  destruct (session_well_formed acts [] initial Ho initial_well_formed)
    as (cs & _ & _ & Hex).
  rewrite Forall_fmap, Forall_lookup in Hex.
  destruct (Hex x _ Hx) as (k & p & Hk & Hid). by exists k, p.
Qed.

(** C6. At every moment of an orderly session, whichever way an exchange
    leaves its [try] block (the stream ends, the transport fails, a read
    throws), the step ends in the [finally] block: the turn of the
    exchange has [loading = false]. When the identifier of its model is
    neither empty nor [__proto__], the busy flag of the model is set, to
    [true] iff some turn of that model in the log still has
    [loading = true]; otherwise no flag is written. *)
Theorem cleanup_runs_on_every_exit
    (acts : list Action) (ev : Event) (x : nat) (m0 : ChatMessage) (ph : Phase)
    (M : jsstring) :
  orderly [] acts →
  exchanges (session acts initial) !! x = Some {| msg := m0; phase := ph |} →
  target ev = x →
  leaves ev ph = true →
  model m0 = Some M →
  let st := session acts initial in
  let st' := step ev st in
  ∃ k p,
    messages st !! k = Some p
    ∧ id p = id m0
    ∧ exchanges st' !! x = Some {| msg := m0; phase := Settled |}
    ∧ (∃ p', messages st' !! k = Some p' ∧ id p' = id m0 ∧ loading p' = Some false)
    ∧ (M ≠ [] → M ≠ proto →
       cleaned_up k M st' ∧ isModelLoading st' !! M = Some (busy M st'))
    ∧ (M = [] ∨ M = proto → isModelLoading st' = isModelLoading st).
Proof.
  intros Ho Hx Hev Hl HM st st'.
  destruct (orderly_session_exchange acts x m0 ph Ho Hx) as (k & p & Hat).
  destruct (cleanup_from ev st x m0 ph k p M)
    as ((p' & Hk & Hload) & Hsettled & Hflag & Hnone); try done.
  { by apply orderly_session_distinct_ids. }
  destruct Hat as (_ & Hk0 & Hid).
  exists k, p. split; [done|]. split; [done|]. split; [done|]. split; [|split; [|done]].
  - exists p'. split; [done|]. split; [|done].
    apply (f_equal (fmap id)) in Hk. rewrite <- list_lookup_fmap in Hk.
    subst st' st. destruct (step_shape ev (session acts initial)) as (_ & I & _).
    rewrite I, list_lookup_fmap, Hk0 in Hk. injection Hk as <-. done.
  - intros Hne Hp. destruct (Hflag Hne Hp) as (flag & Hlook & Hiff). subst st'.
    assert (busy M (step ev st) = flag) as Hb.
    { unfold busy. rewrite bool_decide_eq_false_2 by done. by rewrite Hlook. }
    split; [|by rewrite Hb]. unfold cleaned_up. rewrite Hb.
    split; [by exists p'|done].
Qed.

(** At every moment of an orderly session, an exchange that waits
    for its response and gets one with a status outside 200-299, or
    without a readable body, fails on its own turn: whatever the other
    exchanges did in between, the turn gets the message of the failure
    as [error] and [loading = false], its content is still empty, and
    every other turn of the log is as it was before the step. *)
Theorem failed_exchange_marks_only_its_turn
    (acts : list Action) (x : nat) (m0 : ChatMessage)
    (sibs : list Event) (status : N) (body : bool) :
  orderly [] acts →
  exchanges (session acts initial) !! x = Some {| msg := m0; phase := AwaitFetch |} →
  Forall (λ ev, target ev ≠ x) sibs →
  ok status && body = false →
  let st1 := run sibs (session acts initial) in
  let st2 := step (FetchResolved x status body) st1 in
  ∃ k p',
    messages st2 !! k = Some p'
    ∧ id p' = id m0
    ∧ error p' = Some (failure_message status)
    ∧ loading p' = Some false
    ∧ content p' = []
    ∧ (∀ j, j ≠ k → messages st2 !! j = messages st1 !! j)
    ∧ length (messages st2) = length (messages st1).
Proof.
  intros Ho Hx Hs Hbad st1 st2.
  destruct (orderly_session_awaiting acts x m0 Ho Hx) as (k & p & Hat & Hc & _).
  destruct (failure_from (session acts initial) x m0 k p sibs status body)
    as ((p' & Hk & He & Hl & Hc') & Hothers & Hlen); try done.
  { by apply orderly_session_distinct_ids. }
  exists k, p'. repeat split; try done.
  destruct Hat as (_ & Hk0 & <-).
  apply (f_equal (fmap id)) in Hk. rewrite <- list_lookup_fmap in Hk.
  subst st1 st2.
  destruct (step_shape (FetchResolved x status body)
              (run sibs (session acts initial))) as (_ & I & _).
  rewrite I, run_ids, list_lookup_fmap, Hk0 in Hk. by injection Hk.
Qed.

(** At every moment of an orderly session, an exchange that waits
    for its response, gets a successful one and then reads the three
    chunks of the scenario and the end of the stream, ends with the
    content "Hello", [loading = false] and no error on its turn,
    whatever the other exchanges do in between. *)
Theorem hello_stream
    (acts : list Action) (x : nat) (m0 : ChatMessage) (status : N)
    (sibs0 sibs1 sibs2 sibs3 sibs4 : list Event) :
  orderly [] acts →
  exchanges (session acts initial) !! x = Some {| msg := m0; phase := AwaitFetch |} →
  ok status = true →
  Forall (λ ev, target ev ≠ x) (sibs0 ++ sibs1 ++ sibs2 ++ sibs3 ++ sibs4) →
  let st' :=
    run (sibs0 ++ FetchResolved x status true
           :: sibs1 ++ ReadChunk x hel_chunk
           :: sibs2 ++ ReadChunk x lo_chunk
           :: sibs3 ++ ReadChunk x done_chunk
           :: sibs4 ++ [ReadDone x]) (session acts initial) in
  ∃ k p',
    messages st' !! k = Some p'
    ∧ id p' = id m0
    ∧ content p' = js "Hello"
    ∧ loading p' = Some false
    ∧ error p' = None
    ∧ exchanges st' !! x = Some {| msg := m0; phase := Settled |}.
Proof.
  intros Ho Hx Hok Hs st'.
  destruct (orderly_session_awaiting acts x m0 Ho Hx) as (k & p & Hat & Hc & He & _).
  destruct (hello_from (session acts initial) x m0 k p status
              sibs0 sibs1 sibs2 sibs3 sibs4)
    as (p' & Hk & Hc' & Hl & He' & Hx'); try done.
  { by apply orderly_session_distinct_ids. }
  exists k, p'. repeat split; try done.
  destruct Hat as (_ & Hk0 & <-).
  apply (f_equal (fmap id)) in Hk. rewrite <- list_lookup_fmap in Hk.
  subst st'. rewrite run_ids, list_lookup_fmap, Hk0 in Hk. by injection Hk.
Qed.

End SessionFacts.

(** ** Sessions: the rule of the projections *)

Lemma filter_agree {A} (P Q : A → Prop) `{∀ x, Decision (P x)} `{∀ x, Decision (Q x)}
    (l : list A) :
  (∀ x, x ∈ l → P x ↔ Q x) → filter P l = filter Q l.
Proof.
  induction l as [|a l IH]; intros HPQ; [done|].
  rewrite !filter_cons, IH by (intros x Hx; apply HPQ; by right).
  destruct (decide (P a)) as [HP|HP], (decide (Q a)) as [HQ|HQ]; try done.
  - exfalso. apply HQ, HPQ; [by left|done].
  - exfalso. apply HP, HPQ; [by left|done].
Qed.

Lemma single_scope_prefix h h' m :
  h `prefix_of` h' → single_scope h m → single_scope h' m.
Proof.
  intros Hh [?|[?|(Hm & arr & Ht & Harr)]]; [by left|by right; left|].
  right; right. split; [done|]. exists arr. split; [done|].
  rewrite (deref_prefix h h'); [done..|].
  apply deref_nonempty. intros E. rewrite E in Harr. by apply not_elem_of_nil in Harr.
Qed.

Lemma scoped_grow st st' :
  heap st `prefix_of` heap st' → messages st' = messages st → scoped st → scoped st'.
Proof.
  intros Hh Hm Hs. unfold scoped. rewrite Hm.
  eapply Forall_impl; [exact Hs|]. intros m Hsc Hr.
  eapply single_scope_prefix; [exact Hh|by apply Hsc].
Qed.

Lemma scoped_toggleModel M st : scoped st → scoped (toggleModel M st).
Proof. apply scoped_grow; [apply toggleModel_heap | apply toggleModel_messages]. Qed.

Lemma scoped_fetchModels ids st : scoped st → scoped (fetchModels ids st).
Proof.
  apply scoped_grow; unfold fetchModels, alloc; case_match; try done.
  cbn. by apply prefix_app_r.
Qed.

Lemma scoped_sendPrompt a now st :
  (a = IdArg [] → [] ∈ deref (heap st) (selectedModels st)) →
  scoped st → scoped (sendPrompt a now st).
Proof.
  intros Ha Hs.
  destruct (decide (Js.trim (currentPrompt a st) = [])) as [Hp|Hp].
  { by rewrite sendPrompt_rejects by by left. }
  destruct (decide (activeModels a st = [])) as [Hm|Hm].
  { by rewrite sendPrompt_rejects by by right. }
  rewrite sendPrompt_accepts by done.
  set (sel := deref (heap st) (selectedModels st)) in *.
  assert (∀ h tm,
            heap st `prefix_of` h →
            (role (userMessage a (now 0%nat) tm st) = user →
             single_scope h (userMessage a (now 0%nat) tm st)) →
            scoped (dispatched a now h tm st)) as Hd.
  { intros h tm Hh Hu. unfold scoped.
    rewrite dispatched_messages, dispatched_heap.
    apply Forall_app. split; [|apply Forall_cons; split; [done|]].
    - eapply Forall_impl; [exact Hs|]. intros m Hsc Hr.
      eapply single_scope_prefix; [exact Hh|by apply Hsc].
    - apply Forall_lookup. intros i q. rewrite assistantMessages_lookup.
      destruct (activeModels a st !! i); [|done]. by intros [= <-]. }
  destruct (isGlobalFixed a) eqn:Hg; apply Hd.
  - by apply prefix_app_r.
  - intros _. destruct a as [| |[|c t]]; [by left|by left| |done].
    right; right. split; [done|]. exists (length (heap st)). split; [done|].
    unfold deref. rewrite lookup_app_r, Nat.sub_diag by lia. cbn. by apply Ha.
  - done.
  - intros _. destruct a as [| |[|c t]]; [done..|]. right; left. done.
Qed.

(** On a user turn that is not ambiguous, the rule of the specification
    and the rule of the code agree. *)
Lemma selects_unambiguous h M m :
  (role m = user → unambiguous h m) →
  selects h M m ↔ selects_as_specified h M m.
Proof.
  unfold unambiguous, selects, selects_as_specified.
  destruct (role m); [|done]. intros H. specialize (H eq_refl).
  destruct (model m) as [[|c s]|]; cbn.
  - destruct H as (arr & -> & Harr). split.
    + intros ?. right; left. eauto.
    + intros [[= <-]|[(arr' & [= <-] & ?)|[? _]]]; done.
  - split; [by left|].
    intros [?|[(arr & Ht & Hin)|[? _]]]; [done| |done].
    by rewrite (H arr Ht M Hin).
  - destruct (targetModels m) as [arr|].
    + split.
      * intros ?. right; left. eauto.
      * intros [?|[(arr' & [= <-] & ?)|[_ ?]]]; done.
    + split; [intros _; right; right; done | done].
Qed.

(** C1. On every log in which no user turn is ambiguous (no user turn
    has a [model] that is not empty together with a [targetModels] that
    names another model, and none has the empty string as [model]
    without the empty identifier in its [targetModels]), for every
    model identifier [M], the display projection selects exactly the
    turns of the rule of the specification, in the order of the log:
    assistant turns whose model is [M]; user turns whose model is [M],
    or whose [targetModels] contains [M], or with neither field set. The
    history of the request of an exchange for [M] is the role and
    content of the turns selected by the same rule, leaving out what has
    the id of the placeholder of the exchange. *)
Theorem projections_select_by_the_rule (st : State) (M : jsstring) :
  plain_scopes st →
  getHistoryForModelDisplay M st
  = filter (selects_as_specified (heap st) M) (messages st)
  ∧ ∀ p : ChatMessage,
      model p = Some M →
      history p st
      = wire <$> filter (λ m, id m ≠ id p ∧ selects_as_specified (heap st) M m)
                        (messages st).
Proof.
  intros Hs. unfold plain_scopes in Hs. rewrite Forall_forall in Hs. split.
  - destruct (projections_follow_one_rule M st) as [-> _].
    apply filter_agree. intros m Hm. apply selects_unambiguous. by apply Hs.
  - intros p Hp. unfold history. f_equal.
    transitivity (filter (λ m, id m ≠ id p ∧ selects (heap st) M m) (messages st)).
    + apply filter_reflect. intros m. by apply sent_for_selects.
    + apply filter_agree. intros m Hm.
      rewrite (selects_unambiguous (heap st) M m) by by apply Hs. done.
Qed.

Section Projections.
Context {host : JSON.JsNumbers}.

Lemma scoped_step ev st : scoped st → scoped (step ev st).
Proof.
  intros Hs. destruct (step_shape ev st) as (H & _ & S & _).
  unfold scoped. rewrite H. apply Forall_lookup. intros k m' Hk'.
  destruct (Forall2_lookup_r _ _ _ _ _ S Hk') as (m & Hk & R & M & T).
  unfold scoped in Hs. rewrite Forall_lookup in Hs. specialize (Hs k m Hk).
  unfold single_scope in *. rewrite R, M, T. done.
Qed.

(** Every user turn of every log the component builds has one scope. *)
Lemma session_scoped acts st : scoped st → scoped (session acts st).
Proof.
  revert st. induction acts as [|act acts IH]; intros st Hs; [done|].
  cbn [session foldl]. apply IH.
  destruct act as [text|modelId text|modelId|ids|now|modelId now|ev]; cbn [perform].
  - done.
  - done.
  - by apply scoped_toggleModel.
  - by apply scoped_fetchModels.
  - by apply scoped_sendPrompt.
  - unfold Js.includes. case_bool_decide as Hin; [|done].
    apply scoped_sendPrompt; [|done]. by intros [= ->].
  - by apply scoped_step.
Qed.

Lemma scoped_plain_scopes st : scoped st → plain_scopes st.
Proof.
  intros Hs. eapply Forall_impl; [exact Hs|]. intros m Hm Hu. unfold unambiguous.
  destruct (Hm Hu) as [-> | [[Hne ->] | (-> & arr & -> & Hin)]]; [done| |by exists arr].
  destruct (model m) as [[|c s]|]; done.
Qed.

(** No log the component builds has an ambiguous user turn. *)
Lemma session_plain_scopes (acts : list Action) : plain_scopes (session acts initial).
Proof. apply scoped_plain_scopes, session_scoped. constructor. Qed.

(** In every log the component builds the two projections select by
    the rule of the specification. *)
Lemma session_projections_select_by_the_rule (acts : list Action) (M : jsstring) :
  let st := session acts initial in
  getHistoryForModelDisplay M st
  = filter (selects_as_specified (heap st) M) (messages st)
  ∧ ∀ (now : N) (idx : nat),
      let p := placeholder now idx M in
      history p st
      = wire <$> filter (λ m, id m ≠ id p ∧ selects_as_specified (heap st) M m)
                        (messages st).
Proof.
  intros st.
  assert (scoped st) as Hs by (apply session_scoped; constructor).
  unfold scoped in Hs. rewrite Forall_forall in Hs.
  destruct (projections_follow_one_rule M st) as [Hd Hh]. split.
  - rewrite Hd. apply filter_agree. intros m Hm.
    apply selects_single_scope. by apply Hs.
  - intros now idx p. unfold p. rewrite Hh. f_equal. apply filter_agree.
    intros m Hm.
    rewrite (selects_single_scope (heap st) M m) by by apply Hs. done.
Qed.

End Projections.

(** ** Sessions: the log only grows *)

Lemma grows_refl st : grows st st.
Proof. split; [done|]. exists (messages st). split; [done|apply same_scope_refl]. Qed.

Lemma grows_trans st1 st2 st3 : grows st1 st2 → grows st2 st3 → grows st1 st3.
Proof.
  intros (H1 & kept1 & [rest1 P1] & S1) (H2 & kept2 & P2 & S2).
  split; [by etrans|]. rewrite P1 in S2.
  apply Forall2_app_inv_l in S2 as (k2a & k2b & Sa & _ & ->).
  exists k2a. split; [|by eapply same_scope_trans].
  etrans; [by apply prefix_app_r|done].
Qed.

Lemma grows_unchanged st st' :
  heap st `prefix_of` heap st' → messages st' = messages st → grows st st'.
Proof.
  intros Hh Hm. split; [done|]. exists (messages st). rewrite Hm.
  split; [done|apply same_scope_refl].
Qed.

Lemma grows_sendPrompt a now st : grows st (sendPrompt a now st).
Proof.
  destruct (decide (Js.trim (currentPrompt a st) = [])) as [Hp|Hp].
  { rewrite sendPrompt_rejects by by left. apply grows_refl. }
  destruct (decide (activeModels a st = [])) as [Hm|Hm].
  { rewrite sendPrompt_rejects by by right. apply grows_refl. }
  rewrite sendPrompt_accepts by done.
  assert (∀ h tm, heap st `prefix_of` h → grows st (dispatched a now h tm st)) as Hd.
  { intros h tm Hh. split; [by rewrite dispatched_heap|].
    exists (messages st). rewrite dispatched_messages.
    split; [by apply prefix_app_r|apply same_scope_refl]. }
  destruct (isGlobalFixed a); apply Hd; [by apply prefix_app_r|done].
Qed.

Section Growth.
Context {host : JSON.JsNumbers}.

Lemma grows_step ev st : grows st (step ev st).
Proof.
  destruct (step_shape ev st) as (H & _ & S & _). split; [by rewrite H|].
  by exists (messages (step ev st)).
Qed.

Lemma grows_perform act st : grows st (perform act st).
Proof.
  destruct act as [text|modelId text|modelId|ids|now|modelId now|ev]; cbn [perform].
  - by apply grows_unchanged.
  - by apply grows_unchanged.
  - apply grows_unchanged; [apply toggleModel_heap | apply toggleModel_messages].
  - apply grows_unchanged; unfold fetchModels, alloc; case_match; try done.
    cbn. by apply prefix_app_r.
  - apply grows_sendPrompt.
  - destruct (Js.includes _ _); [apply grows_sendPrompt | apply grows_refl].
  - apply grows_step.
Qed.

(** Whatever happens, the log and the store of arrays only grow. *)
Lemma grows_session acts st : grows st (session acts st).
Proof.
  revert st. induction acts as [|act acts IH]; intros st; [apply grows_refl|].
  cbn [session foldl]. eapply grows_trans; [apply grows_perform | apply IH].
Qed.

(** C5. The user turn of a global dispatch stores a reference to a new
    array, not the array of the selection, holding the identifiers
    selected when it was sent. Whatever happens afterwards (models
    toggled on or off, other submissions, responses streamed) the turn
    is at its place in the log with the same [targetModels], and the
    array is as it was: the turn stays in the projection of every model
    that was selected when it was sent, whatever the selection has
    become. *)
Theorem global_turn_keeps_its_targets
    (a : Arg) (now : nat → N) (st : State) (later : list Action) :
  isGlobalFixed a = true →
  Js.trim (currentPrompt a st) ≠ [] →
  activeModels a st ≠ [] →
  let selection := deref (heap st) (selectedModels st) in
  let k := length (messages st) in
  let st1 := sendPrompt a now st in
  let st2 := session later st1 in
  ∃ u r,
    messages st1 !! k = Some u
    ∧ role u = user
    ∧ targetModels u = Some r
    ∧ r ≠ selectedModels st
    ∧ deref (heap st1) r = selection
    ∧ ∃ u',
        messages st2 !! k = Some u'
        ∧ targetModels u' = Some r
        ∧ deref (heap st2) r = selection
        ∧ ∀ M, M ∈ selection → u' ∈ getHistoryForModelDisplay M st2.
Proof.
  intros Hg Hp Hm selection k st1 st2.
  assert (selectedModels st < length (heap st))%nat as Hsel.
  { apply deref_nonempty. unfold activeModels in Hm. by rewrite Hg in Hm. }
  assert (st1 = dispatched a now (heap st ++ [selection]) (Some (length (heap st))) st)
    as Hst1.
  { unfold st1. rewrite sendPrompt_accepts by done. by rewrite Hg. }
  set (u := userMessage a (now 0%nat) (Some (length (heap st))) st).
  assert (deref (heap st1) (length (heap st)) = selection) as Hcopy.
  { rewrite Hst1, dispatched_heap. unfold deref.
    by rewrite lookup_app_r, Nat.sub_diag by lia. }
  assert (messages st1 !! k = Some u) as Hu.
  { rewrite Hst1, dispatched_messages.
    by rewrite lookup_app_r, Nat.sub_diag by lia. }
  destruct (grows_session later st1) as (Hheap & kept & Hkept & Hscope).
  assert (deref (heap st2) (length (heap st)) = selection) as Harr.
  { rewrite <- Hcopy. apply deref_prefix; [done|].
    rewrite Hst1, dispatched_heap, length_app. cbn. lia. }
  destruct (Forall2_lookup_l _ _ _ _ _ Hscope Hu) as (u' & Hu' & Hr & Hmod & Htm).
  assert (messages st2 !! k = Some u') as Hk'.
  { destruct Hkept as [rest Hrest]. fold st2 in Hrest. rewrite Hrest.
    by apply lookup_app_l_Some. }
  exists u, (length (heap st)).
  split; [done|]. split; [done|]. split; [done|]. split; [lia|]. split; [done|].
  exists u'. split; [done|]. split; [by rewrite Htm|]. split; [done|].
  intros M HM. apply elem_of_getHistoryForModelDisplay. split.
  - by eapply list_elem_of_lookup_2.
  - unfold selects. rewrite Hr, Hmod, Htm. cbn.
    unfold isGlobalFixed in Hg. apply negb_true_iff in Hg. rewrite Hg.
    fold st2. by rewrite Harr.
Qed.

End Growth.

Lemma global_turn_keeps_its_targets_witness :
  isGlobalFixed NoArg = true
  ∧ Js.trim (currentPrompt NoArg hi_state) ≠ []
  ∧ activeModels NoArg hi_state ≠ []
  ∧ deref (heap (session (host := JSON.token_numbers) reselect
                   (sendPrompt NoArg tick hi_state)))
          (selectedModels (session (host := JSON.token_numbers) reselect
                             (sendPrompt NoArg tick hi_state)))
    = [js "C"]
  ∧ ∃ u r,
      messages (sendPrompt NoArg tick hi_state) !! length (messages hi_state) = Some u
      ∧ role u = user
      ∧ targetModels u = Some r
      ∧ r ≠ selectedModels hi_state
      ∧ deref (heap (sendPrompt NoArg tick hi_state)) r = [gpt4; claude3]
      ∧ ∃ u',
          messages (session (host := JSON.token_numbers) reselect
                      (sendPrompt NoArg tick hi_state)) !! length (messages hi_state)
          = Some u'
          ∧ targetModels u' = Some r
          ∧ deref (heap (session (host := JSON.token_numbers) reselect
                           (sendPrompt NoArg tick hi_state))) r
            = [gpt4; claude3]
          ∧ ∀ M, M ∈ [gpt4; claude3] →
              u' ∈ getHistoryForModelDisplay M
                     (session (host := JSON.token_numbers) reselect
                        (sendPrompt NoArg tick hi_state)).
Proof.
  split; [reflexivity|].
  split; [vm_compute; discriminate|].
  split; [vm_compute; discriminate|].
  split; [vm_compute; reflexivity|].
  apply (global_turn_keeps_its_targets (host := JSON.token_numbers)
           NoArg tick hi_state reselect);
    [reflexivity | vm_compute; discriminate | vm_compute; discriminate].
Defined.

(** ** The fuel of the JSON parser *)

Lemma skip_ws_length s : (length (JSON.skip_ws s) ≤ length s)%nat.
Proof. induction s as [|c s IH]; cbn; [lia|]. destruct (JSON.is_ws c); cbn; lia. Qed.

Lemma string_body_length s b r :
  JSON.string_body s = Some (b, r) → (length r < length s)%nat.
Proof.
  assert (∀ n s, (length s ≤ n)%nat → ∀ b r,
            JSON.string_body s = Some (b, r) → (length r < length s)%nat) as H;
    [|by apply (H (length s))].
  clear. induction n as [|n IH]; intros [|c s] Hn b r; try done; [cbn in Hn; lia|].
  cbn [JSON.string_body]. cbn in Hn.
  destruct (c =? 34); [intros [= <- <-]; cbn; lia|].
  destruct (c =? 92).
  - destruct s as [|e r1]; [done|]. destruct (e =? 117).
    + destruct r1 as [|a1 [|a2 [|a3 [|a4 r2]]]]; try done.
      destruct (JSON.hex4 a1 a2 a3 a4); [|done]. cbn.
      destruct (JSON.string_body r2) as [[body rest]|] eqn:E; [|done]. cbn.
      intros [= <- <-]. apply IH in E; cbn in *; lia.
    + destruct (JSON.escape e); [|done]. cbn.
      destruct (JSON.string_body r1) as [[body rest]|] eqn:E; [|done]. cbn.
      intros [= <- <-]. apply IH in E; cbn in *; lia.
  - destruct (c <? 32); [done|].
    destruct (JSON.string_body s) as [[body rest]|] eqn:E; [|done]. cbn.
    intros [= <- <-]. apply IH in E; cbn in *; lia.
Qed.

Lemma digits_length s : (length (JSON.digits s).2 ≤ length s)%nat.
Proof.
  induction s as [|c s IH]; cbn; [lia|].
  destruct (JSON.is_digit c); cbn; [|lia]. destruct (JSON.digits s); cbn in *. lia.
Qed.

Lemma digits1_length s ds r : JSON.digits1 s = Some (ds, r) → (length r < length s)%nat.
Proof.
  unfold JSON.digits1. destruct s as [|c s]; [done|]. cbn.
  destruct (JSON.is_digit c); [|done].
  pose proof (digits_length s) as H. destruct (JSON.digits s) as [ds' r']. cbn in *.
  intros [= <- <-]. lia.
Qed.

Lemma number_length s t r : JSON.number s = Some (t, r) → (length r < length s)%nat.
Proof.
  unfold JSON.number.
  set (signed := match s with c :: r0 => if c =? 45 then ([c], r0) else ([], s) | [] => ([], s) end).
  assert (length signed.2 ≤ length s)%nat as Hs1.
  { unfold signed. destruct s as [|c s']; [done|]. destruct (c =? 45); cbn; lia. }
  destruct signed as [sign s1]. cbn in Hs1.
  destruct (match s1 with c :: r0 => if c =? 48 then Some ([c], r0) else JSON.digits1 s1 | [] => None end)
    as [[int s2]|] eqn:Eint; [|done].
  assert (length s2 < length s1)%nat as Hs2.
  { destruct s1 as [|c r0]; [done|]. destruct (c =? 48).
    - injection Eint as <- <-. cbn. lia.
    - by apply digits1_length in Eint. }
  cbn [mbind option_bind].
  destruct (match s2 with c :: r0 => if c =? 46 then _ else Some ([], s2) | [] => Some ([], s2) end)
    as [[frac s3]|] eqn:Efrac; [|done].
  assert (length s3 ≤ length s2)%nat as Hs3.
  { destruct s2 as [|c r0]; [by injection Efrac as <- <-|]. destruct (c =? 46).
    - destruct (JSON.digits1 r0) as [[ds rest]|] eqn:Ed; [|done]. cbn in Efrac.
      injection Efrac as <- <-. apply digits1_length in Ed. cbn. lia.
    - by injection Efrac as <- <-. }
  cbn [mbind option_bind].
  destruct (match s3 with c :: r0 => if (c =? 101) || (c =? 69) then _ else Some ([], s3) | [] => Some ([], s3) end)
    as [[exp s4]|] eqn:Eexp; [|done].
  assert (length s4 ≤ length s3)%nat as Hs4.
  { destruct s3 as [|c r0]; [by injection Eexp as <- <-|].
    destruct ((c =? 101) || (c =? 69)); [|by injection Eexp as <- <-].
    destruct r0 as [|c' r'].
    - done.
    - destruct ((c' =? 43) || (c' =? 45)).
      + destruct (JSON.digits1 r') as [[ds rest]|] eqn:Ed; [|done]. cbn in Eexp.
        injection Eexp as <- <-. apply digits1_length in Ed. cbn. lia.
      + destruct (JSON.digits1 (c' :: r')) as [[ds rest]|] eqn:Ed; [|done]. cbn in Eexp.
        injection Eexp as <- <-. apply digits1_length in Ed. cbn in *. lia. }
  cbn. intros [= <- <-]. lia.
Qed.

Lemma keyword_length k v s x r :
  k ≠ [] → JSON.keyword k v s = Some (x, r) → (length r < length s)%nat.
Proof.
  unfold JSON.keyword. intros Hk. destruct (Js.startsWith k s) eqn:E; [|done].
  intros [= <- <-]. apply startsWith_split, (f_equal length) in E.
  rewrite length_app, length_drop in E. rewrite length_drop.
  destruct k; [done|]. cbn in *. lia.
Qed.

Lemma skip_ws_cons s c r : JSON.skip_ws s = c :: r → (length r < length s)%nat.
Proof. intros E. pose proof (skip_ws_length s) as H. rewrite E in H. cbn in H. lia. Qed.

Lemma fuel_suffices f :
  (∀ s, (2 * length s + 1 ≤ f)%nat → stable JSON.parse_value f s)
  ∧ (∀ s, (2 * length s + 2 ≤ f)%nat → stable JSON.parse_elements f s)
  ∧ (∀ s, (2 * length s + 2 ≤ f)%nat → stable JSON.parse_members f s).
Proof.
  induction f as [|f (IHv & IHe & IHm)].
  { repeat split; intros; lia. }
  split; [|split].
  - (* values *)
    intros s Hf.
    assert (∀ g, (f ≤ g)%nat →
              JSON.parse_value (S g) s = JSON.parse_value (S f) s
              ∧ ∀ a r, JSON.parse_value (S f) s = Some (a, r) → (length r < length s)%nat) as H.
    { intros g Hg. cbn [JSON.parse_value].
      destruct (JSON.skip_ws s) as [|c r] eqn:Es; [done|].
      apply skip_ws_cons in Es.
      destruct (c =? 34).
      { split; [done|]. intros a r0.
        destruct (JSON.string_body r) as [[b rest]|] eqn:E; [|done]. cbn.
        intros [= <- <-]. apply string_body_length in E. lia. }
      destruct (c =? 91).
      { destruct (JSON.skip_ws r) as [|c' r'] eqn:Er; [done|].
        apply skip_ws_cons in Er.
        destruct (c' =? 93); [split; [done|]; intros a r0 [= <- <-]; lia|].
        destruct (IHe r) as [He Hc]; [lia|]. rewrite (He g Hg). split; [done|].
        intros a r0. destruct (JSON.parse_elements f r) as [[vs rest]|] eqn:E; [|done].
        cbn. intros [= <- <-]. specialize (Hc _ _ eq_refl). lia. }
      destruct (c =? 123).
      { destruct (JSON.skip_ws r) as [|c' r'] eqn:Er; [done|].
        apply skip_ws_cons in Er.
        destruct (c' =? 125); [split; [done|]; intros a r0 [= <- <-]; lia|].
        destruct (IHm r) as [He Hc]; [lia|]. rewrite (He g Hg). split; [done|].
        intros a r0. destruct (JSON.parse_members f r) as [[vs rest]|] eqn:E; [|done].
        cbn. intros [= <- <-]. specialize (Hc _ _ eq_refl). lia. }
      split; [done|]. intros a r0.
      destruct (c =? 116); [intros E%keyword_length; [cbn in E; lia|done]|].
      destruct (c =? 102); [intros E%keyword_length; [cbn in E; lia|done]|].
      destruct (c =? 110); [intros E%keyword_length; [cbn in E; lia|done]|].
      destruct (JSON.number (c :: r)) as [[tok rest]|] eqn:E; [|done]. cbn.
      intros [= <- <-]. apply number_length in E. cbn in E. lia. }
    split.
    + intros [|g] Hg; [lia|]. apply H. lia.
    + apply (H f). lia.
  - (* elements *)
    intros s Hf.
    assert (∀ g, (f ≤ g)%nat →
              JSON.parse_elements (S g) s = JSON.parse_elements (S f) s
              ∧ ∀ a r, JSON.parse_elements (S f) s = Some (a, r) → (length r < length s)%nat) as H.
    { intros g Hg. cbn [JSON.parse_elements].
      destruct (IHv s) as [He Hc]; [lia|]. rewrite (He g Hg).
      destruct (JSON.parse_value f s) as [[v r]|] eqn:E; [|done]. cbn.
      specialize (Hc _ _ eq_refl).
      destruct (JSON.skip_ws r) as [|c r'] eqn:Er; [done|]. apply skip_ws_cons in Er.
      destruct (c =? 44).
      { destruct (IHe r') as [He' Hc']; [lia|]. rewrite (He' g Hg). split; [done|].
        intros a r0. destruct (JSON.parse_elements f r') as [[vs rest]|] eqn:E'; [|done].
        cbn. intros [= <- <-]. specialize (Hc' _ _ eq_refl). lia. }
      split; [done|]. intros a r0. destruct (c =? 93); [|done].
      intros [= <- <-]. lia. }
    split.
    + intros [|g] Hg; [lia|]. apply H. lia.
    + apply (H f). lia.
  - (* members *)
    intros s Hf.
    assert (∀ g, (f ≤ g)%nat →
              JSON.parse_members (S g) s = JSON.parse_members (S f) s
              ∧ ∀ a r, JSON.parse_members (S f) s = Some (a, r) → (length r < length s)%nat) as H.
    { intros g Hg. cbn [JSON.parse_members].
      destruct (JSON.skip_ws s) as [|c r] eqn:Es; [done|]. apply skip_ws_cons in Es.
      destruct (c =? 34); [|done].
      destruct (JSON.string_body r) as [[k r1]|] eqn:Ek; [|done]. cbn.
      apply string_body_length in Ek.
      destruct (JSON.skip_ws r1) as [|c1 r2] eqn:E1; [done|]. apply skip_ws_cons in E1.
      destruct (c1 =? 58); [|done].
      destruct (IHv r2) as [He Hc]; [lia|]. rewrite (He g Hg).
      destruct (JSON.parse_value f r2) as [[v r3]|] eqn:Ev; [|done]. cbn.
      specialize (Hc _ _ eq_refl).
      destruct (JSON.skip_ws r3) as [|c3 r4] eqn:E3; [done|]. apply skip_ws_cons in E3.
      destruct (c3 =? 44).
      { destruct (IHm r4) as [He' Hc']; [lia|]. rewrite (He' g Hg). split; [done|].
        intros a r0. destruct (JSON.parse_members f r4) as [[ms rest]|] eqn:E'; [|done].
        cbn. intros [= <- <-]. specialize (Hc' _ _ eq_refl). lia. }
      split; [done|]. intros a r0. destruct (c3 =? 125); [|done].
      intros [= <- <-]. lia. }
    split.
    + intros [|g] Hg; [lia|]. apply H. lia.
    + apply (H f). lia.
Qed.

(** The fuel of [JSON.parse] is never exhausted: more fuel gives the
    same result. *)
Lemma parse_fuel text fuel :
  (2 * length text + 2 ≤ fuel)%nat →
  JSON.parse_value fuel text = JSON.parse_value (2 * length text + 2) text.
Proof.
  intros H. destruct (fuel_suffices (2 * length text + 2)) as (Hv & _).
  destruct (Hv text) as [He _]; [lia|]. by apply He.
Qed.

(** ** The theorems on exchanges, at a session *)

Lemma cleanup_runs_on_every_exit_witness :
  let st := session (host := JSON.token_numbers) hi_streaming initial in
  let st' := step (host := JSON.token_numbers) (ReadDone 0) st in
  orderly [] hi_streaming
  ∧ exchanges st !! 0%nat = Some {| msg := gpt4_placeholder; phase := AwaitRead |}
  ∧ target (ReadDone 0) = 0%nat
  ∧ leaves (ReadDone 0) AwaitRead = true
  ∧ model gpt4_placeholder = Some gpt4
  ∧ gpt4 ≠ [] ∧ gpt4 ≠ proto
  ∧ isModelLoading st !! gpt4 = Some true
  ∧ isModelLoading st' !! gpt4 = Some false
  ∧ ∃ k p,
      messages st !! k = Some p
      ∧ id p = id gpt4_placeholder
      ∧ exchanges st' !! 0%nat = Some {| msg := gpt4_placeholder; phase := Settled |}
      ∧ (∃ p', messages st' !! k = Some p' ∧ id p' = id gpt4_placeholder
               ∧ loading p' = Some false)
      ∧ (gpt4 ≠ [] → gpt4 ≠ proto →
         cleaned_up k gpt4 st' ∧ isModelLoading st' !! gpt4 = Some (busy gpt4 st'))
      ∧ (gpt4 = [] ∨ gpt4 = proto → isModelLoading st' = isModelLoading st).
Proof.
  intros st st'.
  split; [cbn; split; [constructor|exact I]|].
  split; [vm_compute; reflexivity|].
  split; [reflexivity|]. split; [reflexivity|]. split; [reflexivity|].
  split; [vm_compute; discriminate|]. split; [vm_compute; discriminate|].
  split; [vm_compute; reflexivity|]. split; [vm_compute; reflexivity|].
  apply (cleanup_runs_on_every_exit (host := JSON.token_numbers)
           hi_streaming (ReadDone 0) 0 gpt4_placeholder AwaitRead gpt4);
    [cbn; split; [constructor|exact I] | vm_compute; reflexivity
    | reflexivity | reflexivity | reflexivity].
Defined.

Lemma failed_exchange_marks_only_its_turn_witness :
  orderly [] hi_session
  ∧ exchanges (session (host := JSON.token_numbers) hi_session initial) !! 1%nat
    = Some {| msg := claude3_placeholder; phase := AwaitFetch |}
  ∧ Forall (λ ev, target ev ≠ 1%nat) [FetchResolved 0 200 true; ReadChunk 0 hel_chunk]
  ∧ ok 500 && true = false
  ∧ failure_message 500 = js "Status: 500"
  ∧ ∃ k p',
      messages
        (step (host := JSON.token_numbers) (FetchResolved 1 500 true)
           (run (host := JSON.token_numbers)
              [FetchResolved 0 200 true; ReadChunk 0 hel_chunk]
              (session (host := JSON.token_numbers) hi_session initial))) !! k
      = Some p'
      ∧ id p' = id claude3_placeholder
      ∧ error p' = Some (failure_message 500)
      ∧ loading p' = Some false
      ∧ content p' = []
      ∧ (∀ j, j ≠ k →
           messages
             (step (host := JSON.token_numbers) (FetchResolved 1 500 true)
                (run (host := JSON.token_numbers)
                   [FetchResolved 0 200 true; ReadChunk 0 hel_chunk]
                   (session (host := JSON.token_numbers) hi_session initial))) !! j
           = messages
               (run (host := JSON.token_numbers)
                  [FetchResolved 0 200 true; ReadChunk 0 hel_chunk]
                  (session (host := JSON.token_numbers) hi_session initial)) !! j)
      ∧ length
          (messages
             (step (host := JSON.token_numbers) (FetchResolved 1 500 true)
                (run (host := JSON.token_numbers)
                   [FetchResolved 0 200 true; ReadChunk 0 hel_chunk]
                   (session (host := JSON.token_numbers) hi_session initial))))
        = length
            (messages
               (run (host := JSON.token_numbers)
                  [FetchResolved 0 200 true; ReadChunk 0 hel_chunk]
                  (session (host := JSON.token_numbers) hi_session initial))).
Proof.
  split; [cbn; split; [constructor|exact I]|].
  split; [vm_compute; reflexivity|].
  split; [repeat constructor; vm_compute; discriminate|].
  split; [reflexivity|]. split; [vm_compute; reflexivity|].
  apply (failed_exchange_marks_only_its_turn (host := JSON.token_numbers)
           hi_session 1 claude3_placeholder
           [FetchResolved 0 200 true; ReadChunk 0 hel_chunk] 500 true);
    [cbn; split; [constructor|exact I] | vm_compute; reflexivity
    | repeat constructor; vm_compute; discriminate | reflexivity].
Defined.

Lemma hello_stream_witness :
  orderly [] hi_session
  ∧ exchanges (session (host := JSON.token_numbers) hi_session initial) !! 0%nat
    = Some {| msg := gpt4_placeholder; phase := AwaitFetch |}
  ∧ ok 200 = true
  ∧ Forall (λ ev, target ev ≠ 0%nat) ([] ++ [FetchResolved 1 500 true] ++ [] ++ [] ++ [])
  ∧ ∃ k p',
      messages
        (run (host := JSON.token_numbers)
           ([] ++ FetchResolved 0 200 true
               :: [FetchResolved 1 500 true] ++ ReadChunk 0 hel_chunk
               :: [] ++ ReadChunk 0 lo_chunk
               :: [] ++ ReadChunk 0 done_chunk
               :: [] ++ [ReadDone 0])
           (session (host := JSON.token_numbers) hi_session initial)) !! k = Some p'
      ∧ id p' = id gpt4_placeholder
      ∧ content p' = js "Hello"
      ∧ loading p' = Some false
      ∧ error p' = None
      ∧ exchanges
          (run (host := JSON.token_numbers)
             ([] ++ FetchResolved 0 200 true
                 :: [FetchResolved 1 500 true] ++ ReadChunk 0 hel_chunk
                 :: [] ++ ReadChunk 0 lo_chunk
                 :: [] ++ ReadChunk 0 done_chunk
                 :: [] ++ [ReadDone 0])
             (session (host := JSON.token_numbers) hi_session initial)) !! 0%nat
        = Some {| msg := gpt4_placeholder; phase := Settled |}.
Proof.
  split; [cbn; split; [constructor|exact I]|].
  split; [vm_compute; reflexivity|].
  split; [reflexivity|].
  split; [repeat constructor; vm_compute; discriminate|].
  apply (hello_stream (host := JSON.token_numbers)
           hi_session 0 gpt4_placeholder 200
           [] [FetchResolved 1 500 true] [] [] []);
    [cbn; split; [constructor|exact I] | vm_compute; reflexivity
    | reflexivity | repeat constructor; vm_compute; discriminate].
Defined.
(** * Further properties *)

(** ** Names derived from a model identifier *)

Lemma split_nonempty sep s : Js.split sep s ≠ [].
Proof.
  destruct s as [|c r]; cbn; [done|]. destruct (c =? sep); [done|].
  by destruct (Js.split sep r).
Qed.

Lemma split_no_sep sep s : sep ∉ s → Js.split sep s = [s].
Proof.
  induction s as [|c r IH]; intros H; [done|]. cbn.
  destruct (N.eqb_spec c sep) as [->|Hne]; [exfalso; apply H; by left|].
  rewrite IH; [done|]. intros ?. apply H. by right.
Qed.

(** Splitting distributes over a separator. *)
Lemma split_app_sep sep a b :
  Js.split sep (a ++ sep :: b) = Js.split sep a ++ Js.split sep b.
Proof.
  induction a as [|c a IH]; cbn.
  - by rewrite N.eqb_refl.
  - destruct (c =? sep); [by rewrite IH|]. rewrite IH.
    pose proof (split_nonempty sep a). by destruct (Js.split sep a).
Qed.

Lemma split_singleton sep s x : Js.split sep s = [x] → x = s.
Proof.
  revert x. induction s as [|c r IH]; intros x; cbn; [by intros [= <-]|].
  destruct (c =? sep).
  - intros [= _ H]. by apply split_nonempty in H.
  - destruct (Js.split sep r) as [|y ys] eqn:E;
      [by intros [= <-]; apply split_nonempty in E|].
    intros [= <- ->]. f_equal. by apply IH.
Qed.

Lemma head_split_app sep p rest :
  sep ∉ p → ∃ q, head (Js.split sep (p ++ rest)) = Some (p ++ q).
Proof.
  induction p as [|c p IH]; intros H; cbn [app].
  - pose proof (split_nonempty sep rest).
    destruct (Js.split sep rest) as [|q ?] eqn:E; [done|]. by exists q.
  - cbn. destruct (N.eqb_spec c sep) as [->|Hne]; [exfalso; apply H; by left|].
    destruct IH as (q & Hq); [intros ?; apply H; by right|].
    destruct (Js.split sep (p ++ rest)); [done|]. injection Hq as ->. by exists q.
Qed.

Lemma startsWith_app p q : Js.startsWith p (p ++ q) = true.
Proof. induction p as [|c p IH]; cbn; [done|]. by rewrite N.eqb_refl. Qed.

Lemma startsWith_before k p c v :
  c ∉ k → Js.startsWith k (p ++ c :: v) = true → Js.startsWith k p = true.
Proof.
  revert p. induction k as [|a k IH]; intros p Hc; [done|].
  destruct p as [|b p]; cbn.
  - intros [->%N.eqb_eq _]%andb_true_iff. exfalso. apply Hc. by left.
  - intros [-> H]%andb_true_iff. cbn. apply IH in H; [done|].
    intros ?. apply Hc. by right.
Qed.

Lemma or_else_nonempty a b : b ≠ [] → Js.or_else a b ≠ [].
Proof. unfold Js.or_else. by destruct a. Qed.

Lemma or_else_left a b : a ≠ [] → Js.or_else a b = a.
Proof. unfold Js.or_else. by destruct a. Qed.

(** X1. [getDisplayName], used in the selector and in the placeholder
    of a panel, and [getModelDisplayName], used in the header of a
    panel, give the same name for every identifier. *)
Theorem display_names_agree (modelId : jsstring) :
  getDisplayName modelId = getModelDisplayName modelId.
Proof.
  unfold getDisplayName, getModelDisplayName. case_bool_decide as Hlen; [done|].
  pose proof (split_nonempty slash modelId) as Hne.
  destruct (Js.split slash modelId) as [|x [|y l]] eqn:E; [done| |cbn in Hlen; lia].
  apply split_singleton in E as ->. cbn. unfold Js.or_else. by destruct modelId.
Qed.

(** X2. The display name of an identifier is what follows its last
    slash: the identifier itself when it has no slash, the last segment
    when that is not empty, and the whole identifier, slashes included,
    when it ends in a slash. *)
Theorem display_name_is_the_last_segment (pre name : jsstring) :
  slash ∉ name →
  getDisplayName name = name
  ∧ (name ≠ [] → getDisplayName (pre ++ slash :: name) = name)
  ∧ getDisplayName (pre ++ [slash]) = pre ++ [slash].
Proof.
  intros Hname.
  assert (∀ tail, slash ∉ tail →
            getDisplayName (pre ++ slash :: tail)
            = Js.or_else tail (pre ++ slash :: tail)) as H.
  { intros tail Ht. unfold getDisplayName.
    rewrite split_app_sep, (split_no_sep _ tail) by done.
    rewrite length_app, last_snoc. cbn [length default].
    pose proof (split_nonempty slash pre). destruct (Js.split slash pre); [done|].
    rewrite bool_decide_eq_true_2; [done|]. cbn. lia. }
  split; [|split].
  - unfold getDisplayName. by rewrite split_no_sep.
  - intros Hne. rewrite H by done. by apply or_else_left.
  - rewrite H by apply not_elem_of_nil. done.
Qed.

Lemma display_name_is_the_last_segment_witness :
  (slash ∉ js "gpt-4")
  ∧ getDisplayName (js "gpt-4") = js "gpt-4"
  ∧ (js "gpt-4" ≠ [] → getDisplayName (js "a/b" ++ slash :: js "gpt-4") = js "gpt-4")
  ∧ getDisplayName (js "a/b" ++ [slash]) = js "a/b" ++ [slash].
Proof.
  split; [apply (bool_decide_unpack _); vm_compute; exact I|].
  apply (display_name_is_the_last_segment (js "a/b") (js "gpt-4")).
  apply (bool_decide_unpack _); vm_compute; exact I.
Defined.

Lemma getProvider_base (base modelId : jsstring) :
  head (Js.split slash modelId) = Some base → base ≠ [] →
  getProvider modelId
  = if Js.startsWith (js "gpt-") base then js "openai"
    else if Js.startsWith (js "claude-") base then js "anthropic"
    else Js.or_else (default [] (head (Js.split colon base))) base.
Proof.
  intros Hb Hne. unfold getProvider. rewrite Hb. cbn [default].
  by rewrite (or_else_left base) by done.
Qed.

(** X3. For a name [p] that is not empty, has no slash and no colon and
    does not start with "gpt-" or "claude-", the provider of [p], of [p]
    followed by a slash and anything, and of [p] followed by a colon and
    anything, is [p]. *)
Theorem provider_of_a_prefixed_identifier (p v : jsstring) :
  p ≠ [] → slash ∉ p → colon ∉ p →
  Js.startsWith (js "gpt-") p = false →
  Js.startsWith (js "claude-") p = false →
  getProvider p = p
  ∧ getProvider (p ++ slash :: v) = p
  ∧ getProvider (p ++ colon :: v) = p.
Proof.
  intros Hne Hs Hc Hg Ha.
  assert (∀ base, base = p ∨ (∃ w, base = p ++ colon :: w) →
            (if Js.startsWith (js "gpt-") base then js "openai"
             else if Js.startsWith (js "claude-") base then js "anthropic"
             else Js.or_else (default [] (head (Js.split colon base))) base) = p)
    as Hbase.
  { intros base Hb.
    assert (Js.startsWith (js "gpt-") base = false) as ->.
    { destruct Hb as [->|(w & ->)]; [done|].
      apply not_true_is_false. intros H%startsWith_before; [congruence|].
      apply (bool_decide_unpack _). by vm_compute. }
    assert (Js.startsWith (js "claude-") base = false) as ->.
    { destruct Hb as [->|(w & ->)]; [done|].
      apply not_true_is_false. intros H%startsWith_before; [congruence|].
      apply (bool_decide_unpack _). by vm_compute. }
    assert (head (Js.split colon base) = Some p) as ->.
    { destruct Hb as [->|(w & ->)].
      - by rewrite split_no_sep.
      - rewrite split_app_sep, split_no_sep by done. done. }
    by apply or_else_left. }
  split; [|split].
  - rewrite (getProvider_base p); [|by rewrite split_no_sep|done]. apply Hbase. by left.
  - rewrite (getProvider_base p); [|by rewrite split_app_sep, split_no_sep|done].
    apply Hbase. by left.
  - destruct (head_split_app slash (p ++ [colon]) v) as (q & Hq).
    { rewrite elem_of_app, list_elem_of_singleton. intros [?|?]; done. }
    rewrite <- !app_assoc in Hq. cbn in Hq.
    rewrite (getProvider_base (p ++ colon :: q)); [|done|by destruct p].
    apply Hbase. right. eauto.
Qed.

Lemma provider_of_a_prefixed_identifier_witness :
  js "llama3" ≠ [] ∧ (slash ∉ js "llama3") ∧ (colon ∉ js "llama3")
  ∧ getProvider (js "llama3") = js "llama3"
  ∧ getProvider (js "llama3" ++ slash :: js "8b/q4") = js "llama3"
  ∧ getProvider (js "llama3" ++ colon :: js "8b/q4") = js "llama3".
Proof.
  split; [vm_compute; discriminate|].
  split; [apply (bool_decide_unpack _); vm_compute; exact I|].
  split; [apply (bool_decide_unpack _); vm_compute; exact I|].
  apply (provider_of_a_prefixed_identifier (js "llama3"));
    [vm_compute; discriminate
    | apply (bool_decide_unpack _); vm_compute; exact I
    | apply (bool_decide_unpack _); vm_compute; exact I
    | reflexivity | reflexivity].
Defined.

Lemma provider_of_family k name rest :
  k ≠ [] → slash ∉ k →
  (∀ base, Js.startsWith k base = true →
     (if Js.startsWith (js "gpt-") base then js "openai"
      else if Js.startsWith (js "claude-") base then js "anthropic"
      else Js.or_else (default [] (head (Js.split colon base))) base) = name) →
  getProvider (k ++ rest) = name.
Proof.
  intros Hk Hs Hname. destruct (head_split_app slash k rest Hs) as (q & Hq).
  rewrite (getProvider_base (k ++ q)); [|done|by destruct k].
  apply Hname, startsWith_app.
Qed.

(** X4. An identifier that starts with "gpt-" has the provider
    "openai", one that starts with "claude-" the provider "anthropic",
    whatever follows: a slash, a colon, more names. *)
Theorem provider_of_a_known_family (rest : jsstring) :
  getProvider (js "gpt-" ++ rest) = js "openai"
  ∧ getProvider (js "claude-" ++ rest) = js "anthropic".
Proof.
  split; apply provider_of_family; try done.
  - apply (bool_decide_unpack _). by vm_compute.
  - by intros base ->.
  - apply (bool_decide_unpack _). by vm_compute.
  - intros base Hb. rewrite Hb.
    apply startsWith_split in Hb. rewrite Hb. done.
Qed.

(** X5. The provider is the empty string for the empty identifier
    only: every other identifier, also one that begins with a slash or
    a colon, has a provider that is not empty. *)
Theorem provider_is_empty_only_for_the_empty_identifier (modelId : jsstring) :
  getProvider modelId = [] ↔ modelId = [].
Proof.
  split; [|by intros ->].
  intros H. destruct (decide (modelId = [])) as [|Hne]; [done|]. exfalso.
  revert H. unfold getProvider.
  set (base := Js.or_else _ modelId).
  assert (base ≠ []) as Hb by by apply or_else_nonempty.
  destruct (Js.startsWith (js "gpt-") base); [done|].
  destruct (Js.startsWith (js "claude-") base); [done|].
  by apply or_else_nonempty.
Qed.

(** ** The groups of the model selector *)

Lemma group_model_spec model groups :
  group_model model groups
  = let provider := getProvider (Model.id model) in
    if inherited provider && bool_decide (groups !! provider = None) then JSON.Throw
    else JSON.Normal (<[provider := default [] (groups !! provider) ++ [model]]> groups).
Proof.
  unfold group_model. cbn zeta. destruct (groups !! _) as [l|]; cbn.
  - by rewrite andb_false_r.
  - rewrite andb_true_r. by destruct (inherited _).
Qed.

Lemma groupedModels_snoc avail model :
  groupedModels (avail ++ [model]) = JSON.bind (groupedModels avail) (group_model model).
Proof. unfold groupedModels. by rewrite foldl_app. Qed.

Lemma of_provider_snoc provider avail model :
  of_provider provider (avail ++ [model])
  = of_provider provider avail
    ++ (if decide (getProvider (Model.id model) = provider) then [model] else []).
Proof. unfold of_provider. by rewrite filter_app. Qed.

Lemma groupedModels_ok avail :
  Forall (λ m, inherited (getProvider (Model.id m)) = false) avail →
  ∃ groups, groupedModels avail = JSON.Normal groups ∧ grouping avail groups.
Proof.
  induction avail as [|model avail IH] using rev_ind; intros Hall.
  - exists ∅. split; [done|]. intros provider. by rewrite lookup_empty.
  - apply Forall_app in Hall as [Hall [Hm _]%Forall_cons].
    destruct (IH Hall) as (groups & Hg & Hgr).
    rewrite groupedModels_snoc, Hg. cbn [JSON.bind]. rewrite group_model_spec. cbn zeta.
    rewrite Hm. cbn [andb]. eexists. split; [done|].
    intros provider. rewrite of_provider_snoc.
    destruct (decide (getProvider (Model.id model) = provider)) as [->|Hne].
    + rewrite lookup_insert_eq, Hgr.
      by destruct (of_provider _ avail).
    + rewrite lookup_insert_ne, app_nil_r by done. apply Hgr.
Qed.

(** X6. When no model of the catalog has a provider that is a name of
    [Object.prototype], [groupedModels] returns, under every provider
    that some model has, exactly the models of that provider in the
    order of the catalog, and nothing under any other key: no group is
    empty, and every model is in the group of its provider. *)
Theorem grouped_models_partition_the_catalog (availableModels : list Model.t) :
  Forall (λ m, inherited (getProvider (Model.id m)) = false) availableModels →
  ∃ groups,
    groupedModels availableModels = JSON.Normal groups
    ∧ ∀ provider models,
        groups !! provider = Some models
        ↔ models ≠ []
          ∧ models = filter (λ m, getProvider (Model.id m) = provider) availableModels.
Proof.
  intros Hall. destruct (groupedModels_ok _ Hall) as (groups & Hg & Hgr).
  exists groups. split; [done|]. intros provider models. rewrite Hgr.
  fold (of_provider provider availableModels).
  destruct (of_provider provider availableModels) as [|m l].
  - split; [done|]. by intros [? ->].
  - split; [by intros [= <-]|]. by intros [_ ->].
Qed.

Lemma grouped_models_partition_the_catalog_witness :
  Forall (λ m, inherited (getProvider (Model.id m)) = false) three_models
  ∧ filter (λ m, getProvider (Model.id m) = js "openai") three_models
    = [{| Model.id := gpt4 |}; {| Model.id := js "openai/gpt-3.5" |}]
  ∧ ∃ groups,
      groupedModels three_models = JSON.Normal groups
      ∧ ∀ provider models,
          groups !! provider = Some models
          ↔ models ≠ []
            ∧ models = filter (λ m, getProvider (Model.id m) = provider) three_models.
Proof.
  split; [repeat constructor|]. split; [vm_compute; reflexivity|].
  apply (grouped_models_partition_the_catalog three_models). repeat constructor.
Defined.

(** X7. [groupedModels] throws exactly when some model of the catalog
    has a provider that is a name of [Object.prototype] (a model called
    "constructor/x", or "toString"): what is read under that name is not
    an array. *)
Theorem grouped_models_throw_on_an_inherited_name (availableModels : list Model.t) :
  groupedModels availableModels = JSON.Throw
  ↔ Exists (λ m, inherited (getProvider (Model.id m)) = true) availableModels.
Proof.
  induction availableModels as [|model avail IH] using rev_ind.
  { split; [done|]. by intros ?%Exists_nil. }
  rewrite groupedModels_snoc, Exists_app, Exists_cons, Exists_nil.
  destruct (groupedModels avail) as [groups|] eqn:Hg; cbn [JSON.bind].
  - rewrite group_model_spec. cbn zeta.
    destruct (inherited (getProvider (Model.id model))) eqn:Hm; cbn [andb].
    + split; [by right; left|]. intros _.
      assert (Forall (λ m, inherited (getProvider (Model.id m)) = false) avail) as Hall.
      { apply Forall_forall. intros m Hin. apply not_true_is_false. intros Hm'.
        assert (JSON.Normal groups = JSON.Throw); [|done].
        apply IH, Exists_exists. eauto. }
      destruct (groupedModels_ok avail Hall) as (g' & Hg' & Hgr).
      rewrite Hg in Hg'. injection Hg' as <-. rewrite Hgr.
      destruct (of_provider _ avail) as [|m l] eqn:E; [done|].
      exfalso. assert (m ∈ of_provider (getProvider (Model.id model)) avail) as Hin
        by (rewrite E; by left).
      apply list_elem_of_filter in Hin as [Hp Hin].
      rewrite Forall_forall in Hall. specialize (Hall m Hin). cbn in Hall. congruence.
    + split; [done|]. intros [H|[H|[]]]; [|done]. by apply IH in H.
  - split; [|done]. intros _. left. by apply IH.
Qed.

(** ** What the transport can change *)

Global Instance evolves_preorder : PreOrder evolves.
Proof.
  split.
  - intros m. repeat split; try done; by left.
  - intros a b c (I1 & R1 & M1 & T1 & C1 & L1 & E1) (I2 & R2 & M2 & T2 & C2 & L2 & E2).
    split; [congruence|]. split; [congruence|]. split; [congruence|].
    split; [congruence|]. split; [by etrans|]. split.
    + destruct L2 as [L2|L2]; [|by right]. rewrite L2. done.
    + destruct E2 as [E2|E2]; [|by right]. rewrite E2. done.
Qed.

Lemma evolves_append_delta text m : evolves m (append_delta text m).
Proof. repeat split; try done; [by apply prefix_app_r | by right | by left]. Qed.

Lemma evolves_set_error message m : evolves m (set_error message m).
Proof. repeat split; try done; [by right | right; by eexists]. Qed.

Lemma evolves_clear_loading m : evolves m (clear_loading m).
Proof. repeat split; try done; [by right | by left]. Qed.

Lemma evolves_alter (f : ChatMessage → ChatMessage) (k : nat) ms :
  (∀ m, evolves m (f m)) → Forall2 evolves ms (alter f k ms).
Proof.
  intros Hf. apply Forall2_alter_r; [reflexivity|]. intros x y _ _ H.
  etrans; [exact H|apply Hf].
Qed.

Lemma evolves_update_turn i f st :
  (∀ m, evolves m (f m)) →
  Forall2 evolves (messages st) (messages (update_turn i f st)).
Proof.
  intros Hf. unfold update_turn. destruct (findIndex _ _); [|reflexivity].
  by apply evolves_alter.
Qed.

Lemma same_inputs_refl st : same_inputs st st.
Proof. by repeat split. Qed.

Lemma same_inputs_trans st1 st2 st3 :
  same_inputs st1 st2 → same_inputs st2 st3 → same_inputs st1 st3.
Proof.
  intros (A & B & C & D & E) (A' & B' & C' & D' & E').
  repeat split; congruence.
Qed.

Lemma same_inputs_update_turn i f st : same_inputs st (update_turn i f st).
Proof. unfold update_turn. by destruct (findIndex _ _). Qed.

Lemma update_turn_flags i f st :
  isModelLoading (update_turn i f st) = isModelLoading st.
Proof. unfold update_turn. by destruct (findIndex _ _). Qed.

Lemma same_inputs_finally_block p st : same_inputs st (finally_block p st).
Proof.
  unfold finally_block. pose proof (same_inputs_update_turn (id p) clear_loading st).
  by destruct (set_nonempty _).
Qed.

Lemma evolves_finally_block p st :
  Forall2 evolves (messages st) (messages (finally_block p st)).
Proof.
  unfold finally_block.
  pose proof (evolves_update_turn (id p) clear_loading st evolves_clear_loading).
  by destruct (set_nonempty _).
Qed.

Lemma evolves_catch_block p message st :
  Forall2 evolves (messages st) (messages (catch_block p message st)).
Proof. apply evolves_update_turn, evolves_set_error. Qed.

Lemma streamed_refl st : streamed st st.
Proof.
  split; [done|]. split; [done|]. split; [apply same_inputs_refl|].
  apply Forall_Forall2_diag, Forall_forall. intros m _. split; [reflexivity|done].
Qed.

Lemma streamed_trans st1 st2 st3 : streamed st1 st2 → streamed st2 st3 → streamed st1 st3.
Proof.
  intros (X1 & L1 & I1 & M1) (X2 & L2 & I2 & M2).
  split; [congruence|]. split; [congruence|]. split; [by eapply same_inputs_trans|].
  clear -M1 M2. revert M2. generalize (messages st3).
  induction M1 as [|a b l k [Hab Eab] _ IH]; intros ms3 M2;
    inversion M2 as [|? c ? k' [Hbc Ebc] Hk]; subst; constructor; [|by apply IH].
  split; [by etrans|congruence].
Qed.

Lemma streamed_append_delta i text st : streamed st (update_turn i (append_delta text) st).
Proof.
  split; [|split; [apply update_turn_flags|split; [apply same_inputs_update_turn|]]].
  - unfold update_turn. by destruct (findIndex _ _).
  - unfold update_turn. destruct (findIndex _ _); [|by apply streamed_refl].
    apply Forall2_alter_r.
    + apply Forall_Forall2_diag, Forall_forall. intros m _. split; [reflexivity|done].
    + intros x y _ _ [H E]. split; [|done]. etrans; [exact H|apply evolves_append_delta].
Qed.

Section Transport.
Context {host : JSON.JsNumbers}.

(** The inner [try] of the line loop does nothing, or appends a text to
    the turn of the exchange. *)
Lemma handle_data_cases p data st :
  handle_data p data st = st
  ∨ ∃ text, handle_data p data st = update_turn (id p) (append_delta text) st.
Proof. unfold handle_data. repeat case_match; eauto. Qed.

Lemma streamed_handle_data p data st : streamed st (handle_data p data st).
Proof.
  destruct (handle_data_cases p data st) as [->|(text & ->)];
    [apply streamed_refl | apply streamed_append_delta].
Qed.

Lemma streamed_process_lines p lines st : streamed st (process_lines p lines st).
Proof.
  revert st. induction lines as [|line rest IH]; intros st; [apply streamed_refl|].
  cbn [process_lines]. repeat case_match; try apply streamed_refl; [|apply IH].
  eapply streamed_trans; [apply streamed_handle_data | apply IH].
Qed.

Lemma streamed_on_chunk p chunk st : streamed st (on_chunk p chunk st).
Proof. apply streamed_process_lines. Qed.

(** The kinds of step: nothing; the response has arrived; a chunk is
    processed; the exchange leaves its [try] block, through the [catch]
    block or not. *)
Lemma step_kinds ev st :
  step ev st = st
  ∨ ∃ e,
      exchanges st !! target ev = Some e
      ∧ phase e ≠ Settled
      ∧ (step ev st = set_phase (target ev) AwaitRead st
         ∨ (∃ chunk, step ev st = on_chunk (msg e) chunk st)
         ∨ ∃ mid,
             step ev st = set_phase (target ev) Settled (finally_block (msg e) mid)
             ∧ (mid = st ∨ ∃ message, mid = catch_block (msg e) message st)).
Proof.
  destruct ev as [x message|x status body|x chunk|x|x message]; cbn [step target];
    unfold resume; destruct (exchanges st !! x) as [e|] eqn:Ex; try (by left);
    destruct (phase_eqb _ _) eqn:Eph; try (by left); right; exists e;
    (split; [done|]); (split; [by destruct (phase e)|]).
  - right; right. eexists. split; [done|]. right. eauto.
  - destruct (negb (ok status)); [|destruct (negb body)].
    + right; right. eexists. split; [done|]. right. eauto.
    + right; right. eexists. split; [done|]. right. eauto.
    + by left.
  - right; left. eauto.
  - right; right. exists st. split; [done|]. by left.
  - right; right. eexists. split; [done|]. right. eauto.
Qed.

Lemma step_same_inputs ev st : same_inputs st (step ev st).
Proof.
  destruct (step_kinds ev st) as [->|(e & _ & _ & [->|[(chunk & ->)|(mid & -> & Hmid)]])].
  - apply same_inputs_refl.
  - by repeat split.
  - by destruct (streamed_on_chunk (msg e) chunk st) as (_ & _ & ? & _).
  - assert (same_inputs st mid) as H.
    { destruct Hmid as [->|(message & ->)];
        [apply same_inputs_refl | apply same_inputs_update_turn]. }
    eapply same_inputs_trans; [exact H|].
    eapply same_inputs_trans; [apply same_inputs_finally_block|]. by repeat split.
Qed.

Lemma step_evolves ev st : Forall2 evolves (messages st) (messages (step ev st)).
Proof.
  destruct (step_kinds ev st) as [->|(e & _ & _ & [->|[(chunk & ->)|(mid & -> & Hmid)]])].
  - reflexivity.
  - reflexivity.
  - destruct (streamed_on_chunk (msg e) chunk st) as (_ & _ & _ & H).
    eapply Forall2_impl; [exact H|]. by intros ?? [? _].
  - change (Forall2 evolves (messages st) (messages (finally_block (msg e) mid))).
    etrans; [|apply evolves_finally_block].
    destruct Hmid as [->|(message & ->)]; [reflexivity|apply evolves_catch_block].
Qed.

End Transport.

Lemma keeps_refl st : keeps st st.
Proof. exists (messages st). split; reflexivity. Qed.

Lemma keeps_trans st1 st2 st3 : keeps st1 st2 → keeps st2 st3 → keeps st1 st3.
Proof.
  intros (kept1 & [rest1 P1] & S1) (kept2 & P2 & S2).
  rewrite P1 in S2. apply Forall2_app_inv_l in S2 as (k2a & k2b & Sa & _ & ->).
  exists k2a. split; [|by etrans].
  etrans; [by apply prefix_app_r|done].
Qed.

Lemma keeps_same st st' : messages st' = messages st → keeps st st'.
Proof. intros E. exists (messages st). rewrite E. split; reflexivity. Qed.

(** [sendPrompt] refuses, or dispatches on a store that extends the
    store it found. *)
Lemma sendPrompt_cases a now st :
  (Js.trim (currentPrompt a st) = [] ∨ activeModels a st = []) ∧ sendPrompt a now st = st
  ∨ (Js.trim (currentPrompt a st) ≠ [] ∧ activeModels a st ≠ []
     ∧ ∃ h tm, heap st `prefix_of` h ∧ sendPrompt a now st = dispatched a now h tm st).
Proof.
  destruct (decide (Js.trim (currentPrompt a st) = [])) as [Hp|Hp].
  { left. split; [by left|]. apply sendPrompt_rejects. by left. }
  destruct (decide (activeModels a st = [])) as [Hm|Hm].
  { left. split; [by right|]. apply sendPrompt_rejects. by right. }
  right. split; [done|]. split; [done|]. rewrite sendPrompt_accepts by done.
  destruct (isGlobalFixed a); eexists _, _; (split; [|done]);
    [by apply prefix_app_r|done].
Qed.

Lemma keeps_sendPrompt a now st : keeps st (sendPrompt a now st).
Proof.
  destruct (sendPrompt_cases a now st) as [[_ ->]|(_ & _ & h & tm & _ & ->)];
    [apply keeps_refl|].
  exists (messages st). rewrite dispatched_messages.
  split; [by apply prefix_app_r|reflexivity].
Qed.

Section Evolution.
Context {host : JSON.JsNumbers}.

Lemma keeps_perform act st : keeps st (perform act st).
Proof.
  destruct act as [text|modelId text|modelId|ids|now|modelId now|ev]; cbn [perform].
  - by apply keeps_same.
  - by apply keeps_same.
  - apply keeps_same, toggleModel_messages.
  - apply keeps_same. unfold fetchModels, alloc. by case_match.
  - apply keeps_sendPrompt.
  - destruct (Js.includes _ _); [apply keeps_sendPrompt | apply keeps_refl].
  - exists (messages (step ev st)). split; [done|apply step_evolves].
Qed.

(** X17. Whatever happens to the component (typing, toggling,
    submissions, anything the transport delivers, with ids that collide
    or not), no turn is removed or moved, and every turn keeps its id,
    its role, its model and its [targetModels]; its content is only
    extended at its end, its [loading] never comes back to [true], and
    its error, once set, is never cleared. *)
Theorem turns_only_evolve (acts : list Action) (st : State) :
  ∃ kept,
    kept `prefix_of` messages (session acts st)
    ∧ Forall2 evolves (messages st) kept.
Proof.
  revert st. induction acts as [|act acts IH]; intros st; [apply keeps_refl|].
  cbn [session foldl]. eapply keeps_trans; [apply keeps_perform | apply IH].
Qed.

(** X18. Nothing the transport delivers changes what the user typed in
    the global prompt or in a panel, the selection or an array of
    identifiers, and none begins a network call. *)
Theorem transport_leaves_the_inputs (evs : list Event) (st : State) :
  let st' := run evs st in
  prompt st' = prompt st
  ∧ modelPrompts st' = modelPrompts st
  ∧ selectedModels st' = selectedModels st
  ∧ heap st' = heap st
  ∧ effects st' = effects st.
Proof.
  revert st. induction evs as [|ev evs IH]; intros st; [done|].
  cbn zeta. rewrite run_cons.
  destruct (step_same_inputs ev st) as (A & B & C & D & E).
  destruct (IH (step ev st)) as (A' & B' & C' & D' & E').
  repeat split; congruence.
Qed.

(** X19. A step of an exchange leaves every turn whose id is not the id
    of its placeholder as it is, whatever the event: a response, a
    chunk, the end of the stream, a failure. The log keeps its length,
    and the other exchanges stay where they are suspended. *)
Theorem an_exchange_touches_only_its_turn
    (ev : Event) (st : State) (e : Exchange) (j : nat) (m : ChatMessage) :
  exchanges st !! target ev = Some e →
  messages st !! j = Some m →
  id m ≠ id (msg e) →
  messages (step ev st) !! j = Some m
  ∧ length (messages (step ev st)) = length (messages st)
  ∧ ∀ y, y ≠ target ev → exchanges (step ev st) !! y = exchanges st !! y.
Proof.
  intros Hx Hj Hne.
  destruct (step_frame ev st) as [->|(e' & st' & ph & He' & (E & _ & I & F & _) & Hs)];
    [done|].
  rewrite Hx in He'. injection He' as <-.
  assert (messages (step ev st) = messages st' ∧
          ∀ y, y ≠ target ev → exchanges (step ev st) !! y = exchanges st' !! y)
    as [-> Hy].
  { destruct Hs as [->| ->]; [done|]. split; [done|]. intros y Hy.
    by apply set_phase_lookup_ne. }
  split; [by apply F|]. split.
  - apply (f_equal length) in I. by rewrite !length_fmap in I.
  - intros y Hne'. rewrite Hy by done. by rewrite E.
Qed.

(** X20. No chunk, whatever it contains (text that is not JSON, JSON
    of another shape, the sentinel), makes the exchange fail or end: the
    exchanges and the busy flags are as before the step, and no turn
    has its error changed; a turn changes at most as [evolves] tells. *)
Theorem no_chunk_fails_an_exchange (x : nat) (chunk : jsstring) (st : State) :
  let st' := step (ReadChunk x chunk) st in
  exchanges st' = exchanges st
  ∧ isModelLoading st' = isModelLoading st
  ∧ Forall2 (λ m m', evolves m m' ∧ error m' = error m) (messages st) (messages st').
Proof.
  cbn zeta. cbn [step]. unfold resume.
  destruct (exchanges st !! x) as [e|]; [|by destruct (streamed_refl st) as (?&?&?&?)].
  destruct (phase_eqb _ _); [|by destruct (streamed_refl st) as (?&?&?&?)].
  by destruct (streamed_on_chunk (msg e) chunk st) as (?&?&?&?).
Qed.

(** X21. The payload of a data line that is not JSON, or that is an
    object without [choices] (what the proxy sends for an error inside
    the stream), or whose [choices] is empty, is ignored: the exception,
    if any, is swallowed and the state is unchanged. *)
Theorem payload_without_a_delta_is_ignored
    (m0 : ChatMessage) (data : jsstring) (st : State) :
  JSON.parse data = None
  ∨ (∃ members, JSON.parse data = Some (JSON.Object members)
                ∧ (JSON.own (js "choices") members = None
                   ∨ JSON.own (js "choices") members = Some (JSON.Array []))) →
  handle_data m0 data st = st.
Proof.
  unfold handle_data. intros [->|(members & -> & [H|H])]; [done|..];
    unfold JSON.delta_content; cbn [JSON.get JSON.bind]; by rewrite H.
Qed.

End Evolution.

Lemma an_exchange_touches_only_its_turn_witness :
  exchanges streaming_hi !! target (ReadChunk 0 hel_chunk)
  = Some {| msg := gpt4_placeholder; phase := AwaitRead |}
  ∧ messages streaming_hi !! 2%nat = Some claude3_placeholder
  ∧ id claude3_placeholder ≠ id gpt4_placeholder
  ∧ content <$> messages (step (host := JSON.token_numbers)
                            (ReadChunk 0 hel_chunk) streaming_hi) !! 1%nat
    = Some (js "Hel")
  ∧ messages (step (host := JSON.token_numbers) (ReadChunk 0 hel_chunk) streaming_hi)
      !! 2%nat = Some claude3_placeholder
  ∧ length (messages (step (host := JSON.token_numbers)
                        (ReadChunk 0 hel_chunk) streaming_hi))
    = length (messages streaming_hi)
  ∧ ∀ y, y ≠ target (ReadChunk 0 hel_chunk) →
      exchanges (step (host := JSON.token_numbers) (ReadChunk 0 hel_chunk) streaming_hi)
        !! y
      = exchanges streaming_hi !! y.
Proof.
  split; [vm_compute; reflexivity|]. split; [vm_compute; reflexivity|].
  split; [vm_compute; discriminate|]. split; [vm_compute; reflexivity|].
  apply (an_exchange_touches_only_its_turn (host := JSON.token_numbers)
           (ReadChunk 0 hel_chunk) streaming_hi
           {| msg := gpt4_placeholder; phase := AwaitRead |} 2 claude3_placeholder);
    [vm_compute; reflexivity | vm_compute; reflexivity | vm_compute; discriminate].
Defined.

Lemma payload_without_a_delta_is_ignored_witness :
  JSON.parse error_payload
  = Some (JSON.Object
            [(js "error", JSON.Object [(js "message", JSON.String (js "boom"))])])
  ∧ handle_data (host := JSON.token_numbers) gpt4_placeholder error_payload streaming_hi
    = streaming_hi.
Proof.
  split; [vm_compute; reflexivity|].
  apply (payload_without_a_delta_is_ignored (host := JSON.token_numbers)
           gpt4_placeholder error_payload streaming_hi).
  right. eexists. split; [vm_compute; reflexivity|]. left. vm_compute. reflexivity.
Defined.

(** ** Selection and dispatch *)

Lemma deref_alloc arr h : deref (alloc arr h).1 (alloc arr h).2 = arr.
Proof. unfold deref, alloc. cbn. by rewrite lookup_app_r, Nat.sub_diag by lia. Qed.

Lemma filter_neq (M : jsstring) (l : list jsstring) :
  List.filter (λ m, negb (Js.eqb m M)) l = filter (λ m, m ≠ M) l.
Proof.
  apply filter_reflect. intros m. unfold Js.eqb.
  rewrite negb_true_iff, bool_decide_eq_false. done.
Qed.

Lemma toggleModel_selected M st :
  selected (toggleModel M st)
  = if decide (M ∈ selected st) then filter (λ m, m ≠ M) (selected st)
    else selected st ++ [M].
Proof.
  unfold selected, toggleModel.
  pose proof (deref_alloc (deref (heap st) (selectedModels st)) (heap st)) as Hc.
  destruct (alloc (deref (heap st) (selectedModels st)) (heap st)) as [h1 current].
  cbn [fst snd] in Hc. rewrite Hc. unfold Js.includes.
  destruct (decide (M ∈ deref (heap st) (selectedModels st))) as [Hin|Hout].
  - rewrite bool_decide_eq_true_2 by done.
    pose proof (deref_alloc (List.filter (λ m, negb (Js.eqb m M))
                               (deref (heap st) (selectedModels st))) h1) as Hn.
    destruct (alloc _ h1) as [h2 r]. cbn [fst snd] in Hn. cbn. by rewrite Hn, filter_neq.
  - rewrite bool_decide_eq_false_2 by done.
    pose proof (deref_alloc (deref (heap st) (selectedModels st) ++ [M]) h1) as Hn.
    destruct (alloc _ h1) as [h2 r]. cbn [fst snd] in Hn. cbn. by rewrite Hn.
Qed.

Lemma filter_neq_id (M : jsstring) (l : list jsstring) :
  M ∉ l → filter (λ m, m ≠ M) l = l.
Proof.
  induction l as [|x l IH]; intros H; [done|].
  rewrite filter_cons. destruct (decide (x ≠ M)) as [Hne|Heq].
  - f_equal. apply IH. intros ?. apply H. by right.
  - exfalso. apply Heq. intros ->. apply H. by left.
Qed.

(** X8. Toggling a model twice brings back the same selection, except
    for its place: a model that was selected ends up last, where
    [toggleModel] re-adds it; a model that was not selected is gone
    again and the others keep their order. *)
Theorem toggle_twice (M : jsstring) (st : State) :
  selected (toggleModel M (toggleModel M st))
  = if decide (M ∈ selected st) then filter (λ m, m ≠ M) (selected st) ++ [M]
    else selected st.
Proof.
  rewrite !toggleModel_selected.
  destruct (decide (M ∈ selected st)) as [Hin|Hout].
  - rewrite decide_False; [done|]. rewrite list_elem_of_filter. by intros [? _].
  - rewrite decide_True by (apply elem_of_app; right; by left).
    rewrite filter_app, filter_neq_id by done.
    rewrite filter_cons, decide_False by (intros H; by apply H). by rewrite app_nil_r.
Qed.

Lemma dispatched_prompt a now h tm st :
  prompt (dispatched a now h tm st) = if isGlobalFixed a then [] else prompt st.
Proof.
  unfold dispatched. rewrite foldl_launch, foldl_push. by destruct (isGlobalFixed a).
Qed.

Lemma dispatched_modelPrompts a now h tm st :
  modelPrompts (dispatched a now h tm st)
  = if isGlobalFixed a then modelPrompts st
    else assign (default [] (resolvedTargetId a)) [] (modelPrompts st).
Proof.
  unfold dispatched. rewrite foldl_launch, foldl_push. by destruct (isGlobalFixed a).
Qed.

Lemma dispatched_selectedModels a now h tm st :
  selectedModels (dispatched a now h tm st) = selectedModels st.
Proof.
  unfold dispatched. rewrite foldl_launch, foldl_push. by destruct (isGlobalFixed a).
Qed.

Lemma dispatched_isModelLoading a now h tm st :
  isModelLoading (dispatched a now h tm st)
  = foldl (λ l m, if Js.truthy m then assign m true l else l)
          (isModelLoading st) (activeModels a st).
Proof.
  unfold dispatched. rewrite foldl_launch, foldl_push. by destruct (isGlobalFixed a).
Qed.

Lemma mark_loading_lookup (models : list jsstring) (l : gmap jsstring bool) (M : jsstring) :
  foldl (λ l m, if Js.truthy m then assign m true l else l) l models !! M
  = if decide (M ∈ models ∧ M ≠ [] ∧ M ≠ proto) then Some true else l !! M.
Proof.
  revert l. induction models as [|m models IH]; intros l; cbn [foldl].
  - rewrite decide_False; [done|]. intros [?%not_elem_of_nil _]. done.
  - rewrite IH.
    destruct (decide (M ∈ models ∧ M ≠ [] ∧ M ≠ proto)) as [(Hin & Hne & Hp)|Hout].
    + rewrite decide_True; [done|]. split; [by right|done].
    + destruct (decide (m = M)) as [->|Hm].
      * destruct M as [|c M]; cbn [Js.truthy].
        -- rewrite decide_False; [done|]. by intros (_ & ? & _).
        -- rewrite lookup_assign.
           destruct (decide (c :: M = proto)) as [Hp|Hp].
           ++ rewrite !decide_False; [done|by intros (_ & _ & ?)|by intros [_ ?]].
           ++ rewrite !decide_True; [done|by split; [left|]|done].
      * assert ((if Js.truthy m then assign m true l else l) !! M = l !! M) as ->.
        { destruct (Js.truthy m); [|done]. rewrite lookup_assign.
          rewrite decide_False; [done|]. by intros [? _]. }
        rewrite decide_False; [done|]. intros ([?|?]%elem_of_cons & ?); [done|].
        by apply Hout.
Qed.

Lemma currentPrompt_dispatched a now h tm st :
  currentPrompt a (dispatched a now h tm st) = [].
Proof.
  unfold currentPrompt. rewrite dispatched_prompt, dispatched_modelPrompts.
  destruct (isGlobalFixed a); [done|]. case_bool_decide as Hproto; [done|].
  rewrite lookup_assign, decide_True; [done|]. split; [done|].
  intros E. apply Hproto. by destruct (resolvedTargetId a) as [s|]; [rewrite <- E|].
Qed.

(** X10. [sendPrompt] leaves the state as it is exactly when the prompt
    it would send is blank or it has no model to send it to; in every
    other case the state changes. *)
Theorem dispatch_is_refused_exactly_on_a_blank_prompt_or_no_target
    (a : Arg) (now : nat → N) (st : State) :
  sendPrompt a now st = st
  ↔ Js.trim (currentPrompt a st) = [] ∨ activeModels a st = [].
Proof.
  split; [|apply sendPrompt_rejects].
  intros Hst. destruct (sendPrompt_cases a now st) as [[H _]|(Hp & Hm & h & tm & _ & E)];
    [done|].
  exfalso. rewrite E in Hst. apply (f_equal (λ s, length (messages s))) in Hst.
  rewrite dispatched_messages, length_app in Hst. cbn in Hst. lia.
Qed.

(** X11. A second submission right after a submission does nothing,
    whatever the clock: the first one either was refused, and so is the
    second, or it has emptied the prompt. *)
Theorem submitting_twice_dispatches_once
    (a : Arg) (now now' : nat → N) (st : State) :
  sendPrompt a now' (sendPrompt a now st) = sendPrompt a now st.
Proof.
  apply sendPrompt_rejects.
  destruct (sendPrompt_cases a now st) as [[H ->]|(_ & _ & h & tm & _ & ->)]; [done|].
  left. by rewrite currentPrompt_dispatched.
Qed.

(** X12. A dispatch keeps the selection and empties the prompt it sent;
    a global dispatch leaves all the panels' prompts, a panel's dispatch
    leaves the global prompt and the other panels' prompts. After it
    the busy models are its targets (the empty identifier apart) and
    those that were busy before. *)
Theorem dispatch_clears_its_prompt_and_marks_its_targets
    (a : Arg) (now : nat → N) (st : State) :
  Js.trim (currentPrompt a st) ≠ [] →
  activeModels a st ≠ [] →
  let st' := sendPrompt a now st in
  selected st' = selected st
  ∧ currentPrompt a st' = []
  ∧ (if isGlobalFixed a then modelPrompts st' = modelPrompts st
     else prompt st' = prompt st
          ∧ ∀ M, Some M ≠ resolvedTargetId a → modelPrompts st' !! M = modelPrompts st !! M)
  ∧ ∀ M, busy M st' = bool_decide (M ∈ activeModels a st ∧ M ≠ []) || busy M st.
Proof.
  intros Hp Hm st'.
  assert (∃ h tm, heap st `prefix_of` h ∧ st' = dispatched a now h tm st
                  ∧ (isGlobalFixed a = false → h = heap st))
    as (h & tm & Hh & -> & Hpanel).
  { unfold st'. rewrite sendPrompt_accepts by done.
    destruct (isGlobalFixed a); eexists _, _; (split; [|split; [done|]]);
      [by apply prefix_app_r|done|done|done]. }
  split; [|split; [|split]].
  - unfold selected. rewrite dispatched_selectedModels, dispatched_heap.
    destruct (isGlobalFixed a) eqn:Hg; [|by rewrite Hpanel].
    apply deref_prefix; [done|]. apply deref_nonempty.
    unfold activeModels in Hm. by rewrite Hg in Hm.
  - apply currentPrompt_dispatched.
  - rewrite dispatched_prompt, dispatched_modelPrompts.
    destruct (isGlobalFixed a) eqn:Hg; [done|]. split; [done|].
    intros M HM. rewrite lookup_assign, decide_False; [done|].
    intros [-> _]. apply HM. unfold isGlobalFixed in Hg.
    destruct (resolvedTargetId a); [done|]. done.
  - intros M. unfold busy. case_bool_decide as Hproto; [by rewrite orb_true_r|].
    rewrite dispatched_isModelLoading, mark_loading_lookup.
    destruct (decide (M ∈ activeModels a st ∧ M ≠ [] ∧ M ≠ proto)) as [(? & ? & _)|H].
    + by rewrite bool_decide_eq_true_2.
    + rewrite bool_decide_eq_false_2; [done|]. intros [? ?]. by apply H.
Qed.

(** X13. When the submit button of the global prompt is enabled,
    [handleSubmit] dispatches: it appends a user turn with the prompt
    and one placeholder for each selected model, in the order of the
    selection, and empties the prompt. *)
Theorem enabled_global_submit_dispatches (now : nat → N) (st : State) :
  globalSubmitDisabled st = false →
  ∃ u ps,
    messages (handleSubmit now st) = messages st ++ u :: ps
    ∧ role u = user
    ∧ content u = prompt st
    ∧ model u = None
    ∧ model <$> ps = Some <$> selected st
    ∧ selected st ≠ []
    ∧ prompt (handleSubmit now st) = [].
Proof.
  unfold globalSubmitDisabled.
  intros [[Hp%negb_false_iff%truthy_trim Hs%bool_decide_eq_false]%orb_false_iff _]%orb_false_iff.
  assert (selected st ≠ []) as Hne by (by intros E; rewrite E in Hs).
  unfold handleSubmit. rewrite sendPrompt_accepts by done. cbn [isGlobalFixed resolvedTargetId set_nonempty negb].
  eexists _, _. split; [apply dispatched_messages|].
  split; [done|]. split; [done|]. split; [done|]. split; [|split; [done|]].
  - apply list_eq. intros i. rewrite !list_lookup_fmap, assistantMessages_lookup.
    unfold activeModels, selected. cbn. by destruct (_ !! i).
  - by rewrite dispatched_prompt.
Qed.

(** X14. When the submit button of the panel of a model whose
    identifier is not the empty string is enabled, [sendPrompt] with the
    id of the model dispatches the text of the panel to that model
    alone: a user turn for that model and its placeholder are appended,
    the text of the panel is emptied and the model is busy. *)
Theorem enabled_panel_submit_dispatches (M : jsstring) (now : nat → N) (st : State) :
  panelSubmitDisabled M st = JSON.Normal false →
  M ≠ [] →
  ∃ text u p,
    modelPrompts st !! M = Some text
    ∧ messages (sendPrompt (IdArg M) now st) = messages st ++ [u; p]
    ∧ role u = user ∧ content u = text ∧ model u = Some M ∧ targetModels u = None
    ∧ role p = assistant ∧ model p = Some M ∧ loading p = Some true
    ∧ modelPrompts (sendPrompt (IdArg M) now st) !! M = Some []
    ∧ busy M (sendPrompt (IdArg M) now st) = true.
Proof.
  unfold panelSubmitDisabled. intros Hd HM.
  case_bool_decide as Hproto; [done|].
  destruct (modelPrompts st !! M) as [text|] eqn:Etext; [|by destruct (inherited M)].
  injection Hd as [Hp%negb_false_iff _]%orb_false_iff.
  assert (isGlobalFixed (IdArg M) = false) as Hg by by destruct M.
  assert (text ≠ []) as Htext by (intros ->; done).
  assert (currentPrompt (IdArg M) st = text) as Hcur.
  { unfold currentPrompt. rewrite Hg. cbn [resolvedTargetId].
    rewrite bool_decide_eq_false_2 by (by intros [= ->]).
    change (default [] (Some M)) with M. rewrite Etext.
    change (default [] (Some text)) with text. by apply or_else_left. }
  assert (activeModels (IdArg M) st = [M]) as Hact.
  { unfold activeModels. by rewrite Hg. }
  rewrite sendPrompt_accepts; [|rewrite Hcur; by apply truthy_trim|by rewrite Hact].
  rewrite Hg. exists text. eexists _, _. split; [done|].
  split; [rewrite dispatched_messages, Hact; reflexivity|].
  cbn. rewrite Hcur. repeat (split; [done|]).
  rewrite dispatched_modelPrompts, Hg.
  change (default [] (resolvedTargetId (IdArg M))) with M.
  rewrite lookup_assign, decide_True by done. split; [done|].
  unfold busy. rewrite bool_decide_eq_false_2 by done.
  rewrite dispatched_isModelLoading, mark_loading_lookup, Hact.
  rewrite decide_True; [done|]. split; [by left|done].
Qed.

Lemma allocated_grow st st' :
  heap st `prefix_of` heap st' →
  (selectedModels st' < length (heap st'))%nat →
  messages st' = messages st →
  allocated st → allocated st'.
Proof.
  intros Hh Hs Hm [_ Ha]. split; [done|]. rewrite Hm.
  eapply Forall_impl; [exact Ha|]. intros m Hr r Hr'.
  apply prefix_length in Hh. specialize (Hr r Hr'). lia.
Qed.

Lemma allocated_toggleModel M st : allocated st → allocated (toggleModel M st).
Proof.
  apply allocated_grow; [apply toggleModel_heap| |apply toggleModel_messages].
  unfold toggleModel, alloc. case_match; cbn; rewrite !length_app; cbn; lia.
Qed.

Lemma allocated_fetchModels ids st : allocated st → allocated (fetchModels ids st).
Proof.
  intros Ha. unfold fetchModels, alloc. case_bool_decide; [|done].
  revert Ha. apply allocated_grow; cbn; [by apply prefix_app_r| |done].
  rewrite length_app. cbn. lia.
Qed.

Lemma allocated_sendPrompt a now st : allocated st → allocated (sendPrompt a now st).
Proof.
  intros [Hs Ha].
  destruct (decide (Js.trim (currentPrompt a st) = [])) as [Hp|Hp].
  { by rewrite sendPrompt_rejects by by left. }
  destruct (decide (activeModels a st = [])) as [Hm|Hm].
  { by rewrite sendPrompt_rejects by by right. }
  rewrite sendPrompt_accepts by done.
  assert (∀ h tm, heap st `prefix_of` h →
            (∀ r, tm = Some r → (r < length h)%nat) →
            allocated (dispatched a now h tm st)) as Hd.
  { intros h tm Hh Htm. pose proof (prefix_length _ _ Hh) as Hlen. split.
    - rewrite dispatched_selectedModels, dispatched_heap. lia.
    - rewrite dispatched_messages, dispatched_heap.
      apply Forall_app. split; [|apply Forall_cons; split; [done|]].
      + eapply Forall_impl; [exact Ha|]. intros m Hr r Hr'. specialize (Hr r Hr'). lia.
      + apply Forall_lookup. intros i q. rewrite assistantMessages_lookup.
        destruct (activeModels a st !! i); [|done]. by intros [= <-]. }
  destruct (isGlobalFixed a); apply Hd; [by apply prefix_app_r| |done|done].
  intros r [= <-]. rewrite length_app. cbn. lia.
Qed.

Lemma selected_sendPrompt a now st :
  (selectedModels st < length (heap st))%nat →
  selected (sendPrompt a now st) = selected st.
Proof.
  intros Hs. destruct (sendPrompt_cases a now st) as [[_ ->]|(_ & _ & h & tm & Hh & ->)];
    [done|].
  unfold selected. rewrite dispatched_selectedModels, dispatched_heap.
  by apply deref_prefix.
Qed.

Lemma fetchModels_selected ids st :
  selected (fetchModels ids st) = if decide (selected st = []) then ids else selected st.
Proof.
  unfold fetchModels, selected. destruct (decide _) as [E|E].
  - rewrite bool_decide_eq_true_2 by by rewrite E.
    apply (deref_alloc ids (heap st)).
  - rewrite bool_decide_eq_false_2; [done|]. by intros ?%nil_length_inv.
Qed.

Section Allocation.
Context {host : JSON.JsNumbers}.

Lemma allocated_step ev st : allocated st → allocated (step ev st).
Proof.
  intros [Hs Ha]. destruct (step_same_inputs ev st) as (_ & _ & Es & Eh & _).
  split; [by rewrite Es, Eh|]. rewrite Eh.
  apply Forall_lookup. intros k m' Hk'.
  destruct (Forall2_lookup_r _ _ _ _ _ (step_evolves ev st) Hk')
    as (m & Hk & (_ & _ & _ & Et & _)).
  rewrite Forall_lookup in Ha. rewrite Et. by apply (Ha k).
Qed.

Lemma allocated_perform act st : allocated st → allocated (perform act st).
Proof.
  destruct act as [text|modelId text|modelId|ids|now|modelId now|ev]; cbn [perform].
  - done.
  - done.
  - apply allocated_toggleModel.
  - apply allocated_fetchModels.
  - apply allocated_sendPrompt.
  - destruct (Js.includes _ _); [apply allocated_sendPrompt | done].
  - apply allocated_step.
Qed.

Lemma allocated_session acts st : allocated st → allocated (session acts st).
Proof.
  revert st. induction acts as [|act acts IH]; intros st Ha; [done|].
  cbn [session foldl]. by apply IH, allocated_perform.
Qed.

Lemma allocated_initial : allocated initial.
Proof. split; [cbn; lia|constructor]. Qed.

Lemma selection_session acts st :
  catalogs_without_duplicates acts →
  allocated st → NoDup (selected st) → NoDup (selected (session acts st)).
Proof.
  revert st. induction acts as [|act acts IH]; intros st Hc Ha Hnd; [done|].
  apply Forall_cons in Hc as [Hact Hc].
  cbn [session foldl]. apply IH; [done|by apply allocated_perform|].
  destruct act as [text|modelId text|modelId|ids|now|modelId now|ev]; cbn [perform].
  - done.
  - done.
  - rewrite toggleModel_selected. destruct (decide _) as [Hin|Hout].
    + by apply NoDup_filter.
    + apply NoDup_app. split; [done|]. split; [|apply NoDup_singleton].
      intros x Hx ->%list_elem_of_singleton. done.
  - rewrite fetchModels_selected. by destruct (decide _).
  - rewrite selected_sendPrompt; [done|by destruct Ha].
  - destruct (Js.includes _ _); [|done].
    rewrite selected_sendPrompt; [done|by destruct Ha].
  - destruct (step_same_inputs ev st) as (_ & _ & Es & Eh & _).
    unfold selected. by rewrite Es, Eh.
Qed.

(** X9. Whatever the user and the transport do from the initial state,
    no model is selected twice, provided the list the catalog delivers
    has no duplicates. *)
Theorem selection_has_no_duplicates (acts : list Action) :
  catalogs_without_duplicates acts →
  NoDup (selected (session acts initial)).
Proof.
  intros Hc. apply selection_session; [done|apply allocated_initial|].
  cbn. apply NoDup_nil_2.
Qed.

(** The part of an orderly session that is still to come is orderly
    after the part that has happened. *)
Lemma session_well_formed_rest acts rest cs st :
  orderly cs (acts ++ rest) → well_formed cs st →
  ∃ cs', well_formed cs' (session acts st) ∧ orderly cs' rest.
Proof.
  revert cs st. induction acts as [|act acts IH]; intros cs st Ho Hwf; [by exists cs|].
  cbn [session foldl].
  destruct act as [text|modelId text|modelId|ids|now|modelId now|ev];
    cbn [perform orderly app] in *.
  - apply (IH cs); [done|]. by apply (well_formed_unchanged cs st).
  - apply (IH cs); [done|]. by apply (well_formed_unchanged cs st).
  - apply (IH cs); [done|]. by apply well_formed_toggleModel.
  - apply (IH cs); [done|]. by apply well_formed_fetchModels.
  - destruct Ho as (Hsep & Ho). apply (IH (now :: cs)); [done|].
    by apply well_formed_sendPrompt.
  - destruct Ho as (Hsep & Ho). apply (IH (now :: cs)); [done|].
    destruct (Js.includes _ _); [by apply well_formed_sendPrompt|].
    by apply well_formed_weaken.
  - apply (IH cs); [done|]. by apply well_formed_step.
Qed.

End Allocation.

Lemma filter_none {A} (f : A → bool) (l : list A) :
  (∀ x, x ∈ l → f x = false) → List.filter f l = [].
Proof.
  induction l as [|x l IH]; intros H; [done|]. cbn.
  rewrite (H x) by by left. apply IH. intros y Hy. apply H. by right.
Qed.

Lemma filter_same {A} (f g : A → bool) (l : list A) :
  (∀ x, x ∈ l → f x = g x) → List.filter f l = List.filter g l.
Proof.
  intros H. apply List.filter_ext_in. intros x Hx. apply H. by apply list_elem_of_In.
Qed.

(** The history of the request of a placeholder of a dispatch whose ids
    are new. *)
Lemma history_dispatched a now h tm st i M :
  let p := placeholder (now (S i)) i M in
  let u := userMessage a (now 0%nat) tm st in
  activeModels a st !! i = Some M →
  NoDup (activeModels a st) →
  (∀ m, m ∈ messages st → id m ∉ new_ids now (activeModels a st)) →
  (∀ m, m ∈ messages st → sent_for h p m = shown_for (heap st) M m ∨ id m = id p) →
  sent_for h p u = true →
  history p (dispatched a now h tm st)
  = (wire <$> getHistoryForModelDisplay M st) ++ [(user, currentPrompt a st)].
Proof.
  intros p u Hi Hnd Hfresh Hold Hu.
  assert (id p ∈ new_ids now (activeModels a st)) as Hp.
  { unfold new_ids. right. apply list_elem_of_fmap. exists p. split; [done|].
    apply (list_elem_of_lookup_2 _ i). by rewrite assistantMessages_lookup, Hi. }
  unfold history. rewrite dispatched_messages, dispatched_heap.
  rewrite List.filter_app. cbn [List.filter]. fold u. rewrite Hu.
  rewrite (filter_none _ (assistantMessages _ _)), fmap_app.
  - f_equal. unfold getHistoryForModelDisplay. f_equal. apply filter_same.
    intros m Hm. destruct (Hold m Hm) as [?|E]; [done|].
    exfalso. apply (Hfresh m Hm). by rewrite E.
  - intros q (j & Hj)%list_elem_of_lookup_1. rewrite assistantMessages_lookup in Hj.
    destruct (activeModels a st !! j) as [Mj|] eqn:Ej; [|done]. injection Hj as <-.
    unfold sent_for. case_bool_decide as Hid; [done|]. cbn.
    apply bool_decide_eq_false. intros [= ->]. apply Hid.
    by rewrite (NoDup_lookup _ _ _ _ Hnd Ej Hi).
Qed.

Section History.
Context {host : JSON.JsNumbers}.

(** X15. The request a dispatch to pairwise distinct targets sends for
    its target [M], after any orderly session, carries the identifier of
    [M], [stream: true], and as messages the role and content of exactly
    the turns the panel of [M] showed before the dispatch, in their
    order, followed by the prompt as a user message; and that call is
    among the effects. *)
Theorem request_carries_the_panel_and_the_prompt
    (acts : list Action) (a : Arg) (now : nat → N) (i : nat) (M : jsstring) :
  let st := session acts initial in
  let st' := sendPrompt a now st in
  orderly [] (acts ++ [Submit now]) →
  Js.trim (currentPrompt a st) ≠ [] →
  NoDup (activeModels a st) →
  activeModels a st !! i = Some M →
  let request :=
    {| req_model := Some M;
       req_messages :=
         (wire <$> getHistoryForModelDisplay M st) ++ [(user, currentPrompt a st)];
       req_stream := true |} in
  request_for st' (placeholder (now (S i)) i M) = request
  ∧ Fetch request ∈ effects st'.
Proof.
  intros st st' Ho Hp Hnd Hi request.
  assert (activeModels a st ≠ []) as Hm by (intros E; by rewrite E in Hi).
  destruct (session_well_formed_rest acts [Submit now] [] initial Ho initial_well_formed)
    as (cs & (_ & Hst & _) & Hsep & _). fold st in Hst.
  pose proof (allocated_session acts initial allocated_initial) as [Hsel Hall].
  fold st in Hsel, Hall. rewrite Forall_forall in Hall.
  assert (∀ m, m ∈ messages st → id m ∉ new_ids now (activeModels a st)) as Hfresh.
  { intros m Hin. apply stamped_fresh with cs; [done|].
    rewrite Forall_forall in Hst. apply Hst. by apply list_elem_of_fmap_2. }
  assert (∃ h tm, st' = dispatched a now h tm st
                  ∧ heap st `prefix_of` h
                  ∧ sent_for h (placeholder (now (S i)) i M)
                      (userMessage a (now 0%nat) tm st) = true)
    as (h & tm & -> & Hh & Hu).
  { unfold st'. rewrite sendPrompt_accepts by done.
    destruct (isGlobalFixed a) eqn:Hg; eexists _, _; (split; [done|]).
    - split; [by apply prefix_app_r|]. unfold sent_for. cbn.
      rewrite bool_decide_eq_false_2.
      + unfold isGlobalFixed in Hg. apply negb_true_iff in Hg. rewrite Hg.
        unfold Js.includes. apply bool_decide_eq_true. unfold deref.
        rewrite lookup_app_r, Nat.sub_diag by lia. cbn.
        unfold activeModels, isGlobalFixed in Hi. rewrite Hg in Hi. cbn in Hi.
        by eapply list_elem_of_lookup_2.
      + intros E. apply (of_N_no_dash (now 0%nat)). rewrite E.
        apply elem_of_app. right. by left.
    - split; [done|]. unfold sent_for. cbn.
      rewrite bool_decide_eq_false_2.
      + unfold isGlobalFixed in Hg. apply negb_false_iff in Hg. rewrite Hg.
        apply bool_decide_eq_true.
        unfold activeModels, isGlobalFixed in Hi. rewrite Hg in Hi. cbn in Hi.
        destruct i; [|done]. cbn in Hi. injection Hi as <-.
        by destruct (resolvedTargetId a).
      + intros E. apply (of_N_no_dash (now 0%nat)). rewrite E.
        apply elem_of_app. right. by left. }
  assert (request_for (dispatched a now h tm st) (placeholder (now (S i)) i M) = request)
    as Hreq.
  { unfold request_for, request. f_equal.
    apply history_dispatched; try done.
    intros m Hin. destruct (decide (id m = id (placeholder (now (S i)) i M))) as [|Hne];
      [by right|left].
    unfold sent_for, shown_for. rewrite bool_decide_eq_false_2 by done.
    destruct (role m); [|done]. destruct (set_nonempty (model m)); [done|].
    destruct (targetModels m) as [r|] eqn:Hr; [|done]. cbn.
    rewrite (deref_prefix (heap st) h); [done..|]. by apply (Hall m). }
  split; [done|].
  rewrite dispatched_effects. rewrite !elem_of_app, elem_of_cons, !elem_of_app.
  right. right. right. apply list_elem_of_fmap. exists request. split; [done|].
  apply list_elem_of_fmap. exists (placeholder (now (S i)) i M). split; [done|].
  apply (list_elem_of_lookup_2 _ i). by rewrite assistantMessages_lookup, Hi.
Qed.

(** X16. The user turn of a dispatch is shown in the panel of a model
    exactly when the model was a target of the dispatch, and that stays
    so whatever the user and the transport do afterwards. *)
Theorem a_user_turn_is_shown_to_its_targets_only
    (a : Arg) (now : nat → N) (st : State) (later : list Action) (M : jsstring) :
  Js.trim (currentPrompt a st) ≠ [] →
  activeModels a st ≠ [] →
  let st1 := sendPrompt a now st in
  let st2 := session later st1 in
  ∃ u,
    messages st2 !! length (messages st) = Some u
    ∧ role u = user
    ∧ (u ∈ getHistoryForModelDisplay M st2 ↔ M ∈ activeModels a st).
Proof.
  intros Hp Hm st1 st2.
  assert (∃ h tm, st1 = dispatched a now h tm st
            ∧ (isGlobalFixed a = true →
               tm = Some (length (heap st)) ∧ h = heap st ++ [selected st])
            ∧ (isGlobalFixed a = false → tm = None)) as (h & tm & Hst1 & Hglobal & Hpanel).
  { unfold st1. rewrite sendPrompt_accepts by done.
    destruct (isGlobalFixed a); eexists _, _; (split; [done|]); by split. }
  set (u := userMessage a (now 0%nat) tm st).
  assert (messages st1 !! length (messages st) = Some u) as Hu.
  { rewrite Hst1, dispatched_messages. by rewrite lookup_app_r, Nat.sub_diag by lia. }
  destruct (grows_session later st1) as (Hheap & kept & [rest Hkept] & Hscope).
  fold st2 in Hkept, Hheap.
  destruct (Forall2_lookup_l _ _ _ _ _ Hscope Hu) as (u' & Hu' & Hr & Hmod & Htm).
  assert (messages st2 !! length (messages st) = Some u') as Hk'.
  { rewrite Hkept. by apply lookup_app_l_Some. }
  exists u'. split; [done|]. split; [done|].
  rewrite elem_of_getHistoryForModelDisplay.
  assert (selects (heap st2) M u' ↔ M ∈ activeModels a st) as Hsel.
  { unfold selects. rewrite Hr, Hmod, Htm. cbn.
    unfold activeModels. destruct (isGlobalFixed a) eqn:Hg.
    - destruct (Hglobal eq_refl) as [-> ->].
      unfold isGlobalFixed in Hg. apply negb_true_iff in Hg. rewrite Hg.
      assert (deref (heap st2) (length (heap st)) = selected st) as ->; [|done].
      rewrite (deref_prefix (heap st1) (heap st2)); [|done|].
      + rewrite Hst1, dispatched_heap. unfold deref.
        by rewrite lookup_app_r, Nat.sub_diag by lia.
      + rewrite Hst1, dispatched_heap, length_app. cbn. lia.
    - unfold isGlobalFixed in Hg. apply negb_false_iff in Hg. rewrite Hg.
      destruct (resolvedTargetId a) as [M0|]; [|done]. cbn.
      rewrite list_elem_of_singleton. split; [by intros [= ->]|by intros ->]. }
  rewrite Hsel. split; [by intros [_ ?]|]. intros HM. split; [|done].
  by eapply list_elem_of_lookup_2.
Qed.

End History.

Lemma selection_has_no_duplicates_witness :
  catalogs_without_duplicates (hi_session ++ reselect)
  ∧ NoDup (selected (session (host := JSON.token_numbers) (hi_session ++ reselect) initial)).
Proof.
  assert (catalogs_without_duplicates (hi_session ++ reselect)) as H.
  { assert (NoDup [gpt4; claude3]) as Hnd
      by (apply (bool_decide_unpack _); vm_compute; exact I).
    unfold catalogs_without_duplicates, hi_session, reselect. cbn [app].
    repeat (apply List.Forall_cons; [first [exact Hnd | exact I]|]).
    apply List.Forall_nil. }
  split; [exact H|].
  exact (selection_has_no_duplicates (host := JSON.token_numbers)
           (hi_session ++ reselect) H).
Defined.

Lemma dispatch_clears_its_prompt_and_marks_its_targets_witness :
  Js.trim (currentPrompt NoArg hi_state) ≠ []
  ∧ activeModels NoArg hi_state ≠ []
  ∧ let st' := sendPrompt NoArg tick hi_state in
    selected st' = selected hi_state
    ∧ currentPrompt NoArg st' = []
    ∧ (if isGlobalFixed NoArg then modelPrompts st' = modelPrompts hi_state
       else prompt st' = prompt hi_state
            ∧ ∀ M, Some M ≠ resolvedTargetId NoArg →
                modelPrompts st' !! M = modelPrompts hi_state !! M)
    ∧ ∀ M, busy M st'
           = bool_decide (M ∈ activeModels NoArg hi_state ∧ M ≠ []) || busy M hi_state.
Proof.
  split; [vm_compute; discriminate|]. split; [vm_compute; discriminate|].
  apply (dispatch_clears_its_prompt_and_marks_its_targets NoArg tick hi_state);
    vm_compute; discriminate.
Defined.

Lemma enabled_global_submit_dispatches_witness :
  globalSubmitDisabled hi_state = false
  ∧ ∃ u ps,
      messages (handleSubmit tick hi_state) = messages hi_state ++ u :: ps
      ∧ role u = user
      ∧ content u = prompt hi_state
      ∧ model u = None
      ∧ model <$> ps = Some <$> selected hi_state
      ∧ selected hi_state ≠ []
      ∧ prompt (handleSubmit tick hi_state) = [].
Proof.
  split; [vm_compute; reflexivity|].
  apply (enabled_global_submit_dispatches tick hi_state). vm_compute. reflexivity.
Defined.

Lemma enabled_panel_submit_dispatches_witness :
  panelSubmitDisabled gpt4 two_replies = JSON.Normal false
  ∧ gpt4 ≠ []
  ∧ ∃ text u p,
      modelPrompts two_replies !! gpt4 = Some text
      ∧ messages (sendPrompt (IdArg gpt4) tick two_replies)
        = messages two_replies ++ [u; p]
      ∧ role u = user ∧ content u = text ∧ model u = Some gpt4 ∧ targetModels u = None
      ∧ role p = assistant ∧ model p = Some gpt4 ∧ loading p = Some true
      ∧ modelPrompts (sendPrompt (IdArg gpt4) tick two_replies) !! gpt4 = Some []
      ∧ busy gpt4 (sendPrompt (IdArg gpt4) tick two_replies) = true.
Proof.
  split; [vm_compute; reflexivity|]. split; [vm_compute; discriminate|].
  apply (enabled_panel_submit_dispatches gpt4 tick two_replies);
    [vm_compute; reflexivity | vm_compute; discriminate].
Defined.

Lemma request_carries_the_panel_and_the_prompt_witness :
  let st := session (host := JSON.token_numbers) hi_answered initial in
  let request :=
    {| req_model := Some gpt4;
       req_messages :=
         (wire <$> getHistoryForModelDisplay gpt4 st) ++ [(user, currentPrompt NoArg st)];
       req_stream := true |} in
  orderly [] (hi_answered ++ [Submit tock])
  ∧ Js.trim (currentPrompt NoArg st) ≠ []
  ∧ NoDup (activeModels NoArg st)
  ∧ activeModels NoArg st !! 0%nat = Some gpt4
  ∧ req_messages request = [(user, js "Hi"); (assistant, js "Hel"); (user, js "more")]
  ∧ request_for (sendPrompt NoArg tock st) (placeholder (tock 1%nat) 0 gpt4) = request
  ∧ Fetch request ∈ effects (sendPrompt NoArg tock st).
Proof.
  intros st request.
  assert (orderly [] (hi_answered ++ [Submit tock])) as Ho.
  { cbn. split; [constructor|]. split; [|exact I].
    constructor; [|constructor]. intros i j. vm_compute. discriminate. }
  assert (Js.trim (currentPrompt NoArg st) ≠ []) as Hp by (vm_compute; discriminate).
  assert (NoDup (activeModels NoArg st)) as Hnd
    by (apply (bool_decide_unpack _); vm_compute; exact I).
  assert (activeModels NoArg st !! 0%nat = Some gpt4) as Hi by (vm_compute; reflexivity).
  split; [exact Ho|]. split; [exact Hp|]. split; [exact Hnd|]. split; [exact Hi|].
  split; [vm_compute; reflexivity|].
  exact (request_carries_the_panel_and_the_prompt (host := JSON.token_numbers)
           hi_answered NoArg tock 0 gpt4 Ho Hp Hnd Hi).
Defined.

Lemma a_user_turn_is_shown_to_its_targets_only_witness :
  Js.trim (currentPrompt NoArg hi_state) ≠ []
  ∧ activeModels NoArg hi_state ≠ []
  ∧ (∃ u,
       messages (session (host := JSON.token_numbers) reselect
                   (sendPrompt NoArg tick hi_state)) !! length (messages hi_state)
       = Some u
       ∧ role u = user
       ∧ (u ∈ getHistoryForModelDisplay (js "C")
                (session (host := JSON.token_numbers) reselect
                   (sendPrompt NoArg tick hi_state))
          ↔ js "C" ∈ activeModels NoArg hi_state))
  ∧ js "C" ∉ activeModels NoArg hi_state.
Proof.
  split; [vm_compute; discriminate|]. split; [vm_compute; discriminate|].
  split; [|apply (bool_decide_unpack _); vm_compute; exact I].
  apply (a_user_turn_is_shown_to_its_targets_only (host := JSON.token_numbers)
           NoArg tick hi_state reselect (js "C"));
    vm_compute; discriminate.
Defined.

(** ** Streams of deltas *)

Lemma string_body_plain t rest :
  plain t → JSON.string_body (t ++ 34 :: rest) = Some (t, rest).
Proof.
  induction 1 as [|c t (H32 & H34 & H92) _ IH]; cbn [app JSON.string_body].
  - done.
  - rewrite (proj2 (N.eqb_neq c 34)), (proj2 (N.eqb_neq c 92)) by done.
    rewrite (proj2 (N.ltb_ge c 32)) by done. by rewrite IH.
Qed.

Lemma parse_string f s str rest :
  JSON.string_body s = Some (str, rest) →
  JSON.parse_value (S f) (34 :: s) = Some (JSON.String str, rest).
Proof. intros H. cbn [JSON.parse_value JSON.skip_ws]. cbn. by rewrite H. Qed.

Lemma parse_object1 f s key s1 v rest :
  JSON.string_body s = Some (key, 58 :: s1) →
  JSON.parse_value f s1 = Some (v, 125 :: rest) →
  JSON.parse_value (S (S f)) (123 :: 34 :: s) = Some (JSON.Object [(key, v)], rest).
Proof.
  intros Hk Hv. cbn [JSON.parse_value JSON.parse_members JSON.skip_ws]. cbn.
  rewrite Hk. cbn. rewrite Hv. done.
Qed.

Lemma parse_array1 f s v rest :
  JSON.parse_value f (123 :: s) = Some (v, 93 :: rest) →
  JSON.parse_value (S (S f)) (91 :: 123 :: s) = Some (JSON.Array [v], rest).
Proof.
  intros Hv. cbn [JSON.parse_value JSON.parse_elements JSON.skip_ws]. cbn.
  cbn in Hv. rewrite Hv. done.
Qed.

Lemma plain_lit_choices : plain (js "choices").
Proof. repeat constructor; by vm_compute. Qed.

Lemma plain_lit_delta : plain (js "delta").
Proof. repeat constructor; by vm_compute. Qed.

Lemma plain_lit_content : plain (js "content").
Proof. repeat constructor; by vm_compute. Qed.

Lemma parse_delta t :
  plain t → JSON.parse (drop 6 (delta_line t)) = Some (delta_record t).
Proof.
  intros Ht. unfold JSON.parse.
  set (text := drop 6 (delta_line t)).
  assert (∃ n, (2 * length text + 2 = 9 + n)%nat) as (n & ->).
  { exists (2 * length text - 7)%nat. unfold text, delta_line.
    rewrite length_drop, !length_app. cbn. lia. }
  assert (JSON.parse_value (9 + n) text = Some (delta_record t, [])) as ->; [|done].
  change text with
    (123 :: 34 :: js "choices" ++ 34 :: 58 :: 91 :: 123 :: 34 :: js "delta"
       ++ 34 :: 58 :: 123 :: 34 :: js "content" ++ 34 :: 58 :: 34 :: t
       ++ 34 :: 125 :: 125 :: 93 :: [125]).
  change (9 + n)%nat with (S (S (S (S (S (S (S (S (S n))))))))).
  eapply parse_object1; [apply string_body_plain, plain_lit_choices|].
  eapply parse_array1.
  eapply parse_object1; [apply string_body_plain, plain_lit_delta|].
  eapply parse_object1; [apply string_body_plain, plain_lit_content|].
  apply parse_string. by apply string_body_plain.
Qed.

Lemma delta_line_data t : delta_line t = data_prefix ++ drop 6 (delta_line t).
Proof. reflexivity. Qed.

Lemma delta_line_starts t : Js.startsWith data_prefix (delta_line t) = true.
Proof. rewrite delta_line_data. apply startsWith_app. Qed.

Lemma delta_line_not_done t : Js.eqb (Js.slice 6 (delta_line t)) done_payload = false.
Proof. apply bool_decide_eq_false. intros H. discriminate H. Qed.

Lemma delta_line_no_newline t : plain t → newline ∉ delta_line t.
Proof.
  intros Ht. unfold delta_line. rewrite !elem_of_app. intros [H|[H|H]].
  - revert H. apply (bool_decide_unpack _). by vm_compute.
  - unfold plain in Ht. rewrite Forall_forall in Ht. apply Ht in H. unfold newline in H. lia.
  - revert H. apply (bool_decide_unpack _). by vm_compute.
Qed.

Lemma split_delta_chunk texts :
  Forall plain texts →
  Js.split newline (delta_chunk texts) = (delta_line <$> texts) ++ [[]].
Proof.
  induction 1 as [|t texts Ht _ IH]; [done|].
  unfold delta_chunk. cbn [fmap list_fmap concat]. rewrite <- app_assoc. cbn [app].
  rewrite split_app_sep, split_no_sep by by apply delta_line_no_newline.
  fold (delta_chunk texts). by rewrite IH.
Qed.

Section Deltas.
Context {host : JSON.JsNumbers}.

Lemma handle_data_delta m0 t st :
  plain t →
  handle_data m0 (drop 6 (delta_line t)) st
  = if decide (t = []) then st else update_turn (id m0) (append_delta t) st.
Proof.
  intros Ht. destruct (decide (t = [])) as [->|Hne].
  - unfold handle_data. by rewrite (parse_delta []).
  - by apply handle_data_text; [apply parse_delta|].
Qed.

Lemma process_delta_lines m0 k texts st p :
  NoDup (id <$> messages st) → messages st !! k = Some p → id p = id m0 →
  Forall plain texts →
  ∃ p',
    messages (process_lines m0 ((delta_line <$> texts) ++ [[]]) st) !! k = Some p'
    ∧ id p' = id p
    ∧ content p' = content p ++ concat texts
    ∧ error p' = error p
    ∧ (loading p' = loading p ∨ loading p' = Some false)
    ∧ (concat texts ≠ [] → loading p' = Some false).
Proof.
  intros Hnd Hk Hid Ht. revert st p Hnd Hk Hid.
  induction Ht as [|t texts Ht _ IH]; intros st p Hnd Hk Hid.
  - exists p. cbn. rewrite app_nil_r. repeat split; try done. by left.
  - cbn [fmap list_fmap app process_lines].
    rewrite delta_line_starts, delta_line_not_done, handle_data_delta by done.
    destruct (decide (t = [])) as [->|Hne]; [by apply IH|].
    rewrite (update_turn_own _ _ _ k p) by done.
    destruct (IH (with_messages (alter (append_delta t) k (messages st)) st)
                (append_delta t p)) as (p' & Hk' & Hi' & Hc' & He' & Hl' & Hl'');
      [by cbn; rewrite ids_alter|by cbn; rewrite list_lookup_alter_eq, Hk|done|].
    exists p'. split; [done|]. split; [done|]. split; [|split; [done|]].
    + rewrite Hc'. cbn. by rewrite app_assoc.
    + split; [|intros _]; destruct Hl' as [->| ->]; auto.
Qed.

Lemma chunk_of_deltas x m0 k texts st p :
  distinct_ids st → exchange_at x m0 AwaitRead k p st → Forall plain texts →
  ∃ p',
    exchange_at x m0 AwaitRead k p' (step (ReadChunk x (delta_chunk texts)) st)
    ∧ content p' = content p ++ concat texts
    ∧ error p' = error p
    ∧ (loading p' = loading p ∨ loading p' = Some false)
    ∧ (concat texts ≠ [] → loading p' = Some false)
    ∧ ∀ j, j ≠ k → messages (step (ReadChunk x (delta_chunk texts)) st) !! j
                   = messages st !! j.
Proof.
  intros [Hnd Hndx] (Hx & Hk & Hid) Ht.
  rewrite (step_chunk x m0) by done. unfold on_chunk. rewrite split_delta_chunk by done.
  destruct (process_delta_lines m0 k texts st p) as (p' & Hk' & Hi' & Hrest); try done.
  destruct (frame_process_lines m0 ((delta_line <$> texts) ++ [[]]) st)
    as (Ex & _ & Ei & Hothers & _).
  exists p'. split; [|split; [tauto|split; [tauto|split; [tauto|split; [tauto|]]]]].
  - split; [by rewrite Ex|]. split; [done|congruence].
  - intros j Hj. destruct (messages st !! j) as [m|] eqn:Ej.
    + apply Hothers; [done|]. intros E. apply Hj.
      eapply NoDup_lookup; [exact Hnd| |]; rewrite list_lookup_fmap.
      * by rewrite Ej.
      * rewrite Hk. cbn. congruence.
    + apply (f_equal length) in Ei. rewrite !length_fmap in Ei.
      apply lookup_ge_None. apply lookup_ge_None in Ej. lia.
Qed.

Lemma stream_of_deltas x m0 k chunks st p :
  distinct_ids st → exchange_at x m0 AwaitRead k p st →
  Forall (Forall plain) chunks →
  let st' := run ((λ texts, ReadChunk x (delta_chunk texts)) <$> chunks) st in
  ∃ p',
    exchange_at x m0 AwaitRead k p' st'
    ∧ content p' = content p ++ concat (concat chunks)
    ∧ error p' = error p
    ∧ (loading p' = loading p ∨ loading p' = Some false)
    ∧ (concat (concat chunks) ≠ [] → loading p' = Some false)
    ∧ ∀ j, j ≠ k → messages st' !! j = messages st !! j.
Proof.
  intros Hd Hat Hc. revert st p Hd Hat.
  induction Hc as [|texts chunks Ht _ IH]; intros st p Hd Hat.
  - exists p. cbn. rewrite app_nil_r. repeat split; try done; try apply Hat. by left.
  - cbn [fmap list_fmap]. cbn zeta. rewrite run_cons.
    destruct (chunk_of_deltas x m0 k texts st p) as (p1 & Hat1 & Hc1 & He1 & Hl1 & Hf1 & Ho1);
      try done.
    destruct (IH _ p1 (step_distinct_ids _ _ Hd) Hat1)
      as (p' & Hat' & Hc' & He' & Hl' & Hf' & Ho').
    exists p'. split; [done|]. split; [|split; [congruence|split; [|split]]].
    + rewrite Hc', Hc1. cbn. by rewrite concat_app, app_assoc.
    + destruct Hl' as [->|?]; [done|by right].
    + cbn. rewrite concat_app. intros Hne.
      destruct (decide (concat texts = [])) as [E|E].
      * rewrite E in Hne. by apply Hf'.
      * destruct Hl' as [->|?]; [by apply Hf1|done].
    + intros j Hj. by rewrite Ho', Ho1.
Qed.

(** X22. After any orderly session, when an exchange that is reading
    its stream receives chunks made of complete delta lines (texts
    without quotes, backslashes or control characters), the content of
    its turn ends up extended by all the texts, in the order of the
    chunks and of the lines inside them. The error of the turn and every
    other turn are as before, the turn has stopped loading as soon as a
    text was not empty, and the exchange is still reading. *)
Theorem deltas_are_appended_in_order
    (acts : list Action) (x : nat) (m0 : ChatMessage) (chunks : list (list jsstring)) :
  orderly [] acts →
  let st := session acts initial in
  exchanges st !! x = Some {| msg := m0; phase := AwaitRead |} →
  Forall (Forall plain) chunks →
  let st' := run ((λ texts, ReadChunk x (delta_chunk texts)) <$> chunks) st in
  ∃ k p p',
    messages st !! k = Some p
    ∧ id p = id m0
    ∧ messages st' !! k = Some p'
    ∧ content p' = content p ++ concat (concat chunks)
    ∧ error p' = error p
    ∧ (concat (concat chunks) ≠ [] → loading p' = Some false)
    ∧ (∀ j, j ≠ k → messages st' !! j = messages st !! j)
    ∧ exchanges st' !! x = Some {| msg := m0; phase := AwaitRead |}.
Proof.
  intros Ho st Hx Hc st'.
  destruct (orderly_session_exchange acts x m0 AwaitRead Ho Hx) as (k & p & Hat).
  destruct (stream_of_deltas x m0 k chunks st p) as (p' & Hat' & Hc' & He' & _ & Hl' & Ho');
    [by apply orderly_session_distinct_ids|done|done|].
  exists k, p, p'. destruct Hat as (_ & Hk & Hid). destruct Hat' as (Hx' & Hk' & _).
  repeat split; done.
Qed.

End Deltas.


(** ** The busy flags *)

Lemma covers_evolves st st' :
  isModelLoading st' = isModelLoading st →
  Forall2 evolves (messages st) (messages st') →
  busy_covers_loading st → busy_covers_loading st'.
Proof.
  intros Hl Hm Hc m' M (k & Hk')%list_elem_of_lookup_1 HM Hne Hproto Hload.
  destruct (Forall2_lookup_r _ _ _ _ _ Hm Hk') as (m & Hk & (_ & _ & Em & _ & _ & El & _)).
  rewrite Hl. apply (Hc m M); [by eapply list_elem_of_lookup_2|congruence|done|done|].
  destruct El as [El|El]; congruence.
Qed.

Lemma covers_finally_block p st :
  busy_covers_loading st → busy_covers_loading (finally_block p st).
Proof.
  intros Hc.
  assert (busy_covers_loading (update_turn (id p) clear_loading st)) as H1.
  { revert Hc. apply covers_evolves.
    - unfold update_turn. by destruct (findIndex _ _).
    - apply evolves_update_turn, evolves_clear_loading. }
  unfold finally_block. destruct (model p) as [[|c M0]|] eqn:Hp; cbn; try done.
  intros m M Hin HM Hne Hproto Hload. cbn in *. rewrite lookup_assign.
  destruct (decide (M = c :: M0 ∧ c :: M0 ≠ proto)) as [[-> _]|HMne].
  - f_equal. apply (some_loading_true p (c :: M0)); [done|]. eauto.
  - destruct (decide (M = c :: M0)) as [->|HMne'].
    + exfalso. by apply HMne.
    + by apply (H1 m).
Qed.

Lemma covers_dispatched a now h tm st :
  busy_covers_loading st → busy_covers_loading (dispatched a now h tm st).
Proof.
  intros Hc m M Hin HM Hne Hproto Hload.
  rewrite dispatched_isModelLoading, mark_loading_lookup.
  destruct (decide (M ∈ activeModels a st ∧ M ≠ [] ∧ M ≠ proto)) as [|Hout]; [done|].
  rewrite dispatched_messages in Hin.
  apply elem_of_app in Hin as [Hin|[->|Hin]%elem_of_cons].
  - by apply (Hc m).
  - done.
  - exfalso. apply Hout. split; [|done].
    apply list_elem_of_lookup_1 in Hin as (i & Hi).
    rewrite assistantMessages_lookup in Hi.
    destruct (activeModels a st !! i) as [M'|] eqn:E; [|done].
    injection Hi as <-. cbn in HM. injection HM as ->.
    by eapply list_elem_of_lookup_2.
Qed.

Lemma covers_sendPrompt a now st :
  busy_covers_loading st → busy_covers_loading (sendPrompt a now st).
Proof.
  intros Hc. destruct (sendPrompt_cases a now st) as [[_ ->]|(_ & _ & h & tm & _ & ->)];
    [done|by apply covers_dispatched].
Qed.

Lemma covers_same st st' :
  isModelLoading st' = isModelLoading st → messages st' = messages st →
  busy_covers_loading st → busy_covers_loading st'.
Proof. intros Hl Hm. unfold busy_covers_loading. by rewrite Hl, Hm. Qed.

Section BusySafety.
Context {host : JSON.JsNumbers}.

Lemma covers_step ev st : busy_covers_loading st → busy_covers_loading (step ev st).
Proof.
  intros Hc.
  destruct (step_kinds ev st) as [->|(e & _ & _ & [->|[(chunk & ->)|(mid & -> & Hmid)]])].
  - done.
  - done.
  - destruct (streamed_on_chunk (msg e) chunk st) as (_ & Hl & _ & Hm).
    revert Hc. apply covers_evolves; [done|].
    eapply Forall2_impl; [exact Hm|]. by intros ?? [? _].
  - apply (covers_same (finally_block (msg e) mid)); [done..|].
    apply covers_finally_block.
    destruct Hmid as [->|(message & ->)]; [done|].
    revert Hc. apply covers_evolves; [|apply evolves_catch_block].
    unfold catch_block, update_turn. by destruct (findIndex _ _).
Qed.

Lemma covers_perform act st : busy_covers_loading st → busy_covers_loading (perform act st).
Proof.
  destruct act as [text|modelId text|modelId|ids|now|modelId now|ev]; cbn [perform].
  - by apply covers_same.
  - by apply covers_same.
  - apply covers_same; [|apply toggleModel_messages].
    unfold toggleModel, alloc. by case_match.
  - apply covers_same; unfold fetchModels, alloc; by case_match.
  - apply covers_sendPrompt.
  - destruct (Js.includes _ _); [apply covers_sendPrompt | done].
  - apply covers_step.
Qed.

Lemma covers_session acts st :
  busy_covers_loading st → busy_covers_loading (session acts st).
Proof.
  revert st. induction acts as [|act acts IH]; intros st Hc; [done|].
  cbn [session foldl]. by apply IH, covers_perform.
Qed.

(** X23. Whatever the user and the transport do from the initial state
    (also with ids that collide), as long as a turn of a model is
    loading the model is busy, and the condition that disables the
    submit button of its panel is not false. *)
Theorem busy_while_a_turn_is_loading (acts : list Action) (M : jsstring) (m : ChatMessage) :
  let st := session acts initial in
  m ∈ messages st →
  model m = Some M →
  M ≠ [] →
  loading m = Some true →
  busy M st = true ∧ panelSubmitDisabled M st ≠ JSON.Normal false.
Proof.
  intros st Hin HM Hne Hload.
  assert (busy_covers_loading st) as Hc.
  { apply covers_session. by intros ?? ?%not_elem_of_nil. }
  assert (busy M st = true) as Hb.
  { unfold busy. case_bool_decide as Hproto; [done|]. by rewrite (Hc m M). }
  split; [done|]. unfold panelSubmitDisabled. case_bool_decide; [done|].
  destruct (modelPrompts st !! M); [|by destruct (inherited M)].
  by rewrite Hb, orb_true_r.
Qed.

End BusySafety.

Lemma owed_evolves st st' :
  exchanges st' = exchanges st →
  isModelLoading st' = isModelLoading st →
  Forall2 evolves (messages st) (messages st') →
  owed st → owed st'.
Proof.
  intros Hx Hl Hm [H1 H2]. split.
  - intros m' (k & Hk')%list_elem_of_lookup_1 Hload.
    destruct (Forall2_lookup_r _ _ _ _ _ Hm Hk')
      as (m & Hk & (Ei & _ & Em & _ & _ & El & _)).
    rewrite Hx, Ei, Em. apply H1; [by eapply list_elem_of_lookup_2|].
    destruct El as [El|El]; congruence.
  - intros M. rewrite Hl, Hx. apply H2.
Qed.

Lemma owed_set_phase x ph st :
  ph ≠ Settled → owed st → owed (set_phase x ph st).
Proof.
  intros Hph [H1 H2].
  assert (∀ y e, exchanges st !! y = Some e → phase e ≠ Settled →
            ∃ e', exchanges (set_phase x ph st) !! y = Some e' ∧ msg e' = msg e
                  ∧ phase e' ≠ Settled) as Hkeep.
  { intros y e Hy He. destruct (decide (y = x)) as [->|Hne].
    - eexists. rewrite set_phase_lookup, Hy. cbn. done.
    - exists e. by rewrite set_phase_lookup_ne. }
  split.
  - intros m Hin Hload. destruct (H1 m Hin Hload) as (y & e & Hy & Hi & Hm & He).
    destruct (Hkeep y e Hy He) as (e' & Hy' & Hmsg & He').
    exists y, e'. by rewrite Hmsg.
  - intros M HM. destruct (H2 M HM) as (Hne & y & e & Hy & Hm & He).
    split; [done|]. destruct (Hkeep y e Hy He) as (e' & Hy' & Hmsg & He').
    exists y, e'. by rewrite Hmsg.
Qed.

Lemma finally_block_exchanges p st : exchanges (finally_block p st) = exchanges st.
Proof. by destruct (frame_finally_block p st) as (? & _). Qed.

Lemma finally_block_flags p st M :
  isModelLoading (finally_block p st) !! M
  = if decide (model p = Some M ∧ M ≠ [] ∧ M ≠ proto)
    then Some (some_loading p (messages (finally_block p st)))
    else isModelLoading st !! M.
Proof.
  unfold finally_block.
  assert (isModelLoading (update_turn (id p) clear_loading st) = isModelLoading st) as Hl.
  { unfold update_turn. by destruct (findIndex _ _). }
  destruct (model p) as [[|c M0]|] eqn:Hp; cbn.
  - rewrite decide_False; [by rewrite Hl|]. by intros ([= <-] & ? & _).
  - rewrite lookup_assign, Hl.
    destruct (decide (M = c :: M0 ∧ c :: M0 ≠ proto)) as [[-> Hproto]|Hne].
    + by rewrite decide_True.
    + rewrite decide_False; [done|]. intros ([= <-] & _ & ?). by apply Hne.
  - rewrite decide_False; [by rewrite Hl|]. by intros [? _].
Qed.

(** The exchange at [x] settles: its turn stops loading, its flag is
    recomputed. *)
Lemma owed_settle x e mid :
  NoDup (id <$> messages mid) →
  exchanges mid !! x = Some e →
  owed mid →
  owed (set_phase x Settled (finally_block (msg e) mid)).
Proof.
  intros Hnd Hx [H1 H2].
  set (fin := finally_block (msg e) mid).
  assert (∀ y e', y ≠ x → exchanges mid !! y = Some e' →
            exchanges (set_phase x Settled fin) !! y = Some e') as Hother.
  { intros y e' Hne Hy. rewrite set_phase_lookup_ne by done.
    unfold fin. by rewrite finally_block_exchanges. }
  assert (∀ m', m' ∈ messages fin → loading m' = Some true →
            ∃ y e', exchanges (set_phase x Settled fin) !! y = Some e'
                    ∧ id (msg e') = id m' ∧ model (msg e') = model m'
                    ∧ phase e' ≠ Settled) as Hturns.
  { intros m' (k & Hk')%list_elem_of_lookup_1 Hload.
    destruct (Forall2_lookup_r _ _ _ _ _ (evolves_finally_block (msg e) mid) Hk')
      as (m & Hk & (Ei & _ & Em & _ & _ & El & _)).
    assert (loading m = Some true) as Hl by (destruct El; congruence).
    destruct (H1 m (list_elem_of_lookup_2 _ _ _ Hk) Hl) as (y & e' & Hy & Hi & Hm & He).
    destruct (decide (y = x)) as [->|Hne].
    - exfalso. rewrite Hx in Hy. injection Hy as <-.
      unfold fin in Hk'. rewrite (finally_block_messages (msg e) k m) in Hk' by done.
      rewrite list_lookup_alter_eq, Hk in Hk'. injection Hk' as <-. done.
    - exists y, e'. rewrite Ei, Em. split; [by apply Hother|done]. }
  split; [exact Hturns|].
  intros M. change (isModelLoading (set_phase x Settled fin)) with (isModelLoading fin).
  unfold fin at 1. rewrite finally_block_flags.
  destruct (decide (model (msg e) = Some M ∧ M ≠ [] ∧ M ≠ proto)) as [[Hm Hne]|Hout].
  - intros [= Hs]. split; [done|].
    apply (some_loading_true (msg e) M) in Hs as (m' & Hin & Hmod & Hload); [|done].
    destruct (Hturns m' Hin Hload) as (y & e' & Hy & _ & Hm' & He').
    exists y, e'. split; [done|]. split; [congruence|done].
  - intros HM. destruct (H2 M HM) as (Hne & y & e' & Hy & Hm & He).
    split; [done|]. exists y, e'. split; [|done].
    apply Hother; [|done]. intros ->. rewrite Hx in Hy. injection Hy as <-.
    apply Hout. by split.
Qed.

Lemma owed_dispatched a now h tm st : owed st → owed (dispatched a now h tm st).
Proof.
  intros [H1 H2].
  assert (∀ i M, activeModels a st !! i = Some M →
            exchanges (dispatched a now h tm st) !! (length (exchanges st) + i)%nat
            = Some (pending (placeholder (now (S i)) i M))) as Hnew.
  { intros i M Hi. rewrite dispatched_exchanges, lookup_app_r by lia.
    replace (length (exchanges st) + i - length (exchanges st))%nat with i by lia.
    by rewrite list_lookup_fmap, assistantMessages_lookup, Hi. }
  assert (∀ y e, exchanges st !! y = Some e →
            exchanges (dispatched a now h tm st) !! y = Some e) as Hold.
  { intros y e Hy. rewrite dispatched_exchanges. by apply lookup_app_l_Some. }
  split.
  - intros m Hin Hload. rewrite dispatched_messages in Hin.
    apply elem_of_app in Hin as [Hin|[->|Hin]%elem_of_cons].
    + destruct (H1 m Hin Hload) as (y & e & Hy & ?). exists y, e. split; [by apply Hold|done].
    + done.
    + apply list_elem_of_lookup_1 in Hin as (i & Hi).
      rewrite assistantMessages_lookup in Hi.
      destruct (activeModels a st !! i) as [M|] eqn:E; [|done]. injection Hi as <-.
      eexists _, _. split; [by apply Hnew|]. done.
  - intros M. rewrite dispatched_isModelLoading, mark_loading_lookup.
    destruct (decide (M ∈ activeModels a st ∧ M ≠ [] ∧ M ≠ proto)) as [[Hin Hne]|Hout].
    + intros _. split; [done|]. apply list_elem_of_lookup_1 in Hin as (i & Hi).
      eexists _, _. split; [by apply Hnew|]. done.
    + intros HM. destruct (H2 M HM) as (Hne & y & e & Hy & ?).
      split; [done|]. exists y, e. split; [by apply Hold|done].
Qed.

Lemma owed_sendPrompt a now st : owed st → owed (sendPrompt a now st).
Proof.
  intros Hc. destruct (sendPrompt_cases a now st) as [[_ ->]|(_ & _ & h & tm & _ & ->)];
    [done|by apply owed_dispatched].
Qed.

Lemma owed_same st st' :
  exchanges st' = exchanges st → isModelLoading st' = isModelLoading st →
  messages st' = messages st → owed st → owed st'.
Proof. intros Hx Hl Hm. unfold owed. by rewrite Hx, Hl, Hm. Qed.

Section BusyLiveness.
Context {host : JSON.JsNumbers}.

Lemma owed_step ev st : NoDup (id <$> messages st) → owed st → owed (step ev st).
Proof.
  intros Hnd Ho.
  destruct (step_kinds ev st) as [->|(e & Hx & _ & [->|[(chunk & ->)|(mid & -> & Hmid)]])].
  - done.
  - by apply owed_set_phase.
  - destruct (streamed_on_chunk (msg e) chunk st) as (Hxs & Hl & _ & Hm).
    revert Ho. apply owed_evolves; [done..|].
    eapply Forall2_impl; [exact Hm|]. by intros ?? [? _].
  - destruct Hmid as [->|(message & ->)]; [by apply owed_settle|].
    destruct (frame_catch_block (msg e) message st) as (Hxs & _ & Hids & _).
    apply owed_settle; [by rewrite Hids|by rewrite Hxs|].
    revert Ho. apply owed_evolves; [done| |apply evolves_catch_block].
    unfold catch_block, update_turn. by destruct (findIndex _ _).
Qed.

Lemma owed_session acts cs st :
  orderly cs acts → well_formed cs st → owed st → owed (session acts st).
Proof.
  revert cs st. induction acts as [|act acts IH]; intros cs st Ho Hwf Hu; [done|].
  cbn [session foldl].
  destruct act as [text|modelId text|modelId|ids|now|modelId now|ev];
    cbn [perform orderly] in *.
  - apply (IH cs); [done|by apply (well_formed_unchanged cs st)|done].
  - apply (IH cs); [done|by apply (well_formed_unchanged cs st)|done].
  - apply (IH cs); [done|by apply well_formed_toggleModel|].
    revert Hu. apply owed_same; try apply toggleModel_messages;
      unfold toggleModel, alloc; by case_match.
  - apply (IH cs); [done|by apply well_formed_fetchModels|].
    revert Hu. apply owed_same; unfold fetchModels, alloc; by case_match.
  - destruct Ho as (Hsep & Ho). apply (IH (now :: cs)); [done| |].
    + by apply well_formed_sendPrompt.
    + by apply owed_sendPrompt.
  - destruct Ho as (Hsep & Ho). apply (IH (now :: cs)); [done| |].
    + destruct (Js.includes _ _); [by apply well_formed_sendPrompt|].
      by apply well_formed_weaken.
    + destruct (Js.includes _ _); [by apply owed_sendPrompt|done].
  - apply (IH cs); [done|by apply well_formed_step|].
    apply owed_step; [|done]. by destruct Hwf as ([? _] & _).
Qed.

Lemma owed_initial : owed initial.
Proof.
  split; [by intros ? ?%not_elem_of_nil|]. intros M HM. cbn in HM.
  by rewrite lookup_empty in HM.
Qed.

Lemma not_inherited_proto M : inherited M = false → M ≠ proto.
Proof. intros H ->. by vm_compute in H. Qed.

(** X24. In an orderly session, once every exchange of a model has
    settled the model is not busy and none of its turns is loading: no
    busy flag and no spinner is left behind. The identifier of the
    model is not a name of [Object_prototype], under which the flag
    reads as truthy without having been set. *)
Theorem idle_once_the_exchanges_have_settled (acts : list Action) (M : jsstring) :
  orderly [] acts →
  inherited M = false →
  let st := session acts initial in
  (∀ e, e ∈ exchanges st → model (msg e) = Some M → phase e = Settled) →
  busy M st = false
  ∧ ∀ m, m ∈ messages st → model m = Some M → loading m ≠ Some true.
Proof.
  intros Ho HM st Hsettled.
  destruct (owed_session acts [] initial Ho initial_well_formed owed_initial) as [H1 H2].
  fold st in H1, H2. split.
  - unfold busy. rewrite bool_decide_eq_false_2 by by apply not_inherited_proto.
    destruct (isModelLoading st !! M) as [[]|] eqn:E; [|done..].
    exfalso. destruct (H2 M E) as (_ & x & e & Hx & Hm & He).
    apply He, Hsettled; [by eapply list_elem_of_lookup_2|done].
  - intros m Hin Hm Hload.
    destruct (H1 m Hin Hload) as (x & e & Hx & _ & Hm' & He).
    apply He, Hsettled; [by eapply list_elem_of_lookup_2|congruence].
Qed.

(** X25. In an orderly session, once every exchange has settled
    [isGlobalLoading] is false and no turn is loading, so that the
    submit button of the global prompt is disabled only by a blank
    prompt or an empty selection. No selected identifier is a name of
    [Object_prototype]. *)
Theorem global_prompt_is_free_once_all_has_settled (acts : list Action) :
  orderly [] acts →
  let st := session acts initial in
  Forall (λ e, phase e = Settled) (exchanges st) →
  Forall (λ m, inherited m = false) (selected st) →
  isGlobalLoading st = false
  ∧ Forall (λ m, loading m ≠ Some true) (messages st)
  ∧ globalSubmitDisabled st
    = negb (Js.truthy (Js.trim (prompt st))) || bool_decide (length (selected st) = 0%nat).
Proof.
  intros Ho st Hall Hsel. rewrite Forall_forall in Hall. rewrite Forall_forall in Hsel.
  destruct (owed_session acts [] initial Ho initial_well_formed owed_initial) as [H1 H2].
  fold st in H1, H2.
  assert (isGlobalLoading st = false) as Hg.
  { unfold isGlobalLoading. apply not_true_is_false.
    intros (M & HinM%list_elem_of_In & HM)%existsb_exists.
    unfold busy in HM.
    rewrite bool_decide_eq_false_2 in HM by by apply not_inherited_proto, Hsel.
    destruct (isModelLoading st !! M) as [[]|] eqn:E; [|done|by rewrite Hsel in HM].
    destruct (H2 M E) as (_ & x & e & Hx & _ & He).
    apply He, Hall. by eapply list_elem_of_lookup_2. }
  split; [done|]. split.
  - apply Forall_forall. intros m Hin Hload.
    destruct (H1 m Hin Hload) as (x & e & Hx & _ & _ & He).
    apply He, Hall. by eapply list_elem_of_lookup_2.
  - unfold globalSubmitDisabled. rewrite Hg. apply orb_false_r.
Qed.

End BusyLiveness.

Section Settled.
Context {host : JSON.JsNumbers}.

Lemma step_settled ev st x m0 :
  exchanges st !! x = Some {| msg := m0; phase := Settled |} →
  target ev = x → step ev st = st.
Proof.
  intros Hx <-. destruct ev; cbn [step target] in *; unfold resume; by rewrite Hx.
Qed.

Lemma step_keeps_settled ev st x m0 k p :
  distinct_ids st → exchange_at x m0 Settled k p st →
  exchange_at x m0 Settled k p (step ev st).
Proof.
  intros Hd Hat. destruct (decide (target ev = x)) as [E|E].
  - destruct Hat as (Hx & ?). by rewrite (step_settled ev st x m0).
  - by apply step_sibling.
Qed.

Lemma settled_idle_step cs ev st :
  well_formed cs st → settled_idle st → settled_idle (step ev st).
Proof.
  intros (Hd & _ & Hex) Hs x e' Hx' Hph'.
  destruct (step_shape ev st) as (_ & _ & _ & Hmsg).
  assert (∃ e, exchanges st !! x = Some e ∧ msg e = msg e') as (e & Hx & Hm).
  { apply (f_equal (λ l, l !! x)) in Hmsg. rewrite !list_lookup_fmap, Hx' in Hmsg.
    destruct (exchanges st !! x) as [e|]; [|done]. exists e. split; [done|].
    cbn in Hmsg. by injection Hmsg. }
  destruct e as [m0 ph], e' as [m0' ph']. cbn in Hm, Hph'. subst m0' ph'.
  assert (ph = Settled ∨ ph ≠ Settled) as [->|Hph] by (destruct ph; auto).
  - destruct (Hs x _ Hx eq_refl) as (k & p & Hk & Hid & Hl).
    destruct (step_keeps_settled ev st x m0 k p Hd) as (_ & Hk' & _); [done|].
    by exists k, p.
  - destruct (settles_only_by_leaving ev st x m0 ph Hx Hph Hx') as [Hev Hleave].
    subst x. destruct (leaves_step ev st m0 ph Hx Hleave) as (mid & Hstep & Hmid).
    rewrite Forall_fmap, Forall_lookup in Hex.
    destruct (Hex _ _ Hx) as (k & p & Hk & Hid). cbn in Hid.
    destruct Hd as [Hnd _].
    assert (∃ q, NoDup (id <$> messages mid) ∧ messages mid !! k = Some q ∧ id q = id m0)
      as (q & Hnd' & Hq & Hidq).
    { destruct Hmid as [->|[message ->]]; [by exists p|].
      exists (set_error message p). rewrite (catch_block_own m0 k p) by done.
      split; [by rewrite ids_alter|]. split; [by rewrite list_lookup_alter_eq, Hk|done]. }
    exists k, (clear_loading q). rewrite Hstep. cbn.
    rewrite (finally_block_messages m0 k q) by done.
    by rewrite list_lookup_alter_eq, Hq.
Qed.

Lemma settled_idle_same st st' :
  messages st' = messages st → exchanges st' = exchanges st →
  settled_idle st → settled_idle st'.
Proof. intros Hm Hx. unfold settled_idle. by rewrite Hm, Hx. Qed.

Lemma settled_idle_sendPrompt a now st : settled_idle st → settled_idle (sendPrompt a now st).
Proof.
  intros Hs. destruct (sendPrompt_cases a now st) as [[_ ->]|(_ & _ & h & tm & _ & ->)];
    [done|].
  intros x e. rewrite dispatched_exchanges, dispatched_messages.
  intros [Hx|[_ Hx]]%lookup_app_Some Hph.
  - destruct (Hs x e Hx Hph) as (k & p & Hk & ?). exists k, p.
    split; [by apply lookup_app_l_Some|done].
  - rewrite list_lookup_fmap in Hx.
    destruct (assistantMessages _ _ !! _); [|done]. injection Hx as <-. done.
Qed.

(** A turn of the log and an exchange that has settled stay as they are
    through a submission. *)
Lemma sendPrompt_keeps a now st x m0 k p :
  exchange_at x m0 Settled k p st → exchange_at x m0 Settled k p (sendPrompt a now st).
Proof.
  intros (Hx & Hk & Hid).
  destruct (sendPrompt_cases a now st) as [[_ ->]|(_ & _ & h & tm & _ & ->)]; [done|].
  split; [|split; [|done]].
  - rewrite dispatched_exchanges. by apply lookup_app_l_Some.
  - rewrite dispatched_messages. by apply lookup_app_l_Some.
Qed.

Lemma session_keeps_settled later cs st x m0 k p :
  orderly cs later → well_formed cs st →
  exchange_at x m0 Settled k p st →
  exchange_at x m0 Settled k p (session later st).
Proof.
  revert cs st. induction later as [|act later IH]; intros cs st Ho Hwf Hat; [done|].
  cbn [session foldl].
  destruct act as [text|modelId text|modelId|ids|now|modelId now|ev];
    cbn [perform orderly] in *.
  - apply (IH cs); [done|by apply (well_formed_unchanged cs st)|done].
  - apply (IH cs); [done|by apply (well_formed_unchanged cs st)|done].
  - apply (IH cs); [done|by apply well_formed_toggleModel|].
    destruct Hat as (Hx & Hk & Hid). split; [|split; [|done]].
    + unfold toggleModel, alloc. by case_match.
    + by rewrite toggleModel_messages.
  - apply (IH cs); [done|by apply well_formed_fetchModels|].
    destruct Hat as (Hx & Hk & Hid).
    split; [|split; [|done]]; unfold fetchModels, alloc; by case_match.
  - destruct Ho as (Hsep & Ho). apply (IH (now :: cs)); [done| |].
    + by apply well_formed_sendPrompt.
    + by apply sendPrompt_keeps.
  - destruct Ho as (Hsep & Ho). apply (IH (now :: cs)); [done| |].
    + destruct (Js.includes _ _); [by apply well_formed_sendPrompt|].
      by apply well_formed_weaken.
    + destruct (Js.includes _ _); [by apply sendPrompt_keeps|done].
  - apply (IH cs); [done|by apply well_formed_step|].
    apply step_keeps_settled; [|done]. by destruct Hwf.
Qed.

Lemma session_settled_idle acts cs st :
  orderly cs acts → well_formed cs st → settled_idle st → settled_idle (session acts st).
Proof.
  revert cs st. induction acts as [|act acts IH]; intros cs st Ho Hwf Hs; [done|].
  cbn [session foldl].
  destruct act as [text|modelId text|modelId|ids|now|modelId now|ev];
    cbn [perform orderly] in *.
  - apply (IH cs); [done|by apply (well_formed_unchanged cs st)|done].
  - apply (IH cs); [done|by apply (well_formed_unchanged cs st)|done].
  - apply (IH cs); [done|by apply well_formed_toggleModel|].
    revert Hs. apply settled_idle_same; [apply toggleModel_messages|].
    unfold toggleModel, alloc. by case_match.
  - apply (IH cs); [done|by apply well_formed_fetchModels|].
    revert Hs. apply settled_idle_same; unfold fetchModels, alloc; by case_match.
  - destruct Ho as (Hsep & Ho). apply (IH (now :: cs)); [done| |].
    + by apply well_formed_sendPrompt.
    + by apply settled_idle_sendPrompt.
  - destruct Ho as (Hsep & Ho). apply (IH (now :: cs)); [done| |].
    + destruct (Js.includes _ _); [by apply well_formed_sendPrompt|].
      by apply well_formed_weaken.
    + destruct (Js.includes _ _); [by apply settled_idle_sendPrompt|done].
  - apply (IH cs); [done|by apply well_formed_step|].
    by apply (settled_idle_step cs).
Qed.

(** X26. In an orderly session, the turn of an exchange that has
    settled is in the log and is not loading, and nothing that happens
    later changes that turn or revives the exchange: no later chunk,
    failure or submission. *)
Theorem a_settled_turn_is_final
    (acts later : list Action) (x : nat) (m0 : ChatMessage) :
  orderly [] (acts ++ later) →
  let st := session acts initial in
  exchanges st !! x = Some {| msg := m0; phase := Settled |} →
  ∃ k p,
    messages st !! k = Some p
    ∧ id p = id m0
    ∧ loading p = Some false
    ∧ messages (session later st) !! k = Some p
    ∧ exchanges (session later st) !! x = Some {| msg := m0; phase := Settled |}.
Proof.
  intros Ho st Hx.
  destruct (session_well_formed_rest acts later [] initial Ho initial_well_formed)
    as (cs & Hwf & Hlater). fold st in Hwf.
  assert (orderly [] acts) as Hacts.
  { clear -Ho. revert Ho. generalize (@nil (nat → N)).
    induction acts as [|act acts IH]; intros cs; [done|].
    destruct act; cbn [app orderly]; try apply IH.
    - intros [? ?]. split; [done|]. by apply IH.
    - intros [? ?]. split; [done|]. by apply IH. }
  assert (settled_idle st) as Hs.
  { apply (session_settled_idle acts []); [done|apply initial_well_formed|].
    intros ? ? H. cbn in H. by rewrite lookup_nil in H. }
  destruct (Hs x _ Hx eq_refl) as (k & p & Hk & Hid & Hl). cbn in Hid.
  destruct (session_keeps_settled later cs st x m0 k p Hlater Hwf) as (Hx' & Hk' & _);
    [done|].
  by exists k, p.
Qed.

End Settled.

(** ** The side notes *)

Lemma handleSelection_modes selection n :
  isHighlightMode (handleSelection selection n).1 = isHighlightMode n
  ∧ isSheetOpen (handleSelection selection n).1 = isSheetOpen n.
Proof.
  unfold handleSelection. destruct (negb _); [done|]. by destruct (set_nonempty _).
Qed.

Lemma note_exclusive act n :
  isSheetOpen n && isHighlightMode n = false →
  isSheetOpen (note act n) && isHighlightMode (note act n) = false.
Proof.
  intros H. destruct act as [selection| | |open| |value]; cbn [note]; try done.
  - by destruct (handleSelection_modes selection n) as [-> ->].
  - unfold toggleHighlightMode. destruct (isSheetOpen n) eqn:E; cbn; by rewrite E.
  - unfold setSheetOpen. by destruct (isSheetOpen n), (isHighlightMode n).
  - unfold setSheetOpen. by destruct open, (isSheetOpen n), (isHighlightMode n).
Qed.

(** X27. Whatever the user clicks, selects and types, after every
    event the highlighter is off if the sheet of the sidenotes is open;
    and while the sheet is open a selection changes nothing and is not
    cleared. *)
Theorem highlighter_is_off_while_the_sheet_is_open (acts : list NotesAction) :
  let n := notes acts no_notes in
  isSheetOpen n && isHighlightMode n = false
  ∧ (isSheetOpen n = true → ∀ selection, handleSelection selection n = (n, false)).
Proof.
  intros n.
  assert (isSheetOpen n && isHighlightMode n = false) as H.
  { unfold n, notes. generalize no_notes (eq_refl : isSheetOpen no_notes && isHighlightMode no_notes = false).
    induction acts as [|act acts IH]; intros n0 H0; [done|].
    cbn [foldl]. by apply IH, note_exclusive. }
  split; [done|]. intros Ho selection. rewrite Ho in H. cbn in H.
  unfold handleSelection. by rewrite H.
Qed.

Lemma paragraphs_cons t texts :
  paragraphs (t :: texts)
  = if decide (texts = []) then t else t ++ blank_line ++ paragraphs texts.
Proof. by destruct texts. Qed.

Lemma handleSelection_highlight selection n :
  isHighlightMode n = true →
  (handleSelection selection n).1
  = if decide (highlight selection = []) then n
    else with_monacoContent
           (if decide (monacoContent n = []) then highlight selection
            else monacoContent n ++ blank_line ++ highlight selection) n.
Proof.
  intros Hh. unfold handleSelection, highlight. rewrite Hh. cbn [negb].
  destruct (Js.trim <$> selection) as [[|c t]|]; cbn; try done.
  by destruct (monacoContent n).
Qed.

Lemma filter_nonempty_cons (t : jsstring) (l : list jsstring) :
  filter (λ t, t ≠ []) (t :: l)
  = if decide (t = []) then filter (λ t, t ≠ []) l else t :: filter (λ t, t ≠ []) l.
Proof. rewrite filter_cons. by destruct (decide (t = [])), (decide (t ≠ [])). Qed.

Lemma handleSelection_content selection n :
  isHighlightMode n = true →
  isHighlightMode (handleSelection selection n).1 = true
  ∧ monacoContent (handleSelection selection n).1
    = paragraphs (filter (λ t, t ≠ []) [monacoContent n; highlight selection]).
Proof.
  intros Hh. rewrite handleSelection_highlight by done.
  rewrite !filter_nonempty_cons, filter_nil.
  by destruct (decide (highlight selection = [])), (decide (monacoContent n = [])).
Qed.

(** X28. While the highlighter is on, the notes after a series of
    selections are the notes before it and the trimmed selections, in
    their order, separated by one blank line; a selection that is
    missing or blank adds nothing, and no blank line is put before the
    first text of empty notes. The highlighter stays on. *)
Theorem highlights_accumulate_as_paragraphs
    (selections : list (option jsstring)) (n : Notes) :
  isHighlightMode n = true →
  let n' := notes (MouseUp <$> selections) n in
  monacoContent n'
  = paragraphs (filter (λ t, t ≠ []) (monacoContent n :: (highlight <$> selections)))
  ∧ isHighlightMode n' = true.
Proof.
  revert n. induction selections as [|s selections IH]; intros n Hh n'.
  - unfold n'. cbn [fmap list_fmap notes foldl]. split; [|done].
    rewrite filter_nonempty_cons, filter_nil.
    by destruct (decide (monacoContent n = [])).
  - unfold n'. cbn [fmap list_fmap notes foldl note].
    destruct (handleSelection_content s n Hh) as [Hh' Hc].
    destruct (IH _ Hh') as [IHc IHh]. unfold notes in IHc, IHh. split; [|done].
    rewrite IHc, Hc. clear.
    set (c := monacoContent n). set (t := highlight s).
    set (rest := filter (λ t, t ≠ []) (highlight <$> selections)).
    assert (Forall (λ t, t ≠ []) rest) as Hrest.
    { apply Forall_forall. intros x. unfold rest. rewrite list_elem_of_filter. tauto. }
    rewrite !filter_nonempty_cons, filter_nil. fold rest.
    destruct (decide (c = [])) as [Hc|Hc], (decide (t = [])) as [Ht|Ht]; cbn [paragraphs].
    + by rewrite decide_True.
    + by rewrite decide_False.
    + by rewrite decide_False.
    + rewrite decide_False by by destruct c.
      destruct rest as [|r rest]; [done|].
      change (paragraphs ((c ++ blank_line ++ t) :: r :: rest))
        with ((c ++ blank_line ++ t) ++ blank_line ++ paragraphs (r :: rest)).
      by rewrite <- !app_assoc.
Qed.


(** ** Rounds of the conversation *)

Lemma flat_step acc msg :
  flat (group_message acc msg)
  = if decide (role msg = assistant ∧ currentGroup acc = None) then flat acc
    else flat acc ++ [msg].
Proof.
  unfold flat, group_message, push_current.
  destruct (role msg), (currentGroup acc) as [g|] eqn:E; cbn [grouped currentGroup];
    rewrite ?E.
  - rewrite decide_False by (by intros [? _]).
    rewrite !fmap_app, !concat_app. cbn. by rewrite !app_nil_r.
  - rewrite decide_False by (by intros [? _]).
    rewrite !fmap_app, !concat_app. cbn. done.
  - rewrite decide_False by (by intros [_ ?]).
    rewrite !fmap_app, !concat_app. cbn. unfold turns. cbn.
    by rewrite !app_nil_r, !app_assoc.
  - by rewrite decide_True.
Qed.

Lemma foldl_group_assistants acc ms :
  currentGroup acc = None → Forall (λ m, role m = assistant) ms →
  foldl group_message acc ms = acc.
Proof.
  intros Hc Hms. induction Hms as [|m ms Hm _ IH]; [done|].
  cbn [foldl]. unfold group_message at 2. by rewrite Hm, Hc.
Qed.

Lemma currentGroup_step acc msg :
  is_Some (currentGroup acc) → is_Some (currentGroup (group_message acc msg)).
Proof. intros [g Hg]. unfold group_message. rewrite Hg. by destruct (role msg). Qed.

Lemma flat_foldl acc ms :
  is_Some (currentGroup acc) →
  flat (foldl group_message acc ms) = flat acc ++ ms.
Proof.
  revert acc. induction ms as [|m ms IH]; intros acc Hc; [by rewrite app_nil_r|].
  cbn [foldl]. rewrite IH by by apply currentGroup_step.
  rewrite flat_step, decide_False; [by rewrite <- app_assoc|].
  intros [_ E]. rewrite E in Hc. by destruct Hc.
Qed.

(** X29. [groupedMessages] drops the assistant turns that come before
    the first user turn (a log of assistant turns only gives no group)
    and keeps everything from the first user turn on: the groups, read
    in order, each one its user turn and then its assistant turns, are
    that part of the log. *)
Theorem groups_are_the_log_from_its_first_user_turn
    (before rest : list ChatMessage) (first : ChatMessage) :
  Forall (λ m, role m = assistant) before →
  role first = user →
  groupedMessages before = []
  ∧ concat (turns <$> groupedMessages (before ++ first :: rest)) = first :: rest.
Proof.
  intros Hb Hf. unfold groupedMessages. split.
  - by rewrite foldl_group_assistants.
  - rewrite foldl_app, (foldl_group_assistants _ before) by done. cbn [foldl].
    fold (flat (foldl group_message
                  (group_message {| grouped := []; currentGroup := None |} first) rest)).
    rewrite flat_foldl; unfold group_message; rewrite Hf; [done|by eexists].
Qed.

Lemma users_step acc msg :
  users (group_message acc msg)
  = users acc ++ (if decide (role msg = user) then [Some msg] else []).
Proof.
  unfold users, group_message, push_current.
  destruct (role msg), (currentGroup acc) as [g|] eqn:E; cbn [grouped currentGroup];
    rewrite ?E, ?fmap_app, ?app_nil_r; try done.
Qed.

Lemma all_assistants_step acc msg :
  Forall (λ g, Forall (λ m, role m = assistant) (group_assistants g)) (push_current acc) →
  Forall (λ g, Forall (λ m, role m = assistant) (group_assistants g))
         (push_current (group_message acc msg)).
Proof.
  unfold group_message, push_current.
  destruct (role msg) eqn:Hr, (currentGroup acc) as [g|] eqn:E;
    cbn [grouped currentGroup]; rewrite ?E.
  - intros H. apply Forall_app. split; [done|]. by repeat constructor.
  - intros H. apply Forall_app. split; [done|]. by repeat constructor.
  - intros [H1 [H2 _]%Forall_cons]%Forall_app. apply Forall_app. split; [done|].
    constructor; [|done]. cbn. apply Forall_app. split; [done|]. by repeat constructor.
  - done.
Qed.

(** X30. [groupedMessages] makes one group for every user turn of the
    log, in the order of the log, and the [assistants] of a group are
    assistant turns only. *)
Theorem one_group_for_every_user_turn (messages : list ChatMessage) :
  group_user <$> groupedMessages messages
  = Some <$> filter (λ m, role m = user) messages
  ∧ Forall (λ g, Forall (λ m, role m = assistant) (group_assistants g))
           (groupedMessages messages).
Proof.
  unfold groupedMessages.
  set (start := {| grouped := []; currentGroup := None |}).
  assert (∀ acc,
    users (foldl group_message acc messages)
    = users acc ++ (Some <$> filter (λ m, role m = user) messages)
    ∧ (Forall (λ g, Forall (λ m, role m = assistant) (group_assistants g)) (push_current acc) →
       Forall (λ g, Forall (λ m, role m = assistant) (group_assistants g))
              (push_current (foldl group_message acc messages)))) as H.
  { induction messages as [|m ms IH]; intros acc; [by rewrite app_nil_r|].
    cbn [foldl]. destruct (IH (group_message acc m)) as [IH1 IH2]. split.
    - rewrite IH1, users_step, filter_cons, <- app_assoc.
      by destruct (decide (role m = user)).
    - intros Ha. by apply IH2, all_assistants_step. }
  destruct (H start) as [H1 H2]. split; [exact H1|]. apply H2. constructor.
Qed.

(** *** The properties above at concrete sessions *)

Lemma deltas_are_appended_in_order_witness :
  let st := session (host := JSON.token_numbers) hi_streaming initial in
  let chunks := [[js "Hel"; js "lo"]; [js " world"]] in
  let st' := run (host := JSON.token_numbers)
               ((λ texts, ReadChunk 0 (delta_chunk texts)) <$> chunks) st in
  orderly [] hi_streaming
  ∧ exchanges st !! 0%nat = Some {| msg := gpt4_placeholder; phase := AwaitRead |}
  ∧ Forall (Forall plain) chunks
  ∧ content <$> messages st' !! 1%nat = Some (js "Hello world")
  ∧ ∃ k p p',
      messages st !! k = Some p
      ∧ id p = id gpt4_placeholder
      ∧ messages st' !! k = Some p'
      ∧ content p' = content p ++ concat (concat chunks)
      ∧ error p' = error p
      ∧ (concat (concat chunks) ≠ [] → loading p' = Some false)
      ∧ (∀ j, j ≠ k → messages st' !! j = messages st !! j)
      ∧ exchanges st' !! 0%nat = Some {| msg := gpt4_placeholder; phase := AwaitRead |}.
Proof.
  intros st chunks st'.
  assert (orderly [] hi_streaming) as Ho by (cbn; split; [constructor|exact I]).
  assert (exchanges st !! 0%nat = Some {| msg := gpt4_placeholder; phase := AwaitRead |})
    as Hx by (vm_compute; reflexivity).
  assert (Forall (Forall plain) chunks) as Hc
    by (repeat constructor; vm_compute; discriminate).
  split; [exact Ho|]. split; [exact Hx|]. split; [exact Hc|].
  split; [vm_compute; reflexivity|].
  exact (deltas_are_appended_in_order (host := JSON.token_numbers)
           hi_streaming 0 gpt4_placeholder chunks Ho Hx Hc).
Defined.

Lemma busy_while_a_turn_is_loading_witness :
  let st := session (host := JSON.token_numbers) hi_session initial in
  gpt4_placeholder ∈ messages st
  ∧ model gpt4_placeholder = Some gpt4
  ∧ gpt4 ≠ []
  ∧ loading gpt4_placeholder = Some true
  ∧ busy gpt4 st = true
  ∧ panelSubmitDisabled gpt4 st ≠ JSON.Normal false.
Proof.
  intros st.
  assert (gpt4_placeholder ∈ messages st) as Hin.
  { apply (list_elem_of_lookup_2 _ 1%nat). vm_compute. reflexivity. }
  split; [exact Hin|]. split; [reflexivity|]. split; [vm_compute; discriminate|].
  split; [reflexivity|].
  apply (busy_while_a_turn_is_loading (host := JSON.token_numbers)
           hi_session gpt4 gpt4_placeholder Hin);
    [reflexivity | vm_compute; discriminate | reflexivity].
Defined.

Lemma idle_once_the_exchanges_have_settled_witness :
  let st := session (host := JSON.token_numbers) hi_answered initial in
  orderly [] hi_answered
  ∧ inherited gpt4 = false
  ∧ (∀ e, e ∈ exchanges st → model (msg e) = Some gpt4 → phase e = Settled)
  ∧ busy gpt4 st = false
  ∧ ∀ m, m ∈ messages st → model m = Some gpt4 → loading m ≠ Some true.
Proof.
  intros st.
  assert (orderly [] hi_answered) as Ho by (cbn; split; [constructor|exact I]).
  assert (∀ e, e ∈ exchanges st → model (msg e) = Some gpt4 → phase e = Settled) as Hs.
  { assert (phase <$> exchanges st = [Settled; Settled]) as E by (vm_compute; reflexivity).
    intros e He _. apply (list_elem_of_fmap_2 phase) in He. rewrite E in He.
    apply elem_of_cons in He as [He|He]; [exact He|].
    apply elem_of_cons in He as [He|He]; [exact He|].
    apply elem_of_nil in He. destruct He. }
  split; [exact Ho|]. split; [vm_compute; reflexivity|]. split; [exact Hs|].
  apply (idle_once_the_exchanges_have_settled (host := JSON.token_numbers)
           hi_answered gpt4 Ho); [vm_compute; reflexivity|exact Hs].
Defined.

Lemma global_prompt_is_free_once_all_has_settled_witness :
  let st := session (host := JSON.token_numbers) hi_answered initial in
  orderly [] hi_answered
  ∧ Forall (λ e, phase e = Settled) (exchanges st)
  ∧ Forall (λ m, inherited m = false) (selected st)
  ∧ globalSubmitDisabled st = false
  ∧ isGlobalLoading st = false
  ∧ Forall (λ m, loading m ≠ Some true) (messages st)
  ∧ globalSubmitDisabled st
    = negb (Js.truthy (Js.trim (prompt st))) || bool_decide (length (selected st) = 0%nat).
Proof.
  intros st.
  assert (orderly [] hi_answered) as Ho by (cbn; split; [constructor|exact I]).
  assert (Forall (λ e, phase e = Settled) (exchanges st)) as Hs.
  { assert (phase <$> exchanges st = [Settled; Settled]) as E by (vm_compute; reflexivity).
    apply (Forall_fmap phase (λ ph, ph = Settled)). rewrite E.
    constructor; [reflexivity|]. constructor; [reflexivity|]. constructor. }
  assert (Forall (λ m, inherited m = false) (selected st)) as Hi.
  { assert (inherited <$> selected st = [false; false]) as E by (vm_compute; reflexivity).
    apply (Forall_fmap inherited (λ b, b = false)). rewrite E.
    constructor; [reflexivity|]. constructor; [reflexivity|]. constructor. }
  split; [exact Ho|]. split; [exact Hs|]. split; [exact Hi|].
  split; [vm_compute; reflexivity|].
  exact (global_prompt_is_free_once_all_has_settled (host := JSON.token_numbers)
           hi_answered Ho Hs Hi).
Defined.

Lemma a_settled_turn_is_final_witness :
  let st := session (host := JSON.token_numbers) hi_answered initial in
  let st' := session (host := JSON.token_numbers) hi_continued st in
  orderly [] (hi_answered ++ hi_continued)
  ∧ exchanges st !! 0%nat = Some {| msg := gpt4_placeholder; phase := Settled |}
  ∧ content <$> messages st' !! 1%nat = Some (js "Hel")
  ∧ length (messages st') = 6%nat
  ∧ ∃ k p,
      messages st !! k = Some p
      ∧ id p = id gpt4_placeholder
      ∧ loading p = Some false
      ∧ messages st' !! k = Some p
      ∧ exchanges st' !! 0%nat = Some {| msg := gpt4_placeholder; phase := Settled |}.
Proof.
  intros st st'.
  assert (orderly [] (hi_answered ++ hi_continued)) as Ho.
  { cbn. split; [constructor|]. split; [|exact I].
    constructor; [|constructor]. intros i j. vm_compute. discriminate. }
  assert (exchanges st !! 0%nat = Some {| msg := gpt4_placeholder; phase := Settled |})
    as Hx by (vm_compute; reflexivity).
  split; [exact Ho|]. split; [exact Hx|]. split; [vm_compute; reflexivity|].
  split; [vm_compute; reflexivity|].
  exact (a_settled_turn_is_final (host := JSON.token_numbers)
           hi_answered hi_continued 0 gpt4_placeholder Ho Hx).
Defined.

Lemma highlights_accumulate_as_paragraphs_witness :
  let n' := notes (MouseUp <$> four_selections) highlighting in
  isHighlightMode highlighting = true
  ∧ monacoContent n' = js "first" ++ blank_line ++ js "second"
  ∧ monacoContent n'
    = paragraphs (filter (λ t, t ≠ [])
                    (monacoContent highlighting :: (highlight <$> four_selections)))
  ∧ isHighlightMode n' = true.
Proof.
  intros n'. split; [reflexivity|]. split; [vm_compute; reflexivity|].
  exact (highlights_accumulate_as_paragraphs four_selections highlighting eq_refl).
Defined.

Lemma groups_are_the_log_from_its_first_user_turn_witness :
  Forall (λ m, role m = assistant) [failed_turn]
  ∧ role hi_turn = user
  ∧ groupedMessages [failed_turn] = []
  ∧ concat (turns <$> groupedMessages ([failed_turn] ++ hi_turn :: [streaming_turn]))
    = hi_turn :: [streaming_turn].
Proof.
  assert (Forall (λ m, role m = assistant) [failed_turn]) as Hb
    by (constructor; [reflexivity|constructor]).
  split; [exact Hb|]. split; [reflexivity|].
  exact (groups_are_the_log_from_its_first_user_turn
           [failed_turn] [streaming_turn] hi_turn Hb eq_refl).
Defined.

(** ** The rule of the projections, and where the filters depart from it *)

Lemma projections_select_by_the_rule_witness :
  plain_scopes mixed_log
  ∧ getHistoryForModelDisplay (js "A") mixed_log
    = [unscoped_turn; to_both_turn; answer_of_A]
  ∧ getHistoryForModelDisplay (js "C") mixed_log = [unscoped_turn]
  ∧ history reply_of_B mixed_log
    = [(user, js "hello"); (user, js "Hi"); (assistant, js "b"); (user, js "why?")]
  ∧ getHistoryForModelDisplay (js "B") mixed_log
    = filter (selects_as_specified (heap mixed_log) (js "B")) (messages mixed_log)
  ∧ ∀ p : ChatMessage,
      model p = Some (js "B") →
      history p mixed_log
      = wire <$> filter (λ m, id m ≠ id p
                              ∧ selects_as_specified (heap mixed_log) (js "B") m)
                        (messages mixed_log).
Proof.
  assert (plain_scopes mixed_log) as Hs.
  { unfold plain_scopes, mixed_log. cbn [messages heap].
    repeat (apply List.Forall_cons;
            [first [ intros H; discriminate H
                   | intros _; exact I
                   | intros _ arr H; discriminate H ]|]).
    apply List.Forall_nil. }
  split; [exact Hs|]. split; [vm_compute; reflexivity|].
  split; [vm_compute; reflexivity|]. split; [vm_compute; reflexivity|].
  exact (projections_select_by_the_rule mixed_log (js "B") Hs).
Defined.

(** C1, on two logs with an ambiguous user turn. A user turn whose
    [model] is "B" and whose [targetModels] contains "A" satisfies the
    rule of the specification for "A", and the projection for "A" leaves
    it out: [model] takes precedence. A user turn whose [model] is the
    empty string, without [targetModels], does not satisfy the rule for
    "A", and the projection for "A" selects it: the empty string is
    taken for no [model]. The history of a request for "A" departs from
    the rule in the same way. *)
Lemma projections_depart_from_the_rule :
  getHistoryForModelDisplay (js "A") both_fields_log
  ≠ filter (selects_as_specified (heap both_fields_log) (js "A"))
           (messages both_fields_log)
  ∧ getHistoryForModelDisplay (js "A") empty_model_log
    ≠ filter (selects_as_specified (heap empty_model_log) (js "A"))
             (messages empty_model_log)
  ∧ history (placeholder 2 0 (js "A")) both_fields_log
    ≠ wire <$> filter (λ m, id m ≠ id (placeholder 2 0 (js "A"))
                            ∧ selects_as_specified (heap both_fields_log) (js "A") m)
                      (messages both_fields_log)
  ∧ ¬ plain_scopes both_fields_log
  ∧ ¬ plain_scopes empty_model_log.
Proof.
  split; [vm_compute; discriminate|]. split; [vm_compute; discriminate|].
  split; [vm_compute; discriminate|]. split.
  - intros H. apply Forall_cons in H as [H _]. specialize (H eq_refl (0%nat) eq_refl).
    specialize (H (js "A")). cbn in H. discriminate H. by apply list_elem_of_here.
  - intros H. apply Forall_cons in H as [H _].
    destruct (H eq_refl) as (arr & Harr & _). discriminate Harr.
Qed.

(** ** Exchanges whose turns share an id *)

(** C3, at two replies submitted within one millisecond (a session from
    the initial state). The second exchange, of [claude3], closes over
    the placeholder at index 3 of the log, which has the id of the
    placeholder of [gpt4] at index 1. Its request fails with status 500:
    the error and [loading = false] land on the turn of [gpt4], and the
    turn of [claude3] keeps loading, without an error. *)
Theorem same_millisecond_failure_marks_the_other_turn :
  let st := session (host := JSON.token_numbers) replies_in_one_millisecond initial in
  let st' := step (host := JSON.token_numbers) (FetchResolved 1 500 true) st in
  (λ e, (model (msg e), phase e)) <$> exchanges st !! 1%nat
  = Some (Some claude3, AwaitFetch)
  ∧ msg <$> exchanges st !! 1%nat = messages st !! 3%nat
  ∧ id <$> messages st
    = [js "1700000000000"; js "1700000000000-0";
       js "1700000000000"; js "1700000000000-0"]
  ∧ (λ m, (model m, error m, loading m)) <$> messages st !! 1%nat
    = Some (Some gpt4, None, Some true)
  ∧ (λ m, (model m, error m, loading m)) <$> messages st' !! 1%nat
    = Some (Some gpt4, Some (js "Status: 500"), Some false)
  ∧ (λ m, (model m, error m, loading m)) <$> messages st' !! 3%nat
    = Some (Some claude3, None, Some true)
  ∧ phase <$> exchanges st' !! 1%nat = Some Settled.
Proof. repeat split; vm_compute; reflexivity. Qed.

(** C7, in the same session. The second exchange, of [claude3], gets a
    successful response and reads the three chunks of the scenario and
    the end of the stream: "Hello" ends up in the turn of [gpt4], and
    the turn of [claude3] stays empty and loading. *)
Theorem same_millisecond_stream_lands_in_the_other_turn :
  let st := session (host := JSON.token_numbers) replies_in_one_millisecond initial in
  let st' :=
    run (host := JSON.token_numbers)
      [FetchResolved 1 200 true; ReadChunk 1 hel_chunk; ReadChunk 1 lo_chunk;
       ReadChunk 1 done_chunk; ReadDone 1] st in
  (λ e, (model (msg e), phase e)) <$> exchanges st !! 1%nat
  = Some (Some claude3, AwaitFetch)
  ∧ msg <$> exchanges st !! 1%nat = messages st !! 3%nat
  ∧ (λ m, (model m, content m, loading m, error m)) <$> messages st' !! 1%nat
    = Some (Some gpt4, js "Hello", Some false, None)
  ∧ (λ m, (model m, content m, loading m, error m)) <$> messages st' !! 3%nat
    = Some (Some claude3, [], Some true, None)
  ∧ phase <$> exchanges st' !! 1%nat = Some Settled.
Proof. repeat split; vm_compute; reflexivity. Qed.

(** C6, on three exits after which the state is not [cleaned_up].
    For the model with the empty identifier, which [if (msg.model)]
    excludes, no flag is written: the first of two exchanges fails, a
    turn of the model is still loading, and the flag does not read as
    true. With two replies submitted within one millisecond, the second
    exchange ends and its turn, at index 3, is still loading: the turn
    at index 1, which has the same id, was cleared in its place. For a
    model called [__proto__] the flag reads as true, whatever was
    assigned, when no turn of the model is loading. *)
Lemma cleanup_misses_a_flag_or_a_turn :
  (let st := session (host := JSON.token_numbers) unnamed_twice initial in
   let st' := step (host := JSON.token_numbers) (FetchResolved 0 500 true) st in
   (λ e, (model (msg e), phase e)) <$> exchanges st !! 0%nat = Some (Some [], AwaitFetch)
   ∧ msg <$> exchanges st !! 0%nat = messages st !! 1%nat
   ∧ phase <$> exchanges st' !! 0%nat = Some Settled
   ∧ ¬ cleaned_up 1 [] st')
  ∧ (let st := session (host := JSON.token_numbers) replies_in_one_millisecond initial in
     let st' := run (host := JSON.token_numbers)
                  [FetchResolved 1 200 true; ReadDone 1] st in
     (λ e, (model (msg e), phase e)) <$> exchanges st !! 1%nat
     = Some (Some claude3, AwaitFetch)
     ∧ msg <$> exchanges st !! 1%nat = messages st !! 3%nat
     ∧ phase <$> exchanges st' !! 1%nat = Some Settled
     ∧ ¬ cleaned_up 3 claude3 st')
  ∧ (let st := session (host := JSON.token_numbers) proto_session initial in
     let st' := step (host := JSON.token_numbers) (FetchResolved 0 500 true) st in
     (λ e, (model (msg e), phase e)) <$> exchanges st !! 0%nat
     = Some (Some proto, AwaitFetch)
     ∧ msg <$> exchanges st !! 0%nat = messages st !! 1%nat
     ∧ phase <$> exchanges st' !! 0%nat = Some Settled
     ∧ ¬ cleaned_up 1 proto st').
Proof.
  split; [|split].
  - cbn zeta. split; [vm_compute; reflexivity|]. split; [vm_compute; reflexivity|].
    split; [vm_compute; reflexivity|]. intros [_ [_ H]].
    assert (busy [] (step (host := JSON.token_numbers) (FetchResolved 0 500 true)
                       (session (host := JSON.token_numbers) unnamed_twice initial))
            = true) as Hb; [|by vm_compute in Hb].
    apply H. exists (placeholder 1700000000001 0 []).
    split; [|by split]. apply (list_elem_of_lookup_2 _ 3%nat). vm_compute. reflexivity.
  - cbn zeta. split; [vm_compute; reflexivity|]. split; [vm_compute; reflexivity|].
    split; [vm_compute; reflexivity|]. intros [(p & Hk & Hl) _].
    assert (loading <$> messages
              (run (host := JSON.token_numbers) [FetchResolved 1 200 true; ReadDone 1]
                 (session (host := JSON.token_numbers) replies_in_one_millisecond
                    initial)) !! 3%nat
            = Some (Some true)) as E by (vm_compute; reflexivity).
    rewrite Hk in E. cbn in E. congruence.
  - cbn zeta. split; [vm_compute; reflexivity|]. split; [vm_compute; reflexivity|].
    split; [vm_compute; reflexivity|]. intros [_ [H _]].
    destruct (H eq_refl) as (m & Hin & _ & Hl).
    assert (loading <$> messages
              (step (host := JSON.token_numbers) (FetchResolved 0 500 true)
                 (session (host := JSON.token_numbers) proto_session initial))
            = [None; Some false]) as E by (vm_compute; reflexivity).
    apply (list_elem_of_fmap_2 loading) in Hin. rewrite E, Hl in Hin.
    apply elem_of_cons in Hin as [Hin|Hin]; [done|].
    apply elem_of_cons in Hin as [Hin|Hin]; [done|]. by apply elem_of_nil in Hin.
Qed.
